(** * ascii-video: the frame-to-ASCII rasterizer and the export orchestrator

    A shallow embedding of the client page of the ascii-video application
    (the module that defines [computeGrid], [brightnessFor],
    [asciiFromVideo], [clampTime], [seekVideo], [ensureFfmpeg] and
    [handleExport]) together with the properties its specification states
    about them.

    Numbers.  A JavaScript [number] is modelled as an exact rational or one
    of the three special values [Infinity], [-Infinity] and [NaN].  The
    special values follow the IEEE rules the source relies on ([NaN]
    propagates through arithmetic and through [Math.max]/[Math.min],
    comparisons with [NaN] are false, a non-zero number divided by zero is
    infinite).  Rounding to binary64, overflow of finite values and the sign
    of zero are not represented: finite arithmetic is exact and zero is
    unsigned. *)

From Stdlib Require Import QArith Qcanon Qround ZArith Lia Lqa.
From Stdlib Require Import Strings.String Strings.Ascii Strings.Byte.
From Stdlib Require Import DecimalString.
From Stdlib Require DecimalPos.
From stdpp Require Import base list gmap sets strings.

#[local] Set Warnings "-clear-no-such-hyp".

Local Open Scope Z_scope.

(** ** JavaScript numbers *)

Module JsNum.

Inductive number : Type :=
| Num (q : Qc)
| PosInf
| NegInf
| NaN.

Definition ofQ (x : Q) : number := Num (Q2Qc x).
Definition ofZ (z : Z) : number := Num (Q2Qc (inject_Z z)).
Definition ofN (n : N) : number := ofZ (Z.of_N n).
Definition ofnat (n : nat) : number := ofZ (Z.of_nat n).

Definition Qc_leb (x y : Qc) : bool := Qle_bool x y.
Definition Qc_ltb (x y : Qc) : bool := negb (Qle_bool y x).
Definition Qc_eqb (x y : Qc) : bool := Qeq_bool x y.

(** Sign of a number that is not [NaN]: [Lt] negative, [Eq] zero, [Gt]
    positive. *)
Definition sign (a : number) : comparison :=
  match a with
  | Num x => (x ?= 0)%Q
  | PosInf => Gt
  | NegInf => Lt
  | NaN => Eq
  end.

Definition is_pos (a : number) : bool :=
  match sign a with Gt => true | _ => false end.
Definition is_neg (a : number) : bool :=
  match sign a with Lt => true | _ => false end.
Definition is_zero (a : number) : bool :=
  match a with Num x => Qc_eqb x 0 | _ => false end.

Definition isNaN (a : number) : bool :=
  match a with NaN => true | _ => false end.
Definition isFinite (a : number) : bool :=
  match a with Num _ => true | _ => false end.

Definition neg (a : number) : number :=
  match a with
  | Num x => Num (- x)
  | PosInf => NegInf
  | NegInf => PosInf
  | NaN => NaN
  end.

Definition add (a b : number) : number :=
  match a, b with
  | NaN, _ | _, NaN => NaN
  | Num x, Num y => Num (x + y)
  | PosInf, NegInf | NegInf, PosInf => NaN
  | PosInf, _ | _, PosInf => PosInf
  | NegInf, _ | _, NegInf => NegInf
  end.

Definition sub (a b : number) : number := add a (neg b).

(** The infinite value whose sign is the product of the signs of [a] and
    [b]; [NaN] when one of them is zero. *)
Definition signed_inf (a b : number) : number :=
  if is_zero a || is_zero b then NaN
  else if Bool.eqb (is_pos a) (is_pos b) then PosInf else NegInf.

Definition mul (a b : number) : number :=
  match a, b with
  | NaN, _ | _, NaN => NaN
  | Num x, Num y => Num (x * y)
  | _, _ => signed_inf a b
  end.

Definition div (a b : number) : number :=
  match a, b with
  | NaN, _ | _, NaN => NaN
  | Num x, Num y =>
      if Qc_eqb y 0 then
        (if Qc_eqb x 0 then NaN else if Qc_ltb 0 x then PosInf else NegInf)
      else Num (x / y)
  | Num _, _ => Num 0
  | _, Num _ => if is_neg b then neg a else a
  | _, _ => NaN
  end.

(** [a < b], [a <= b] and [a === b]; all false when an operand is [NaN]. *)
Definition lt (a b : number) : bool :=
  match a, b with
  | NaN, _ | _, NaN => false
  | Num x, Num y => Qc_ltb x y
  | NegInf, NegInf | PosInf, _ => false
  | NegInf, _ | _, PosInf => true
  | _, NegInf => false
  end.

Definition le (a b : number) : bool :=
  match a, b with
  | NaN, _ | _, NaN => false
  | Num x, Num y => Qc_leb x y
  | NegInf, _ | _, PosInf => true
  | _, _ => false
  end.

Definition eqb (a b : number) : bool :=
  match a, b with
  | Num x, Num y => Qc_eqb x y
  | PosInf, PosInf | NegInf, NegInf => true
  | _, _ => false
  end.

(** [Math.max] and [Math.min] of two arguments. *)
Definition max (a b : number) : number :=
  match a, b with
  | NaN, _ | _, NaN => NaN
  | _, _ => if lt a b then b else a
  end.

Definition min (a b : number) : number :=
  match a, b with
  | NaN, _ | _, NaN => NaN
  | _, _ => if lt b a then b else a
  end.

(** [Math.floor], [Math.ceil] and [Math.round] (halves round up). *)
Definition floor (a : number) : number :=
  match a with Num x => ofZ (Qfloor x) | _ => a end.
Definition ceil (a : number) : number :=
  match a with Num x => ofZ (Qceiling x) | _ => a end.
Definition round (a : number) : number :=
  match a with Num x => ofZ (Qfloor (x + Q2Qc (1 # 2))) | _ => a end.

(** The value is an integer: the exact integer it denotes. *)
Definition as_integer (a : number) : option Z :=
  match a with
  | Num x => if Qc_eqb x (Q2Qc (inject_Z (Qfloor x))) then Some (Qfloor x) else None
  | _ => None
  end.

End JsNum.

Import JsNum.

Declare Scope js_scope.
Delimit Scope js_scope with js.
Bind Scope js_scope with number.
Infix "+" := add : js_scope.
Infix "-" := sub : js_scope.
Infix "*" := mul : js_scope.
Infix "/" := div : js_scope.
Notation "# x" := (ofQ x%Q) (at level 5, x constr at level 0, format "# x") : js_scope.

(** ** Strings

    Messages, file names and CSS colours are byte strings (they are ASCII
    in the source).  A glyph palette is indexed by UTF-16 code unit, so it is
    a list of code units (the "Blocks" preset is not ASCII). *)

Definition char16 := N.
Definition jsstring := list char16.

Fixpoint utf16 (s : string) : jsstring :=
  match s with
  | EmptyString => []
  | String c s' => N_of_ascii c :: utf16 s'
  end.

(** [String(z)] for an integer. *)
Definition string_of_Z (z : Z) : string := NilZero.string_of_int (Z.to_int z).

(** [String(n)].  The decimal digits JavaScript prints for a number that is
    not an integer depend on its binary64 value, which the exact model does
    not determine; such a number is printed as a fraction.  The source only
    prints integers (array indices, frame counts, rounded colour channels). *)
Definition toString (a : number) : string :=
  match a with
  | NaN => "NaN"
  | PosInf => "Infinity"
  | NegInf => "-Infinity"
  | Num x =>
      match as_integer a with
      | Some z => string_of_Z z
      | None => string_of_Z (Qnum x) +:+ "/" +:+ string_of_Z (Zpos (Qden x))
      end
  end.

Fixpoint repeat_string (n : nat) (pad : string) : string :=
  match n with O => "" | S n' => pad +:+ repeat_string n' pad end.

(** [s.padStart(n, "0")]. *)
Definition padStart0 (n : nat) (s : string) : string :=
  repeat_string (n - String.length s) "0" +:+ s.

(** [haystack.includes(needle)]. *)
Fixpoint includes (needle haystack : string) : bool :=
  String.prefix needle haystack ||
  match haystack with
  | EmptyString => false
  | String _ rest => includes needle rest
  end.

(** ** Constants and data model *)

Local Open Scope js_scope.

Record CharacterPreset := { preset_label : string; preset_value : string; preset_charset : jsstring }.

Definition CHARACTER_PRESETS : list CharacterPreset :=
  [ {| preset_label := "Dense Symbols"; preset_value := "dense";
       preset_charset :=
         utf16 "@#%$&8BWMX*oahkbdpqwmZO0QLCJUYXzcvunxrjft/\|()1{}[]?-_+~<>i!lI;:,"
         ++ [34%N] ++ utf16 "^`'. " |};
    {| preset_label := "Blocks"; preset_value := "blocks";
       preset_charset := [9608; 9619; 9618; 9617]%N ++ utf16 "#*+=-:. " |};
    {| preset_label := "Minimal"; preset_value := "minimal";
       preset_charset := utf16 "@$%#*+=-:. " |} ].

Record Scheme := { scheme_label : string; scheme_value : string; foreground : string; accent : string }.

Definition COLOR_SCHEMES : list Scheme :=
  [ {| scheme_label := "Matrix Green"; scheme_value := "matrix"; foreground := "#33ff66"; accent := "#00b140" |};
    {| scheme_label := "Amber"; scheme_value := "amber"; foreground := "#ffbf00"; accent := "#d17c00" |};
    {| scheme_label := "Monochrome"; scheme_value := "mono"; foreground := "#f0f0f0"; accent := "#aaaaaa" |};
    {| scheme_label := "Cyberpunk"; scheme_value := "cyber"; foreground := "#00f6ff"; accent := "#ff00f7" |} ].

Definition VIEWPORT_WIDTH : number := #960.
Definition VIEWPORT_HEIGHT : number := #540.
Definition DEFAULT_ASPECT : number := VIEWPORT_WIDTH / VIEWPORT_HEIGHT.
Definition PREVIEW_FPS : number := #12.

Record TierConfig := {
  fps : number;
  minCharPixel : number;
  maxCharPixel : number;
  watermark : option string
}.

Definition FREE_EXPORT_CONFIG : TierConfig :=
  {| fps := #10; minCharPixel := #8; maxCharPixel := #12;
     watermark := Some "create your ascii video at https://ascii.video" |}.

Definition PREMIUM_EXPORT_CONFIG : TierConfig :=
  {| fps := #24; minCharPixel := #6; maxCharPixel := #12; watermark := None |}.

Inductive ExportFormat := gif | mp4 | mov.

Record AsciiCell := {
  char : jsstring;
  color : string;
  brightness : number
}.

Record AsciiFrame := {
  width : number;
  height : number;
  charWidth : number;
  charHeight : number;
  rows : list (list AsciiCell)
}.

Inductive ExportStatus :=
| idle | initializing | sampling | encoding | delivering | error | done.

Record ExportState := {
  status : ExportStatus;
  format : option ExportFormat;
  progress : number;
  message : option string
}.

Definition OUTPUT_NAME (f : ExportFormat) : string :=
  match f with
  | gif => "ascii-output.gif"
  | mp4 => "ascii-output.mp4"
  | mov => "ascii-output.mov"
  end.

Definition MIME_BY_FORMAT (f : ExportFormat) : string :=
  match f with
  | gif => "image/gif"
  | mp4 => "video/mp4"
  | mov => "video/quicktime"
  end.

(** A value that was thrown, or with which a promise was rejected: an
    [Error] with its message, or anything else. *)
Inductive thrown :=
| ErrorObj (msg : string)
| OtherValue (text : string).

Inductive completion (A : Type) :=
| Normal (a : A)
| Throw (e : thrown).
Arguments Normal {A} a.
Arguments Throw {A} e.

(** The video element.  [videoWidth] and [videoHeight] are DOM unsigned
    integers.  [picture t w h] is the frame shown at time [t] as
    [drawImage] scales it to [w] by [h] (with image smoothing, which the
    rasterizer switches on before it draws): RGBA bytes in row-major
    order.  [assignments] counts the
    assignments made to [currentTime] so far, and [seekFault k t] is the
    exception, if any, that the assignment number [k] raises when it is
    given [t]. *)
Record HTMLVideoElement := {
  videoWidth : N;
  videoHeight : N;
  duration : number;
  currentTime : number;
  paused : bool;
  assignments : nat;
  picture : number -> nat -> nat -> list byte;
  seekFault : nat -> number -> option thrown
}.

(** The scratch canvas of the rasterizer: whether [getContext("2d")]
    yields a context, the size of its bitmap, the bitmap itself (RGBA bytes
    in row-major order: what earlier drawing left there), the drawing state
    of its context (opacity, filter and the like) as what it does to the
    pixels of an image that is drawn, and the exception, if any, with which
    [getImageData] refuses a rectangle of a given size because the
    implementation cannot allocate it. *)
Record HTMLCanvasElement := {
  context2d : bool;
  canvasWidth : nat;
  canvasHeight : nat;
  bitmap : list byte;
  drawingState : list byte -> list byte;
  imageDataFault : nat -> nat -> option thrown
}.

(** The drawing state of a context that was just made or reset. *)
Definition DEFAULT_STATE : list byte -> list byte := fun pixels => pixels.

(** [document.createElement("canvas")]: 300 by 150 transparent pixels. *)
Definition createCanvas (context : bool) (fault : nat -> nat -> option thrown)
  : HTMLCanvasElement :=
  {| context2d := context; canvasWidth := 300; canvasHeight := 150;
     bitmap := replicate (4 * 300 * 150) Byte.x00; drawingState := DEFAULT_STATE;
     imageDataFault := fault |}.

(** [canvas.width = w] and [canvas.height = h]: the bitmap is replaced by a
    transparent one of the new size, and the drawing state of the context
    is reset. *)
Definition setCanvasWidth (w : nat) (c : HTMLCanvasElement) : HTMLCanvasElement :=
  {| context2d := context2d c; canvasWidth := w; canvasHeight := canvasHeight c;
     bitmap := replicate (4 * w * canvasHeight c) Byte.x00;
     drawingState := DEFAULT_STATE;
     imageDataFault := imageDataFault c |}.

Definition setCanvasHeight (h : nat) (c : HTMLCanvasElement) : HTMLCanvasElement :=
  {| context2d := context2d c; canvasWidth := canvasWidth c; canvasHeight := h;
     bitmap := replicate (4 * canvasWidth c * h) Byte.x00;
     drawingState := DEFAULT_STATE;
     imageDataFault := imageDataFault c |}.

(** [context.drawImage(video, 0, 0, w, h)]: the pixel at column [x] of row
    [y] of the canvas, for [x < w] and [y < h], becomes that pixel of the
    frame scaled to [w] by [h], as the drawing state renders it (in the
    default state a video frame, which is opaque, replaces the old pixel);
    every other pixel stays. *)
Definition drawImage (video : HTMLVideoElement) (w h : nat) (c : HTMLCanvasElement)
  : HTMLCanvasElement :=
  let scaled := drawingState c (picture video (currentTime video) w h) in
  {| context2d := context2d c; canvasWidth := canvasWidth c; canvasHeight := canvasHeight c;
     bitmap :=
       imap (fun i old =>
               let pixel := (i / 4)%nat in
               let x := (pixel mod canvasWidth c)%nat in
               let y := (pixel / canvasWidth c)%nat in
               if (x <? w)%nat && (y <? h)%nat
               then default old (scaled !! (4 * (y * w + x) + i mod 4)%nat)
               else old)
            (bitmap c);
     drawingState := drawingState c;
     imageDataFault := imageDataFault c |}.

(** [context.getImageData(0, 0, w, h).data]: [4 * w * h] bytes, the pixels
    of the rectangle row by row; a pixel outside the canvas is transparent
    black. *)
Definition getImageData (w h : nat) (c : HTMLCanvasElement) : list byte :=
  (fun i =>
     let pixel := (i / 4)%nat in
     let x := (pixel mod w)%nat in
     let y := (pixel / w)%nat in
     if (x <? canvasWidth c)%nat && (y <? canvasHeight c)%nat
     then default Byte.x00 (bitmap c !! (4 * (y * canvasWidth c + x) + i mod 4)%nat)
     else Byte.x00) <$> seq 0 (4 * w * h).

Record Rgb := { r : number; g : number; b : number }.

(** ** Colour helpers *)

Definition hex_digit (c : ascii) : option Z :=
  let n := Z.of_N (N_of_ascii c) in
  if ((48 <=? n) && (n <=? 57))%Z then Some (n - 48)%Z
  else if ((97 <=? n) && (n <=? 102))%Z then Some (n - 87)%Z
  else if ((65 <=? n) && (n <=? 70))%Z then Some (n - 55)%Z
  else None.

Fixpoint hex_prefix (s : string) (acc : option Z) : option Z :=
  match s with
  | EmptyString => acc
  | String c s' =>
      match hex_digit c with
      | Some d => hex_prefix s' (Some (match acc with Some a => 16 * a + d | None => d end)%Z)
      | None => acc
      end
  end.

Definition is_space (c : ascii) : bool :=
  let n := N_of_ascii c in
  (n =? 32)%N || ((9 <=? n)%N && (n <=? 13)%N).

Fixpoint skip_spaces (s : string) : string :=
  match s with
  | String c s' => if is_space c then skip_spaces s' else s
  | EmptyString => s
  end.

(** [parseInt(s, 16)]: leading white space, an optional sign, an optional
    [0x], then the longest run of hexadecimal digits; [NaN] without one. *)
Definition parseInt16 (s : string) : number :=
  let s1 := skip_spaces s in
  let '(negative, s2) :=
    match s1 with
    | String "-" t => (true, t)
    | String "+" t => (false, t)
    | _ => (false, s1)
    end in
  let s3 :=
    match s2 with
    | String "0" (String "x" t) | String "0" (String "X" t) => t
    | _ => s2
    end in
  match hex_prefix s3 None with
  | Some z => ofZ (if negative then (- z)%Z else z)
  | None => NaN
  end.

(** [ToInt32]: the operand of [>>] and [&]. *)
Definition toInt32 (a : number) : Z :=
  match a with
  | Num x =>
      let t := if Qc_ltb x 0 then Qceiling x else Qfloor x in
      ((t + 2 ^ 31) mod 2 ^ 32 - 2 ^ 31)%Z
  | _ => 0%Z
  end.

Fixpoint replace_first_hash (s : string) : string :=
  match s with
  | EmptyString => EmptyString
  | String c s' => if Ascii.eqb c "#" then s' else String c (replace_first_hash s')
  end.

(** [s.replace(/./g, c => c + c)]: the dot matches every character but a
    line terminator. *)
Fixpoint double_chars (s : string) : string :=
  match s with
  | EmptyString => EmptyString
  | String c s' =>
      if Ascii.eqb c "010" || Ascii.eqb c "013" then String c (double_chars s')
      else String c (String c (double_chars s'))
  end.

Definition hexToRgb (hex : string) : Rgb :=
  let normalized := replace_first_hash hex in
  let value := if (String.length normalized =? 3)%nat then double_chars normalized else normalized in
  let int := toInt32 (parseInt16 value) in
  {| r := ofZ (Z.land (Z.shiftr int 16) 255);
     g := ofZ (Z.land (Z.shiftr int 8) 255);
     b := ofZ (Z.land int 255) |}.

Definition mixColor (a b0 : Rgb) (ratio : number) : Rgb :=
  {| r := round (r a * (#1 - ratio) + r b0 * ratio);
     g := round (g a * (#1 - ratio) + g b0 * ratio);
     b := round (b a * (#1 - ratio) + b b0 * ratio) |}.

Definition rgbToCss (c : Rgb) : string :=
  "rgb(" +:+ toString (r c) +:+ ", " +:+ toString (g c) +:+ ", " +:+ toString (b c) +:+ ")".

(** ** Grid geometry and rasterizer *)

Record Grid := {
  grid_width : number;
  grid_height : number;
  grid_charWidth : number;
  grid_charHeight : number
}.

Definition computeGrid (video : HTMLVideoElement) (charPixelSize : number) : Grid :=
  let charWidth := max #1 (charPixelSize * #0.62) in
  let charHeight := charPixelSize * #1.2 in
  let videoAspect :=
    if negb (N.eqb (videoWidth video) 0) && negb (N.eqb (videoHeight video) 0)
    then ofN (videoWidth video) / ofN (videoHeight video)
    else DEFAULT_ASPECT in
  let rows := max #12 (floor (VIEWPORT_HEIGHT / charHeight)) in
  let cols := max #16 (floor (rows * videoAspect * (charHeight / charWidth))) in
  {| grid_width := cols; grid_height := rows;
     grid_charWidth := charWidth; grid_charHeight := charHeight |}.

Definition brightnessFor (r g b : number) : number :=
  (#0.2126 * r + #0.7152 * g + #0.0722 * b) / #255.

(** [data[i]] of the [Uint8ClampedArray] read back from the canvas; reading
    past the end gives [undefined], which arithmetic turns into [NaN]. *)
Definition sample (data : list byte) (i : nat) : number :=
  match data !! i with
  | Some v => ofN (Byte.to_N v)
  | None => NaN
  end.

(** [charset[index] ?? " "]. *)
Definition glyphAt (charset : jsstring) (index : number) : jsstring :=
  match as_integer index with
  | Some z =>
      if (0 <=? z)%Z then
        match charset !! Z.to_nat z with
        | Some c => [c]
        | None => utf16 " "
        end
      else utf16 " "
  | None => utf16 " "
  end.

(** The local [clampedContrast] of [asciiFromVideo]. *)
Definition clampedContrast (contrast : number) : number :=
  max #0.2 (min #2.5 contrast).

(** The local [adjusted] of [asciiFromVideo], from the pixel brightness and
    the clamped contrast. *)
Definition adjusted (bright clamped : number) : number :=
  max #0 (min #1 ((bright - #0.5) * clamped + #0.5)).

(** The body of the inner loop of [asciiFromVideo]: the cell at column [x]
    of row [y] of a grid [w] columns wide. *)
Definition cellAt (data : list byte) (charset : jsstring)
    (accentRgb foregroundRgb : Rgb) (clamped : number) (w y x : nat) : AsciiCell :=
  let offset := ((y * w + x) * 4)%nat in
  let r := sample data offset in
  let g := sample data (offset + 1) in
  let b := sample data (offset + 2) in
  let bright := brightnessFor r g b in
  let adj := adjusted bright clamped in
  let last := ofnat (length charset) - #1 in
  let index := max #0 (min last (round ((#1 - adj) * last))) in
  let char := glyphAt charset index in
  let blended := mixColor accentRgb foregroundRgb adj in
  {| char := char; color := rgbToCss blended; brightness := adj |}.

(** The greatest value of a WebIDL [long], the type of the arguments of
    [getImageData]. *)
Definition MAX_LONG : Z := 2147483647.

(** A grid dimension as an argument of [getImageData] and as a loop bound:
    an integer, not negative, that a [long] can hold.  ([new Array(n)]
    refuses a length from [2 ^ 32] on, which is beyond this range; a grid
    dimension that is a number is at least 12.) *)
Definition as_dim (a : number) : option nat :=
  match as_integer a with
  | Some z => if (0 <=? z)%Z && (z <=? MAX_LONG)%Z then Some (Z.to_nat z) else None
  | None => None
  end.

(** The exception of [getImageData] for a grid dimension that is not a
    finite integer in the range of a [long] (the text of the message is the
    browser's). *)
Definition GRID_FAULT : thrown := ErrorObj "The source width or height is not a finite integer".

(** [asciiFromVideo]: [Normal None] is the source's [null]. *)
Definition asciiFromVideo (video : HTMLVideoElement) (bufferCanvas : HTMLCanvasElement)
    (charset : jsstring) (scheme : Scheme) (charPixelSize contrast : number)
  : completion (option AsciiFrame) :=
  let grid := computeGrid video charPixelSize in
  if negb (context2d bufferCanvas) then Normal None
  else
    match as_dim (grid_width grid), as_dim (grid_height grid) with
    | Some w, Some h =>
        let drawn := drawImage video w h (setCanvasHeight h (setCanvasWidth w bufferCanvas)) in
        match imageDataFault drawn w h with
        | Some e => Throw e
        | None =>
            let data := getImageData w h drawn in
            let accentRgb := hexToRgb (accent scheme) in
            let foregroundRgb := hexToRgb (foreground scheme) in
            let clamped := clampedContrast contrast in
            let rows :=
              map (fun y => map (cellAt data charset accentRgb foregroundRgb clamped w y)
                                (seq 0 w))
                  (seq 0 h) in
            Normal (Some {| width := grid_width grid; height := grid_height grid;
                            charWidth := grid_charWidth grid;
                            charHeight := grid_charHeight grid;
                            rows := rows |})
        end
    | _, _ => Throw GRID_FAULT
    end.

(** The first [n] bytes of [data], with transparent bytes where [data] has
    none. *)
Definition fitted (n : nat) (data : list byte) : list byte :=
  (fun i => default Byte.x00 (data !! i)) <$> seq 0 n.

(** The raw luminance of a pixel, the numerator of [brightnessFor]. *)
Definition luminance (r g b : number) : number :=
  #0.2126 * r + #0.7152 * g + #0.0722 * b.

(** ** Frame-accurate seeking *)

Definition clampTime (duration time : number) : number :=
  if eqb duration PosInf || isNaN duration then time
  else min (max time #0) (max #0 (duration - #0.001)).

(** [String(error)] and [error.message] of a thrown value. *)
Definition reasonOf (e : thrown) : string :=
  match e with
  | ErrorObj msg => msg
  | OtherValue text => text
  end.

(** What can happen after the executor of the promise of [seekVideo] has
    run: the stream signals "seeked", or the 800 ms timer expires. *)
Inductive SeekEvent := Seeked | TimerFired.

(** The state of one [seekVideo] call: the element, the locals [resolved]
    and [timeout] of the closure, whether the "seeked" listener is
    registered, whether the timer is still pending in the window, and the
    state of the returned promise ([None] while it is pending). *)
Record SeekState := {
  sk_video : HTMLVideoElement;
  sk_resolved : bool;
  sk_timeout : option positive;
  sk_listener : bool;
  sk_timer_pending : bool;
  sk_promise : option (completion unit)
}.

Definition setPaused (v : HTMLVideoElement) (p : bool) : HTMLVideoElement :=
  {| videoWidth := videoWidth v; videoHeight := videoHeight v; duration := duration v;
     currentTime := currentTime v; paused := p; assignments := assignments v;
     picture := picture v; seekFault := seekFault v |}.

(** [video.pause()]; it has no failure mode in the DOM. *)
Definition pause (v : HTMLVideoElement) : HTMLVideoElement := setPaused v true.

(** [video.currentTime = t]: the element after the assignment, and the
    exception when the element refuses the value (its position is then
    unchanged). *)
Definition setCurrentTime (v : HTMLVideoElement) (t : number)
  : HTMLVideoElement * option thrown :=
  let fault := seekFault v (assignments v) t in
  ({| videoWidth := videoWidth v; videoHeight := videoHeight v; duration := duration v;
      currentTime := match fault with Some _ => currentTime v | None => t end;
      paused := paused v; assignments := S (assignments v);
      picture := picture v; seekFault := seekFault v |},
   fault).

(** Settling a promise a second time has no effect. *)
Definition settle (p : option (completion unit)) (c : completion unit) : option (completion unit) :=
  match p with
  | None => Some c
  | Some _ => p
  end.

Definition seek_cleanup (st : SeekState) : SeekState :=
  {| sk_video := sk_video st; sk_resolved := sk_resolved st; sk_timeout := sk_timeout st;
     sk_listener := false;
     sk_timer_pending := match sk_timeout st with Some _ => false | None => sk_timer_pending st end;
     sk_promise := sk_promise st |}.

Definition seek_finish (st : SeekState) : SeekState :=
  if sk_resolved st then st
  else
    let st1 := seek_cleanup st in
    {| sk_video := pause (sk_video st1); sk_resolved := true; sk_timeout := sk_timeout st1;
       sk_listener := sk_listener st1; sk_timer_pending := sk_timer_pending st1;
       sk_promise := settle (sk_promise st1) (Normal tt) |}.

Definition seek_fail (reason : string) (st : SeekState) : SeekState :=
  if sk_resolved st then st
  else
    let st1 := seek_cleanup st in
    {| sk_video := sk_video st1; sk_resolved := true; sk_timeout := sk_timeout st1;
       sk_listener := sk_listener st1; sk_timer_pending := sk_timer_pending st1;
       sk_promise := settle (sk_promise st1) (Throw (ErrorObj reason)) |}.

(** The executor of the promise: it runs to its end before any event is
    delivered. *)
Definition seek_start (video : HTMLVideoElement) (time : number) : SeekState :=
  let target := clampTime (duration video) time in
  let st :=
    {| sk_video := video; sk_resolved := false; sk_timeout := Some 1%positive;
       sk_listener := true; sk_timer_pending := true; sk_promise := None |} in
  let '(v, fault) := setCurrentTime (pause video) target in
  let st1 :=
    {| sk_video := v; sk_resolved := sk_resolved st; sk_timeout := sk_timeout st;
       sk_listener := sk_listener st; sk_timer_pending := sk_timer_pending st;
       sk_promise := sk_promise st |} in
  match fault with
  | None => st1
  | Some e => seek_fail (reasonOf e) st1
  end.

(** Delivery of one event: the listener is registered with [once], the
    timer fires at most once and only while it is pending. *)
Definition seek_step (st : SeekState) (ev : SeekEvent) : SeekState :=
  match ev with
  | Seeked =>
      if sk_listener st then
        seek_finish
          {| sk_video := sk_video st; sk_resolved := sk_resolved st; sk_timeout := sk_timeout st;
             sk_listener := false; sk_timer_pending := sk_timer_pending st;
             sk_promise := sk_promise st |}
      else st
  | TimerFired =>
      if sk_timer_pending st then
        seek_finish
          {| sk_video := sk_video st; sk_resolved := sk_resolved st; sk_timeout := sk_timeout st;
             sk_listener := sk_listener st; sk_timer_pending := false;
             sk_promise := sk_promise st |}
      else st
  end.

Definition seekVideo (video : HTMLVideoElement) (time : number) (events : list SeekEvent)
  : SeekState :=
  fold_left seek_step events (seek_start video time).

(** [await seekVideo(video, time)]: the timer is armed by the executor and
    expires after whatever the stream signalled in the meantime.  The
    promise is settled by then ([awaitSeek_settled] below), so the last
    branch is never taken. *)
Definition awaitSeek (video : HTMLVideoElement) (time : number) (signals : list SeekEvent)
  : HTMLVideoElement * completion unit :=
  let st := seekVideo video time (signals ++ [TimerFired]) in
  (sk_video st,
   match sk_promise st with
   | Some c => c
   | None => Normal tt
   end).

Definition is_rejected (st : SeekState) : bool :=
  match sk_promise st with Some (Throw _) => true | _ => false end.

(** The target of a seek lies in [[0, duration - 0.001]]. *)
Definition seekTargetClamped (duration time : number) : bool :=
  le #0 (clampTime duration time) && le (clampTime duration time) (duration - #0.001).

(** ** The export orchestrator

    [handleExport] runs against the page state it mutates and against an
    environment that fixes what the outside world does during the run: the
    encoder, the decoder, the canvases.  Every awaited promise is taken to
    settle; of a run in which one never does (the wait for "canplay" has
    neither a rejection nor a timeout) only an earlier part takes place,
    and what such a run has done is what the run modelled here has done up
    to that point.  The drawing of a rasterized frame onto the export canvas
    (glyphs grouped by colour, watermark) decides only the bytes of the
    still that is written and is not represented. *)

Inductive Entitlement := free | premium.

(** The encoder instance: the names in its virtual file store. *)
Record FFmpeg := { files : gset string }.

Inductive TimerAction :=
| RevokeDownloadUrl
| ResetExportState (s : ExportState).

(** What the handler does to the world, in the order it does it. *)
Inductive Effect :=
| SetExportState (s : ExportState)
| SetStatus (text : string)
| SeekTo (index : nat) (target : number)
| WriteFile (name : string)
| Exec (args : list string)
| ReadFile (name : string)
| DeleteFile (name : string)
| Download (name mime : string)
| SetTimeout (ms : N) (action : TimerAction).

Record Environment := {
  selectedFile : bool;
  entitlement : Entitlement;
  charset : jsstring;
  chosenScheme : Scheme;
  (** [charPixelRef.current] and [contrastRef.current] when the frame of a
      given index is rasterized. *)
  charPixelRef : nat -> number;
  contrastRef : nat -> number;
  (** [ffmpeg.load()] rejects. *)
  loadFault : option thrown;
  (** The sampling element fires "loadedmetadata" (rather than "error"),
      and is then [source]. *)
  metadataLoads : bool;
  source : HTMLVideoElement;
  (** [samplingVideo.play()] rejects (autoplay is blocked). *)
  playFault : option thrown;
  (** [readyState >= HAVE_CURRENT_DATA] after the first play attempt. *)
  haveCurrentData : bool;
  (** The export canvas and the scratch canvas provide a 2D context. *)
  exportContext : bool;
  bufferContext : bool;
  (** [getImageData] on the scratch canvas refuses a rectangle of a given
      size. *)
  bufferFault : nat -> nat -> option thrown;
  (** What the stream signals during the seek to the frame of an index. *)
  seekSignals : nat -> list SeekEvent;
  (** [canvasToUint8Array] or [ffmpeg.writeFile] rejects for a frame. *)
  pngFault : nat -> option thrown;
  writeFault : nat -> option thrown;
  (** [ffmpeg.exec]: rejects, or produces files. *)
  exec : list string -> completion (list string);
  (** The exit code with which [ffmpeg.exec] resolves (0 when the encoding
      succeeded); the handler does not look at it. *)
  exitCode : list string -> Z;
  (** [ffmpeg.readFile] rejects although the file exists. *)
  readFault : option thrown
}.

Record Page := {
  ffmpegRef : option FFmpeg;
  samplingVideo : HTMLVideoElement;
  objectUrl : option string;
  outputName : option string;
  totalFrames : number;
  trace : list Effect
}.

Definition with_ffmpegRef (f : option FFmpeg) (s : Page) : Page :=
  {| ffmpegRef := f; samplingVideo := samplingVideo s; objectUrl := objectUrl s;
     outputName := outputName s; totalFrames := totalFrames s; trace := trace s |}.
Definition with_samplingVideo (v : HTMLVideoElement) (s : Page) : Page :=
  {| ffmpegRef := ffmpegRef s; samplingVideo := v; objectUrl := objectUrl s;
     outputName := outputName s; totalFrames := totalFrames s; trace := trace s |}.
Definition with_objectUrl (u : option string) (s : Page) : Page :=
  {| ffmpegRef := ffmpegRef s; samplingVideo := samplingVideo s; objectUrl := u;
     outputName := outputName s; totalFrames := totalFrames s; trace := trace s |}.
Definition with_outputName (n : option string) (s : Page) : Page :=
  {| ffmpegRef := ffmpegRef s; samplingVideo := samplingVideo s; objectUrl := objectUrl s;
     outputName := n; totalFrames := totalFrames s; trace := trace s |}.
Definition with_totalFrames (n : number) (s : Page) : Page :=
  {| ffmpegRef := ffmpegRef s; samplingVideo := samplingVideo s; objectUrl := objectUrl s;
     outputName := outputName s; totalFrames := n; trace := trace s |}.
Definition with_trace (t : list Effect) (s : Page) : Page :=
  {| ffmpegRef := ffmpegRef s; samplingVideo := samplingVideo s; objectUrl := objectUrl s;
     outputName := outputName s; totalFrames := totalFrames s; trace := t |}.

(** Computations of the handler: they read and write the page and end
    normally or by throwing. *)
Definition M (A : Type) : Type := Page -> completion A * Page.

#[global] Instance M_ret : MRet M := fun A a s => (Normal a, s).
#[global] Instance M_bind : MBind M := fun A B f m s =>
  match m s with
  | (Normal a, s') => f a s'
  | (Throw e, s') => (Throw e, s')
  end.

Definition throw {A : Type} (e : thrown) : M A := fun s => (Throw e, s).
Definition get : M Page := fun s => (Normal s, s).
Definition modify (f : Page -> Page) : M unit := fun s => (Normal tt, f s).
Definition emit (e : Effect) : M unit := modify (fun s => with_trace (trace s ++ [e]) s).

Definition tryCatch {A : Type} (body : M A) (handler : thrown -> M A) : M A := fun s =>
  match body s with
  | (Throw e, s') => handler e s'
  | r => r
  end.

Definition tryFinally {A : Type} (body : M A) (finalizer : M unit) : M A := fun s =>
  let '(r, s1) := body s in
  match finalizer s1 with
  | (Normal _, s2) => (r, s2)
  | (Throw e, s2) => (Throw e, s2)
  end.

(** [for (let i = first; i < first + count; i++) body(i)]; a [continue] is
    a body that ends early. *)
Fixpoint forRange (body : nat -> M unit) (first count : nat) : M unit :=
  match count with
  | O => mret tt
  | S k => body first;; forRange body (S first) k
  end.

(** How often [for (let i = 0; i < n; i++)] runs its body.  The bound of
    both loops of the handler is [totalFrames], which is never [Infinity]
    ([body_totalFrames_not_infinite] below). *)
Definition iterations (n : number) : nat :=
  match n with
  | Num q => Z.to_nat (Qceiling q)
  | _ => 0%nat
  end.

Definition setExportState (s : ExportState) : M unit := emit (SetExportState s).
Definition setStatus (text : string) : M unit := emit (SetStatus text).

Definition tierConfigOf (e : Entitlement) : TierConfig :=
  match e with premium => PREMIUM_EXPORT_CONFIG | free => FREE_EXPORT_CONFIG end.

Definition isFreeTier (e : Entitlement) : bool :=
  match e with premium => false | free => true end.

Definition ENCODER_UNAVAILABLE : string :=
  "Failed to initialize video encoder. Please ensure your browser supports SharedArrayBuffer and CORS headers are properly configured.".

(** [ensureFfmpeg]: the instance is the one [ffmpegRef] holds afterwards. *)
Definition ensureFfmpeg (env : Environment) : M unit :=
  s ← get;
  match ffmpegRef s with
  | Some _ => mret tt
  | None =>
      match loadFault env with
      | Some _ => throw (ErrorObj ENCODER_UNAVAILABLE)
      | None => modify (with_ffmpegRef (Some {| files := ∅ |}))
      end
  end.

(** The file operations of the encoder instance in [ffmpegRef].  They
    reject with a string, the text of the error that the worker of the
    encoder caught, not with an [Error]. *)
Definition FS_ERROR : thrown := OtherValue "ErrnoError: FS error".

Definition storeOf (s : Page) : gset string :=
  match ffmpegRef s with
  | Some f => files f
  | None => ∅
  end.

Definition setStore (st : gset string) : M unit :=
  modify (fun s => match ffmpegRef s with
                   | Some _ => with_ffmpegRef (Some {| files := st |}) s
                   | None => s
                   end).

Definition writeFile (env : Environment) (index : nat) (name : string) : M unit :=
  emit (WriteFile name);;
  match writeFault env index with
  | Some e => throw e
  | None => s ← get; setStore ({[name]} ∪ storeOf s)
  end.

Definition execFfmpeg (env : Environment) (args : list string) : M unit :=
  emit (Exec args);;
  match exec env args with
  | Throw e => throw e
  | Normal produced => s ← get; setStore (list_to_set produced ∪ storeOf s)
  end.

Definition readFile (env : Environment) (name : string) : M unit :=
  emit (ReadFile name);;
  s ← get;
  if bool_decide (name ∈ storeOf s) then
    match readFault env with
    | Some e => throw e
    | None => mret tt
    end
  else throw FS_ERROR.

Definition deleteFile (name : string) : M unit :=
  emit (DeleteFile name);;
  s ← get;
  if bool_decide (name ∈ storeOf s) then setStore (storeOf s ∖ {[name]})
  else throw FS_ERROR.

Definition frameName (index : nat) : string :=
  "frame_" +:+ padStart0 4 (toString (ofnat index)) +:+ ".png".

Definition exportArgs (fps : number) (format : ExportFormat) (outputName : string) : list string :=
  ["-framerate"; toString fps; "-i"; "frame_%04d.png"] ++
  match format with
  | gif => ["-vf"; "scale=iw:ih:flags=lanczos"; "-loop"; "0"; outputName]
  | mov => ["-c:v"; "libx264"; "-pix_fmt"; "yuv420p"; "-movflags"; "+faststart"; outputName]
  | mp4 => ["-c:v"; "libx264"; "-pix_fmt"; "yuv420p"; outputName]
  end.

Definition blankVideo : HTMLVideoElement :=
  {| videoWidth := 0; videoHeight := 0; duration := NaN; currentTime := #0; paused := true;
     assignments := 0; picture := fun _ _ _ => []; seekFault := fun _ _ => None |}.

(** [samplingVideo.currentTime = t] inside the handler. *)
Definition assignCurrentTime (t : number) : M unit :=
  s ← get;
  let '(v, fault) := setCurrentTime (samplingVideo s) t in
  modify (with_samplingVideo v);;
  match fault with
  | Some e => throw e
  | None => mret tt
  end.

Definition pauseSampling : M unit :=
  modify (fun s => with_samplingVideo (pause (samplingVideo s)) s).

(** One turn of the sampling loop.  The scratch canvas is created once,
    before the loop, and handed to every turn; [asciiFromVideo] resizes it
    and draws on all of it before it reads, so what an earlier turn left
    there is never read, and the canvas is given here as it was created. *)
Definition captureFrame (env : Environment) (format : ExportFormat)
    (duration step : number) (index : nat) : M unit :=
  let targetTime := clampTime duration (if eqb step #0 then #0 else ofnat index * step) in
  emit (SeekTo index targetTime);;
  s ← get;
  let '(video, outcome) := awaitSeek (samplingVideo s) targetTime (seekSignals env index) in
  modify (with_samplingVideo video);;
  match outcome with
  | Throw _ => mret tt
  | Normal _ =>
      match asciiFromVideo video (createCanvas (bufferContext env) (bufferFault env))
              (charset env)
              (chosenScheme env) (charPixelRef env index) (contrastRef env index) with
      | Throw e => throw e
      | Normal None => mret tt
      | Normal (Some frame) =>
          tryCatch
            (match pngFault env index with
             | Some e => throw e
             | None => writeFile env index (frameName index)
             end)
            (fun _ => throw (ErrorObj ("Frame processing failed at frame "
                                        +:+ toString (ofnat index + #1))));;
          s' ← get;
          setExportState
            {| status := sampling; format := Some format;
               progress := #0.1 + (ofnat index / totalFrames s') * #0.5;
               message := Some ("Captured frame " +:+ toString (ofnat index + #1)
                                +:+ " / " +:+ toString (totalFrames s')) |}
      end
  end.

(** The first play attempt that readies the sampling element. *)
Definition primeSampling (env : Environment) : M unit :=
  tryCatch
    (assignCurrentTime #0;;
     match playFault env with
     | Some e => throw e
     | None => modify (fun s => with_samplingVideo (setPaused (samplingVideo s) false) s)
     end;;
     pauseSampling)
    (fun _ => assignCurrentTime #0).

Definition maxFramesOf (e : Entitlement) : number :=
  if isFreeTier e then #300 else #600.

Definition truncationNotice (format : ExportFormat) (total : number) : ExportState :=
  {| status := sampling; format := Some format; progress := #0.1;
     message := Some ("Video truncated to " +:+ toString total
                      +:+ " frames for faster processing") |}.

(** The [try] block of [handleExport] up to the sampling loop: it yields
    the locals [duration] and [step] ([totalFrames] is in the page).  The
    wait for "canplay", which the source enters when the element has no
    current data and which only that event ends, is taken to end. *)
Definition exportPrepare (env : Environment) (format : ExportFormat) : M (number * number) :=
  let tierConfig := tierConfigOf (entitlement env) in
  setExportState {| status := initializing; format := Some format; progress := #0.05;
                    message := Some "Loading encoder" |};;
  ensureFfmpeg env;;
  setExportState {| status := sampling; format := Some format; progress := #0.1;
                    message := Some "Sampling frames" |};;
  modify (with_objectUrl (Some "blob:selected-file"));;
  (if metadataLoads env
   then modify (with_samplingVideo (source env))
   else throw (ErrorObj "Unable to read video for export"));;
  s ← get;
  let duration := duration (samplingVideo s) in
  (if negb (isFinite duration) || le duration #0
   then throw (ErrorObj "Video duration unavailable for export")
   else mret tt);;
  primeSampling env;;
  (if haveCurrentData env then mret tt else pauseSampling);;
  let fps := fps tierConfig in
  let maxFrames := maxFramesOf (entitlement env) in
  let idealFrames := ceil (duration * fps) in
  let total := min idealFrames maxFrames in
  modify (with_totalFrames total);;
  let step := if lt #1 total then duration / (total - #1) else #0 in
  (if lt total idealFrames
   then setExportState (truncationNotice format total)
   else mret tt);;
  (if exportContext env then mret tt else throw (ErrorObj "Canvas context unavailable"));;
  mret (duration, step).

(** The [try] block of [handleExport] after the sampling loop. *)
Definition exportEncode (env : Environment) (format : ExportFormat) : M unit :=
  let fps := fps (tierConfigOf (entitlement env)) in
  pauseSampling;;
  s ← get;
  (if eqb (totalFrames s) #0 then throw (ErrorObj "No frames captured for export") else mret tt);;
  let outputName := OUTPUT_NAME format in
  modify (with_outputName (Some outputName));;
  let args := exportArgs fps format outputName in
  setExportState {| status := encoding; format := Some format; progress := #0.7;
                    message := Some "Encoding media" |};;
  execFfmpeg env args;;
  setExportState {| status := delivering; format := Some format; progress := #0.9;
                    message := Some "Preparing download" |};;
  readFile env outputName;;
  emit (Download (OUTPUT_NAME format) (MIME_BY_FORMAT format));;
  emit (SetTimeout 2000 RevokeDownloadUrl);;
  setExportState {| status := done; format := Some format; progress := #1;
                    message := Some ("Exported " +:+ OUTPUT_NAME format) |};;
  emit (SetTimeout 2400
          (ResetExportState {| status := idle; format := None; progress := #0; message := None |}));;
  setStatus ("EXPORT> completed ." +:+
             match format with gif => "gif" | mp4 => "mp4" | mov => "mov" end).

(** The [try] block of [handleExport]. *)
Definition exportBody (env : Environment) (format : ExportFormat) : M unit :=
  '(duration, step) ← exportPrepare env format;
  s ← get;
  forRange (captureFrame env format duration step) 0 (iterations (totalFrames s));;
  exportEncode env format.

(** The message the [catch] block shows for a thrown value. *)
Definition errorMessageFor (e : thrown) : string :=
  match e with
  | ErrorObj msg =>
      if includes "out of memory" msg || includes "OutOfMemoryError" msg
      then "Insufficient memory for export. Try reducing video length or character size."
      else if includes "SharedArrayBuffer" msg
      then "Browser compatibility issue. Please refresh and try again."
      else if includes "FFmpeg" msg
      then "Video encoding failed. Please try again or use a different format."
      else msg
  | OtherValue _ => "Export failed"
  end.

(** The [catch] block of [handleExport]. *)
Definition exportCatch (format : ExportFormat) (e : thrown) : M unit :=
  let errorMessage := errorMessageFor e in
  setExportState {| status := error; format := Some format; progress := #0;
                    message := Some errorMessage |};;
  setStatus ("ERROR> " +:+ errorMessage).

(** The [finally] block of [handleExport]. *)
Definition exportFinally : M unit :=
  pauseSampling;;
  s ← get;
  match ffmpegRef s with
  | Some _ =>
      forRange (fun i => tryCatch (deleteFile (frameName i)) (fun _ => mret tt))
               0 (iterations (totalFrames s));;
      match outputName s with
      | Some name => tryCatch (deleteFile name) (fun _ => mret tt)
      | None => mret tt
      end
  | None => mret tt
  end.

Definition handleExport (env : Environment) (format : ExportFormat) : M unit :=
  if negb (selectedFile env) then mret tt
  else
    setStatus
      (if isFreeTier (entitlement env)
       then "EXPORT> free tier engaged :: " +:+ toString (fps (tierConfigOf (entitlement env)))
            +:+ "fps with watermark"
       else "EXPORT> premium tier engaged :: " +:+ toString (fps (tierConfigOf (entitlement env)))
            +:+ "fps high fidelity");;
    modify (fun s => with_totalFrames #0
                       (with_outputName None (with_objectUrl None (with_samplingVideo blankVideo s))));;
    tryFinally (tryCatch (exportBody env format) (exportCatch format)) exportFinally.

(** A page that has not exported yet, or that kept the encoder of an
    earlier export. *)
Definition initialPage (cached : option FFmpeg) : Page :=
  {| ffmpegRef := cached; samplingVideo := blankVideo; objectUrl := None;
     outputName := None; totalFrames := #0; trace := [] |}.

(** The page after the handler has run. *)
Definition runExport (env : Environment) (format : ExportFormat) (cached : option FFmpeg) : Page :=
  snd (handleExport env format (initialPage cached)).

(** Projections of a trace. *)
Definition exportStates (t : list Effect) : list ExportState :=
  omap (fun e => match e with SetExportState s => Some s | _ => None end) t.

Definition statuses (t : list Effect) : list ExportStatus := status <$> exportStates t.


Definition writes (t : list Effect) : list string :=
  omap (fun e => match e with WriteFile n => Some n | _ => None end) t.

Definition seeks (t : list Effect) : list nat :=
  omap (fun e => match e with SeekTo i _ => Some i | _ => None end) t.

(** ** Sample inputs *)

(** A 2 s, 640 by 360 clip whose every pixel is mid-grey. *)
Definition demoVideo : HTMLVideoElement :=
  {| videoWidth := 640; videoHeight := 360; duration := #2; currentTime := #0; paused := true;
     assignments := 0;
     picture := fun t w h => repeat Byte.x80 (4 * w * h);
     seekFault := fun _ _ => None |}.

(** A scratch canvas as it is created, in a browser that provides a
    context and refuses no rectangle. *)
Definition newCanvas : HTMLCanvasElement := createCanvas true (fun _ _ => None).

Definition demoScheme : Scheme :=
  {| scheme_label := "Matrix Green"; scheme_value := "matrix";
     foreground := "#33ff66"; accent := "#00b140" |}.

(** The same picture in an element that differs in everything the
    rasterizer does not read. *)
Definition demoVideoLater : HTMLVideoElement :=
  {| videoWidth := 640; videoHeight := 360; duration := #9; currentTime := #1; paused := false;
     assignments := 3;
     picture := fun t w h => repeat Byte.x80 (4 * w * h);
     seekFault := fun _ _ => Some (ErrorObj "InvalidStateError") |}.

(** ** Sample environments *)

Definition tinyVideo : HTMLVideoElement :=
  {| videoWidth := 10; videoHeight := 400; duration := #0.3; currentTime := #0; paused := true;
     assignments := 0;
     picture := fun t w h => repeat Byte.x80 (4 * w * h);
     seekFault := fun _ _ => None |}.

(** A 0.3 s clip on the free tier; everything works. *)
Definition tinyEnvironment : Environment :=
  {| selectedFile := true; entitlement := free;
     charset := utf16 "@$%#*+=-:. "; chosenScheme := demoScheme;
     charPixelRef := fun _ => #40; contrastRef := fun _ => #1;
     loadFault := None; metadataLoads := true; source := tinyVideo;
     playFault := None; haveCurrentData := true;
     exportContext := true; bufferContext := true; bufferFault := fun _ _ => None;
     seekSignals := fun _ => [Seeked];
     pngFault := fun _ => None; writeFault := fun _ => None;
     exec := fun args => Normal ["ascii-output.mp4"];
     exitCode := fun _ => 0;
     readFault := None |}.

(** A 2 s clip on the free tier whose scratch canvas never yields a
    drawing context: every sampling instant is skipped, and the encoder,
    run on no input, produces nothing. *)
Definition skippingEnvironment : Environment :=
  {| selectedFile := true; entitlement := free;
     charset := utf16 "@$%#*+=-:. "; chosenScheme := demoScheme;
     charPixelRef := fun _ => #8; contrastRef := fun _ => #1;
     loadFault := None; metadataLoads := true; source := demoVideo;
     playFault := None; haveCurrentData := true;
     exportContext := true; bufferContext := false; bufferFault := fun _ _ => None;
     seekSignals := fun _ => [Seeked];
     pngFault := fun _ => None; writeFault := fun _ => None;
     exec := fun args => Normal [];
     exitCode := fun _ => 0;
     readFault := None |}.

(** The same clip in an element that refuses every seek after the first
    assignment to [currentTime]: every [seekVideo] call of the sampling loop
    is rejected. *)
Definition stuckVideo : HTMLVideoElement :=
  {| videoWidth := 640; videoHeight := 360; duration := #2; currentTime := #0; paused := true;
     assignments := 0;
     picture := fun t w h => repeat Byte.x80 (4 * w * h);
     seekFault := fun k _ => match k with
                             | O => None
                             | S _ => Some (ErrorObj "InvalidStateError")
                             end |}.

Definition rejectingEnvironment : Environment :=
  {| selectedFile := true; entitlement := free;
     charset := utf16 "@$%#*+=-:. "; chosenScheme := demoScheme;
     charPixelRef := fun _ => #8; contrastRef := fun _ => #1;
     loadFault := None; metadataLoads := true; source := stuckVideo;
     playFault := None; haveCurrentData := true;
     exportContext := true; bufferContext := true; bufferFault := fun _ _ => None;
     seekSignals := fun _ => [Seeked];
     pngFault := fun _ => None; writeFault := fun _ => None;
     exec := fun args => Normal [];
     exitCode := fun _ => 0;
     readFault := None |}.

(** A 120 s clip on the free tier whose encoder fails. *)
Definition longVideo : HTMLVideoElement :=
  {| videoWidth := 10; videoHeight := 400; duration := #120; currentTime := #0; paused := true;
     assignments := 0;
     picture := fun t w h => repeat Byte.x80 (4 * w * h);
     seekFault := fun _ _ => None |}.

Definition failingEncoderEnvironment : Environment :=
  {| selectedFile := true; entitlement := free;
     charset := utf16 "@$%#*+=-:. "; chosenScheme := demoScheme;
     charPixelRef := fun _ => #40; contrastRef := fun _ => #1;
     loadFault := None; metadataLoads := true; source := longVideo;
     playFault := None; haveCurrentData := true;
     exportContext := true; bufferContext := false; bufferFault := fun _ _ => None;
     seekSignals := fun _ => [];
     pngFault := fun _ => None; writeFault := fun _ => None;
     exec := fun args => Throw (ErrorObj "FFmpeg exited with code 1");
     exitCode := fun _ => 1;
     readFault := None |}.




(** ** Assertions

    The vocabulary of the proofs below: states of a seek, Hoare triples
    over the computations of the handler, and the invariants of a run. *)

(** The three shapes a [seekVideo] call can be in. *)
Definition seek_waiting (st : SeekState) : Prop :=
  sk_resolved st = false /\ sk_promise st = None /\
  sk_listener st = true /\ sk_timer_pending st = true.

Definition seek_done (st : SeekState) : Prop :=
  sk_resolved st = true /\ sk_promise st = Some (Normal tt) /\ paused (sk_video st) = true.

Definition seek_failed (st : SeekState) : Prop :=
  sk_resolved st = true /\ exists e, sk_promise st = Some (Throw e).

(** [triple P m Qn Qe]: from a page that satisfies [P], the computation [m]
    ends normally with a result and a page that satisfy [Qn], or throws and
    leaves a page that satisfies [Qe]. *)
Definition triple {A : Type} (P : Page -> Prop) (m : M A)
    (Qn : A -> Page -> Prop) (Qe : Page -> Prop) : Prop :=
  forall s, P s ->
    match m s with
    | (Normal a, s') => Qn a s'
    | (Throw _, s') => Qe s'
    end.

(** [m] keeps [I], however it ends. *)
Definition keeps {A : Type} (I : Page -> Prop) (m : M A) : Prop :=
  triple I m (fun _ => I) I.

(** [ffmpegRef.current] is set. *)
Definition has_encoder (s : Page) : Prop := is_Some (ffmpegRef s).

(** The locals [totalFrames] and [outputName] still have their initial
    values. *)
Definition locals_unset (s : Page) : Prop := totalFrames s = #0 /\ outputName s = None.

Definition encoder_or_unset (s : Page) : Prop := has_encoder s \/ locals_unset s.

(** What a run of best-effort deletions of [names] does to the page. *)
Definition deleted (names : list string) (s s' : Page) : Prop :=
  trace s' = trace s ++ (DeleteFile <$> names)
  /\ storeOf s' = storeOf s ∖ list_to_set names
  /\ totalFrames s' = totalFrames s
  /\ outputName s' = outputName s.

(** The names the cleanup asks the encoder to delete. *)
Definition cleanupNames (s : Page) : list string :=
  (frameName <$> seq 0 (iterations (totalFrames s)))
  ++ match outputName s with Some name => [name] | None => [] end.

(** The page on which the guarded part of the handler starts. *)
Definition startPage (env : Environment) (cached : option FFmpeg) : Page :=
  with_totalFrames #0
    (with_outputName None
       (with_objectUrl None
          (with_samplingVideo blankVideo
             (with_trace
                [SetStatus
                   (if isFreeTier (entitlement env)
                    then "EXPORT> free tier engaged :: "
                         +:+ toString (fps (tierConfigOf (entitlement env)))
                         +:+ "fps with watermark"
                    else "EXPORT> premium tier engaged :: "
                         +:+ toString (fps (tierConfigOf (entitlement env)))
                         +:+ "fps high fidelity")]
                (initialPage cached))))).

(** Shapes of the sequence of statuses published so far. *)
Definition loading (s : Page) : Prop :=
  exists k, statuses (trace s) = initializing :: replicate k sampling.

Definition in_sampling (s : Page) : Prop :=
  exists k, statuses (trace s) = initializing :: replicate (S k) sampling.


(** Nothing was written to the encoder so far. *)
Definition nothing_written (s : Page) : Prop := writes (trace s) = [].

(** The encoding status was published and nothing was written. *)
Definition encoding_on_nothing (s : Page) : Prop :=
  encoding ∈ statuses (trace s) /\ writes (trace s) = [].

(** The frame count and the events published so far stay. *)
Definition settled (total : number) (t : list Effect) (s : Page) : Prop :=
  totalFrames s = total /\ t `prefix_of` trace s.

(** ** The glyph and the colour of a cell *)

(** The local [index] of [asciiFromVideo], from the adjusted brightness:
    the position in the palette of the glyph that is drawn. *)
Definition glyphIndex (charset : jsstring) (adj : number) : number :=
  let last := ofnat (length charset) - #1 in
  max #0 (min last (round ((#1 - adj) * last))).

(** A colour channel: an integer between 0 and 255. *)
Definition is_channel (a : number) : Prop :=
  exists z : Z, a = ofZ z /\ (0 <= z <= 255)%Z.

(** ** The preview markup *)

(** The double quote, as a code unit. *)
Definition QUOTE : jsstring := [34%N].

Definition escapeChar (char : jsstring) : jsstring :=
  if bool_decide (char = utf16 "&") then utf16 "&amp;"
  else if bool_decide (char = utf16 "<") then utf16 "&lt;"
  else if bool_decide (char = utf16 ">") then utf16 "&gt;"
  else if bool_decide (char = utf16 " ") then utf16 "&nbsp;"
  else char.

(** [parts.join(sep)]. *)
Definition join (sep : jsstring) (parts : list jsstring) : jsstring :=
  match parts with
  | [] => []
  | first :: rest => first ++ concat (map (fun part => sep ++ part) rest)
  end.

(** The template of one cell in [frameToHtml]. *)
Definition cellToHtml (cell : AsciiCell) : jsstring :=
  utf16 "<span style=" ++ QUOTE ++ utf16 "color:" ++ utf16 (color cell) ++ QUOTE ++ utf16 ">"
  ++ escapeChar (char cell) ++ utf16 "</span>".

Definition frameToHtml (frame : AsciiFrame) : jsstring :=
  join (utf16 "<br/>") (map (fun row => join [] (map cellToHtml row)) (rows frame)).

(** How often a code unit occurs in a string. *)
Definition occurrences (c : char16) (s : list char16) : nat :=
  length (filter (fun x => x = c) s).

(** The code units [<] and [>]. *)
Definition LT_SIGN : char16 := 60%N.
Definition GT_SIGN : char16 := 62%N.

(** A cell whose glyph is one code unit and whose colour holds no angle
    bracket: its markup has one opening and one closing tag. *)
Definition plain_cell (cell : AsciiCell) : Prop :=
  length (char cell) = 1%nat
  /\ occurrences LT_SIGN (utf16 (color cell)) = 0%nat
  /\ occurrences GT_SIGN (utf16 (color cell)) = 0%nat.

(** ** A settled seek *)

(** The promise of a [seekVideo] call is settled and the call holds nothing
    in the page any more: the listener is removed and the timer cleared. *)
Definition seek_quiet (st : SeekState) : Prop :=
  sk_resolved st = true /\ sk_listener st = false /\ sk_timer_pending st = false
  /\ sk_promise st <> None.

(** The call is still waiting, with its listener and its timer armed. *)
Definition seek_armed (st : SeekState) : Prop :=
  sk_resolved st = false /\ sk_listener st = true /\ sk_timer_pending st = true
  /\ sk_promise st = None /\ sk_timeout st <> None.

(** ** The export button *)

(** [exportIdle] of the component: no export is running. *)
Definition exportIdle (s : ExportState) : bool :=
  match status s with
  | idle | error | done => true
  | _ => false
  end.

(** [canExport]: the export buttons are enabled. *)
Definition canExport (user selected : bool) (s : ExportState) : bool :=
  user && selected && exportIdle s.

(** Every export state published so far says that an export is running. *)
Definition all_busy (s : Page) : Prop :=
  Forall (fun st => exportIdle st = false) (exportStates (trace s)).

(** The states published so far are those of a run that is over: busy
    states, then one state that gives the buttons back. *)
Definition run_over (fmt : ExportFormat) (s : Page) : Prop :=
  exists busy final,
    exportStates (trace s) = busy ++ [final]
    /\ Forall (fun st => exportIdle st = false) busy
    /\ exportIdle final = true
    /\ format final = Some fmt
    /\ (status final = done /\ progress final = #1 \/ status final = error /\ progress final = #0).

(** ** The order of the sampling loop *)

(** Before the sampling loop: nothing was sought or written, and the
    encoding status was not published. *)
Definition before_sampling (s : Page) : Prop :=
  seeks (trace s) = [] /\ writes (trace s) = [] /\ (encoding ∉ statuses (trace s)).

(** Inside the sampling loop, for the frame count [n]: the instants of
    indices below [k] were sought, in this order, and the stills written are
    those of some of the indices below [j], in increasing order. *)
Definition sampled (n : number) (k j : nat) (s : Page) : Prop :=
  totalFrames s = n
  /\ seeks (trace s) = seq 0 k
  /\ (exists l, writes (trace s) = frameName <$> l /\ l `sublist_of` seq 0 j)
  /\ (encoding ∉ statuses (trace s)).

(** After the sampling loop: every instant was sought. *)
Definition sampled_all (n : number) (s : Page) : Prop :=
  totalFrames s = n
  /\ seeks (trace s) = seq 0 (iterations n)
  /\ exists l, writes (trace s) = frameName <$> l /\ l `sublist_of` seq 0 (iterations n).

(** What holds of every run, wherever it stopped. *)
Definition sampled_some (s : Page) : Prop :=
  exists (k : nat) (l : list nat),
    (k <= iterations (totalFrames s))%nat
    /\ seeks (trace s) = seq 0 k
    /\ writes (trace s) = frameName <$> l
    /\ l `sublist_of` seq 0 k
    /\ (encoding ∈ statuses (trace s) -> k = iterations (totalFrames s)).

(** ** What a run leaves in the store *)

(** An invariant of the locals [totalFrames] and [outputName] and of the
    names in the file store of the encoder. *)
Definition store_inv (R : number -> option string -> gset string -> Prop) (s : Page) : Prop :=
  R (totalFrames s) (outputName s) (storeOf s).

(** A file that the encoder makes when it is run on the stills. *)
Definition produced (env : Environment) (fmt : ExportFormat) (name : string) : Prop :=
  exists made,
    exec env (exportArgs (fps (tierConfigOf (entitlement env))) fmt (OUTPUT_NAME fmt))
    = Normal made
    /\ name ∈ made.

(** The names in the store are names it held before the run. *)
Definition only_initial (init : gset string) : number -> option string -> gset string -> Prop :=
  fun _ _ X => X ⊆ init.

(** The names in the store are names it held before the run or stills of
    the run, for the frame count [n]. *)
Definition only_stills (init : gset string) (n : number)
  : number -> option string -> gset string -> Prop :=
  fun total _ X =>
    total = n
    /\ forall x, x ∈ X -> x ∈ init \/ exists i, (i < iterations n)%nat /\ x = frameName i.

(** The output is named, and the names in the store are names it held
    before the run, stills of the run or files the encoder made. *)
Definition only_run (env : Environment) (fmt : ExportFormat) (init : gset string) (n : number)
  : number -> option string -> gset string -> Prop :=
  fun total out X =>
    total = n /\ out = Some (OUTPUT_NAME fmt)
    /\ forall x, x ∈ X ->
         x ∈ init \/ (exists i, (i < iterations n)%nat /\ x = frameName i) \/ produced env fmt x.

(** What holds when the guarded part of the handler is over. *)
Definition only_cleanable (env : Environment) (fmt : ExportFormat) (init : gset string)
  : number -> option string -> gset string -> Prop :=
  fun total out X =>
    forall x, x ∈ X ->
      x ∈ init \/ (exists i, (i < iterations total)%nat /\ x = frameName i)
      \/ (produced env fmt x /\ out = Some (OUTPUT_NAME fmt)).

(** The character of a decimal digit. *)
Definition digitChar (d : nat) : ascii := ascii_of_nat (48 + d).

(** The name the encoder reads for the number [n] under the pattern
    [frame_%04d.png], for a number of at most four digits. *)
Definition patternName (n : nat) : string :=
  "frame_" +:+
  String (digitChar (n / 1000))
    (String (digitChar (n / 100 mod 10))
       (String (digitChar (n / 10 mod 10))
          (String (digitChar (n mod 10)) ".png"))).

(** ** More sample environments *)

(** The clip of [tinyEnvironment] in a browser that cannot load the
    encoder. *)
Definition noEncoderEnvironment : Environment :=
  {| selectedFile := true; entitlement := premium;
     charset := utf16 "@$%#*+=-:. "; chosenScheme := demoScheme;
     charPixelRef := fun _ => #40; contrastRef := fun _ => #1;
     loadFault := Some (ErrorObj "SharedArrayBuffer is not defined");
     metadataLoads := true; source := tinyVideo;
     playFault := None; haveCurrentData := true;
     exportContext := true; bufferContext := true; bufferFault := fun _ _ => None;
     seekSignals := fun _ => [Seeked];
     pngFault := fun _ => None; writeFault := fun _ => None;
     exec := fun args => Normal ["ascii-output.mp4"];
     exitCode := fun _ => 0;
     readFault := None |}.

(** A live stream: its duration is infinite. *)
Definition liveVideo : HTMLVideoElement :=
  {| videoWidth := 640; videoHeight := 360; duration := PosInf; currentTime := #0;
     paused := true; assignments := 0;
     picture := fun t w h => repeat Byte.x80 (4 * w * h);
     seekFault := fun _ _ => None |}.

Definition liveEnvironment : Environment :=
  {| selectedFile := true; entitlement := free;
     charset := utf16 "@$%#*+=-:. "; chosenScheme := demoScheme;
     charPixelRef := fun _ => #8; contrastRef := fun _ => #1;
     loadFault := None; metadataLoads := true; source := liveVideo;
     playFault := None; haveCurrentData := true;
     exportContext := true; bufferContext := true; bufferFault := fun _ _ => None;
     seekSignals := fun _ => [Seeked];
     pngFault := fun _ => None; writeFault := fun _ => None;
     exec := fun args => Normal ["ascii-output.mp4"];
     exitCode := fun _ => 0;
     readFault := None |}.

(** ** The progress bar *)

(** The progress that goes with a status: a fixed value for every phase
    but the sampling, which moves from 10% up to, but not including, 60%. *)
Definition progress_in_range (st : ExportState) : bool :=
  match status st with
  | initializing => eqb (progress st) #0.05
  | sampling => le #0.1 (progress st) && lt (progress st) #0.6
  | encoding => eqb (progress st) #0.7
  | delivering => eqb (progress st) #0.9
  | done => eqb (progress st) #1
  | error | idle => eqb (progress st) #0
  end.

Definition progress_ok (s : Page) : Prop :=
  Forall (fun st => progress_in_range st = true) (exportStates (trace s)).

(** The frame count is a positive integer. *)
Definition frames_planned (s : Page) : Prop :=
  exists z : Z, (1 <= z)%Z /\ totalFrames s = ofZ z.

(** ** A run in which nothing fails *)

(** The element accepts every seek. *)
Definition never_faults (v : HTMLVideoElement) : Prop :=
  forall k t, seekFault v k t = None.

(** The intrinsic size of the frames of an element. *)
Definition frameSize (v : HTMLVideoElement) : N * N := (videoWidth v, videoHeight v).

(** An environment in which every step of the export works: the encoder
    loads, the file is a clip of positive finite duration that accepts every
    seek, both canvases yield a context, the character size is positive
    and asks for a grid that [getImageData] hands out (both dimensions in
    the range of a [long], no refusal by the implementation), every still
    is converted and written, and the encoder makes the output file, which
    can be read back. *)
Record cooperative (env : Environment) (fmt : ExportFormat) : Prop := {
  co_selected : selectedFile env = true;
  co_loads : loadFault env = None;
  co_metadata : metadataLoads env = true;
  co_duration : exists d : Qc, duration (source env) = Num d /\ (0 < d)%Qc;
  co_seeks : never_faults (source env);
  co_export_canvas : exportContext env = true;
  co_buffer_canvas : bufferContext env = true;
  co_char_size : forall i, exists size : Qc, charPixelRef env i = Num size /\ (0 < size)%Qc;
  co_grid : forall i, exists w h : nat,
      as_dim (grid_width (computeGrid (source env) (charPixelRef env i))) = Some w
      /\ as_dim (grid_height (computeGrid (source env) (charPixelRef env i))) = Some h
      /\ bufferFault env w h = None;
  co_png : forall i, pngFault env i = None;
  co_write : forall i, writeFault env i = None;
  co_exec : exists made,
      exec env (exportArgs (fps (tierConfigOf (entitlement env))) fmt (OUTPUT_NAME fmt))
      = Normal made
      /\ OUTPUT_NAME fmt ∈ made;
  co_read : readFault env = None
}.

(** Inside the sampling loop of such a run, before the turn of index [k]:
    the sampling element shows the frames of [src], every instant below [k]
    was sought and its still written. *)
Definition capturing (src : HTMLVideoElement) (n : number) (k : nat) (s : Page) : Prop :=
  totalFrames s = n
  /\ (never_faults (samplingVideo s) /\ frameSize (samplingVideo s) = frameSize src)
  /\ has_encoder s
  /\ seeks (trace s) = seq 0 k
  /\ writes (trace s) = frameName <$> seq 0 k
  /\ in_sampling s.

(** What the [try] block of the handler appends to the trace after the
    sampling loop when nothing fails. *)
Definition deliveryEvents (env : Environment) (fmt : ExportFormat) : list Effect :=
  [ SetExportState {| status := encoding; format := Some fmt; progress := #0.7;
                      message := Some "Encoding media" |};
    Exec (exportArgs (fps (tierConfigOf (entitlement env))) fmt (OUTPUT_NAME fmt));
    SetExportState {| status := delivering; format := Some fmt; progress := #0.9;
                      message := Some "Preparing download" |};
    ReadFile (OUTPUT_NAME fmt);
    Download (OUTPUT_NAME fmt) (MIME_BY_FORMAT fmt);
    SetTimeout 2000 RevokeDownloadUrl;
    SetExportState {| status := done; format := Some fmt; progress := #1;
                      message := Some ("Exported " +:+ OUTPUT_NAME fmt) |};
    SetTimeout 2400
      (ResetExportState {| status := idle; format := None; progress := #0; message := None |});
    SetStatus ("EXPORT> completed ." +:+
               match fmt with gif => "gif" | mp4 => "mp4" | mov => "mov" end) ].

(** ** Stills that could not be written *)



(** ** The sampling instants *)

(** The local [step] of [handleExport]: the distance between two sampling
    instants, for the duration and the frame count. *)
Definition sampleStep (duration total : number) : number :=
  if lt #1 total then duration / (total - #1) else #0.

(** The local [targetTime] of the sampling loop: the instant of an index. *)
Definition sampleTime (duration step : number) (index : nat) : number :=
  clampTime duration (if eqb step #0 then #0 else ofnat index * step).

(** Every seek recorded so far went to the sampling instant of its index,
    for a duration and a step. *)
Definition seeks_on_time (duration step : number) (s : Page) : Prop :=
  Forall (fun e => match e with
                   | SeekTo i t => t = sampleTime duration step i
                   | _ => True
                   end) (trace s).

(** The sampling was planned for the clip of the environment: its duration
    is a positive number, the frame count a positive integer, and the
    seeks recorded so far went to the sampling instants. *)
Definition sampling_planned (env : Environment) (s : Page) : Prop :=
  (exists q : Qc, duration (source env) = Num q /\ (0 < q)%Qc)
  /\ frames_planned s
  /\ seeks_on_time (duration (source env)) (sampleStep (duration (source env)) (totalFrames s)) s.

(** Nothing was sought, or the sampling was planned. *)
Definition sampling_sound (env : Environment) (s : Page) : Prop :=
  seeks (trace s) = [] \/ sampling_planned env s.

(** ** Character size and the export canvas *)

(** The effect that clamps the character size when the tier changes: the
    size after one run of the effect, for the limits of the tier. *)
Definition clampCharPixelSize (tier : TierConfig) (charPixelSize : number) : number :=
  if lt charPixelSize (minCharPixel tier) then minCharPixel tier
  else if lt (maxCharPixel tier) charPixelSize then maxCharPixel tier
  else charPixelSize.

(** The locals [fontSize], [cellWidth] and [cellHeight] of the sampling
    loop, and the font size of the watermark. *)
Definition exportFontSize (tier : TierConfig) (charPixel : number) : number :=
  min #12 (max (minCharPixel tier) charPixel).

Definition exportCellWidth (fontSize : number) : number := fontSize * #0.62.
Definition exportCellHeight (fontSize : number) : number := fontSize * #1.2.

Definition watermarkFontSize (fontSize : number) : number :=
  max #12 (round (fontSize * #0.9)).

(** The size given to the export canvas for a frame. *)
Definition exportCanvasWidth (frame : AsciiFrame) (fontSize : number) : number :=
  floor (width frame * exportCellWidth fontSize).
Definition exportCanvasHeight (frame : AsciiFrame) (fontSize : number) : number :=
  floor (height frame * exportCellHeight fontSize).

(** One entry of a colour group: a glyph and where it is drawn. *)
Record GlyphDraw := { gd_char : jsstring; gd_x : number; gd_y : number }.

(** The [Map] from a colour to its glyphs: its entries in insertion
    order. *)
Definition ColorGroups := list (string * list GlyphDraw).

(** [if (!groups.has(color)) groups.set(color, []); groups.get(color).push(g)]. *)
Fixpoint groupPush (groups : ColorGroups) (color : string) (g : GlyphDraw) : ColorGroups :=
  match groups with
  | [] => [(color, [g])]
  | (c, gs) :: rest =>
      if String.eqb c color then (c, gs ++ [g]) :: rest
      else (c, gs) :: groupPush rest color g
  end.

(** Reading a cell that is not there: [row[x]] is [undefined], and its
    [color] cannot be read. *)
Definition CELL_FAULT : thrown :=
  ErrorObj "TypeError: Cannot read properties of undefined (reading 'color')".

(** The positions [(y, x)] that the two nested loops visit, in this
    order. *)
Definition cellPositions (rowCount colCount : nat) : list (nat * nat) :=
  y ← seq 0 rowCount; x ← seq 0 colCount; [(y, x)].

Fixpoint collectCells (rows : list (list AsciiCell)) (cellWidth cellHeight : number)
    (positions : list (nat * nat)) (groups : ColorGroups) : completion ColorGroups :=
  match positions with
  | [] => Normal groups
  | (y, x) :: rest =>
      match rows !! y ≫= (fun row => row !! x) with
      | Some cell =>
          collectCells rows cellWidth cellHeight rest
            (groupPush groups (color cell)
               {| gd_char := char cell; gd_x := ofnat x * cellWidth;
                  gd_y := ofnat y * cellHeight |})
      | None => Throw CELL_FAULT
      end
  end.

(** The batching of the glyphs of a frame by colour.  Both loop bounds are
    grid dimensions, which are integers in every frame that the rasterizer
    returns. *)
Definition collectColorGroups (frame : AsciiFrame) (cellWidth cellHeight : number)
  : completion ColorGroups :=
  collectCells (rows frame) cellWidth cellHeight
    (cellPositions (iterations (height frame)) (iterations (width frame))) [].

(** What is drawn: for every group, its colour becomes the fill style and
    its glyphs are drawn. *)
Inductive CanvasOp :=
| SetFillStyle (style : string)
| FillText (text : jsstring) (x y : number).

Definition drawGroups (groups : ColorGroups) : list CanvasOp :=
  '(style, glyphs) ← groups;
  SetFillStyle style :: map (fun g => FillText (gd_char g) (gd_x g) (gd_y g)) glyphs.

(** The glyphs of the groups, each with the colour it is drawn in. *)
Definition colouredGlyphs (groups : ColorGroups) : list (string * GlyphDraw) :=
  '(style, glyphs) ← groups; map (pair style) glyphs.

(** The glyphs of a frame in reading order, each with its colour. *)
Definition frameGlyphs (rows : list (list AsciiCell)) (cellWidth cellHeight : number)
  : list (string * GlyphDraw) :=
  concat (imap (fun y row =>
                  imap (fun x cell =>
                          (color cell,
                           {| gd_char := char cell; gd_x := ofnat x * cellWidth;
                              gd_y := ofnat y * cellHeight |})) row) rows).

(** ** The compressed preview *)

Definition MOBILE_TARGET_HEIGHT : number := #200.

(** [value || fallback] for a number: the fallback for 0 and for [NaN]. *)
Definition orElse (value fallback : number) : number :=
  if is_zero value || isNaN value then fallback else value.

(** [mobileFontSize] of the compressed preview, from the height of the
    frame in rows. *)
Definition mobileFontSize (frameHeight : number) : number :=
  max #4 (min #8 (floor (MOBILE_TARGET_HEIGHT / max (orElse frameHeight #40) #40))).

(** The glyph drawn for a position, with its colour, if the frame has a
    cell there. *)
Definition cellGlyph (rows : list (list AsciiCell)) (cellWidth cellHeight : number)
    (position : nat * nat) : option (string * GlyphDraw) :=
  let '(y, x) := position in
  cell ← rows !! y ≫= (fun row => row !! x);
  Some (color cell,
        {| gd_char := char cell; gd_x := ofnat x * cellWidth; gd_y := ofnat y * cellHeight |}).

(** What the drawing operations put on the canvas: every text with the
    fill style in force when it is drawn. *)
Fixpoint paint (style : string) (ops : list CanvasOp) : list (string * GlyphDraw) :=
  match ops with
  | [] => []
  | SetFillStyle style' :: rest => paint style' rest
  | FillText text x y :: rest =>
      (style, {| gd_char := text; gd_x := x; gd_y := y |}) :: paint style rest
  end.

(** How often the fill style is set. *)
Fixpoint styleChanges (ops : list CanvasOp) : nat :=
  match ops with
  | [] => 0
  | SetFillStyle _ :: rest => S (styleChanges rest)
  | FillText _ _ _ :: rest => styleChanges rest
  end.

(** * Properties *)

(** ** The number model *)

Lemma Qc_leb_le (x y : Qc) : Qc_leb x y = true <-> (x <= y)%Qc.
Proof. unfold Qc_leb, Qcle. apply Qle_bool_iff. Qed.

Lemma Qc_ltb_lt (x y : Qc) : Qc_ltb x y = true <-> (x < y)%Qc.
Proof.
  unfold Qc_ltb, Qclt. rewrite Bool.negb_true_iff, <- Bool.not_true_iff_false, Qle_bool_iff.
  split; [apply Qnot_le_lt | apply Qlt_not_le].
Qed.

Lemma Qc_ltb_ge (x y : Qc) : Qc_ltb x y = false <-> (y <= x)%Qc.
Proof.
  unfold Qc_ltb, Qcle. rewrite Bool.negb_false_iff. apply Qle_bool_iff.
Qed.

Lemma Qc_eqb_eq (x y : Qc) : Qc_eqb x y = true <-> x = y.
Proof.
  unfold Qc_eqb. rewrite Qeq_bool_iff. split; [apply Qc_is_canon | intros ->; reflexivity].
Qed.

Lemma Qc_eqb_neq (x y : Qc) : Qc_eqb x y = false <-> x <> y.
Proof. rewrite <- Qc_eqb_eq. destruct (Qc_eqb x y); split; congruence. Qed.

Lemma this_Q2Qc (x : Q) : (this (Q2Qc x) == x)%Q.
Proof. simpl. apply Qred_correct. Qed.

Lemma ofZ_inj (a c : Z) : ofZ a = ofZ c -> a = c.
Proof.
  unfold ofZ. intros H. injection H as H.
  assert (E : (inject_Z a == inject_Z c)%Q).
  { rewrite <- (Qred_correct (inject_Z a)), <- (Qred_correct (inject_Z c)), H. reflexivity. }
  unfold Qeq in E. simpl in E. lia.
Qed.

Lemma Qc_ltb_ofZ (a c : Z) :
  Qc_ltb (Q2Qc (inject_Z a)) (Q2Qc (inject_Z c)) = (a <? c)%Z.
Proof.
  destruct (Z.ltb_spec a c) as [H | H].
  - apply Qc_ltb_lt. unfold Qclt. rewrite !this_Q2Qc. rewrite <- Zlt_Qlt. exact H.
  - apply Qc_ltb_ge. unfold Qcle. rewrite !this_Q2Qc. rewrite <- Zle_Qle. exact H.
Qed.

Lemma max_ofZ (a c : Z) : max (ofZ a) (ofZ c) = ofZ (Z.max a c).
Proof.
  unfold max, ofZ, lt. rewrite Qc_ltb_ofZ.
  destruct (Z.ltb_spec a c); f_equal; f_equal; f_equal; lia.
Qed.

Lemma min_ofZ (a c : Z) : min (ofZ a) (ofZ c) = ofZ (Z.min a c).
Proof.
  unfold min, ofZ, lt. rewrite Qc_ltb_ofZ.
  destruct (Z.ltb_spec c a); f_equal; f_equal; f_equal; lia.
Qed.

Lemma isFinite_Num (a : number) : isFinite a = true -> exists x, a = Num x.
Proof. destruct a; try discriminate. eauto. Qed.

Lemma isFinite_mul (a c : number) :
  isFinite a = true -> isFinite c = true -> isFinite (a * c) = true.
Proof. destruct a, c; simpl; intros; try discriminate; auto. Qed.

Lemma isFinite_max (a c : number) :
  isFinite a = true -> isFinite c = true -> isFinite (max a c) = true.
Proof. destruct a, c; simpl; intros; try discriminate. destruct (Qc_ltb q q0); auto. Qed.

Lemma isFinite_floor (a : number) : isFinite a = true -> isFinite (floor a) = true.
Proof. destruct a; simpl; intros; try discriminate; auto. Qed.

Lemma isFinite_div (a c : number) :
  isFinite a = true -> isFinite c = true -> is_zero c = false -> isFinite (a / c) = true.
Proof.
  destruct a, c; simpl; intros; try discriminate. rewrite H1. reflexivity.
Qed.

(** [Math.max(k, Math.floor(a))] of a finite [a] is an integer, at least
    [k]. *)
Lemma max_floor_integer (k : Z) (a : number) :
  isFinite a = true ->
  exists z : Z, max (ofZ k) (floor a) = ofZ z /\ (k <= z)%Z.
Proof.
  intros [x ->]%isFinite_Num. simpl floor. rewrite max_ofZ.
  eexists; split; [reflexivity | lia].
Qed.

(** ** Grid geometry *)

Lemma Qc_pos_nonzero (x : Qc) : (0 < x)%Qc -> Qc_eqb x 0 = false.
Proof.
  intros H. apply Qc_eqb_neq. intros ->. exact (Qclt_not_eq _ _ H eq_refl).
Qed.

Lemma ofN_nonzero (n : N) : N.eqb n 0 = false -> is_zero (ofN n) = false.
Proof.
  intros H%N.eqb_neq. unfold ofN, is_zero, ofZ. apply Qc_eqb_neq. intros E.
  assert (E' : ofZ (Z.of_N n) = ofZ 0) by (unfold ofZ; f_equal; exact E).
  apply ofZ_inj in E'. lia.
Qed.

Lemma charWidth_nonzero (x : Qc) : is_zero (max #1 (Num x)) = false.
Proof.
  unfold max, ofQ, lt. destruct (Qc_ltb (Q2Qc 1) x) eqn:E; unfold is_zero.
  - apply Qc_ltb_lt in E. apply Qc_pos_nonzero.
    apply Qclt_trans with (Q2Qc 1); [reflexivity | exact E].
  - reflexivity.
Qed.

Lemma charHeight_nonzero (s : Qc) : (0 < s)%Qc -> is_zero (Num s * #1.2) = false.
Proof.
  intros H. simpl. apply Qc_pos_nonzero.
  rewrite <- (Qcmult_0_l (Q2Qc 1.2)). apply Qcmult_lt_compat_r; [reflexivity | exact H].
Qed.

Lemma videoAspect_finite (vw vh : N) :
  isFinite (if negb (N.eqb vw 0) && negb (N.eqb vh 0) then ofN vw / ofN vh else DEFAULT_ASPECT) = true.
Proof.
  destruct (N.eqb vw 0) eqn:Ew; cbn [negb andb]; [reflexivity |].
  destruct (N.eqb vh 0) eqn:Eh; cbn [negb andb]; [reflexivity |].
  apply isFinite_div; auto using ofN_nonzero.
Qed.

(** C10. For every source width and height, zero included (the default
    aspect ratio is then used), and every positive character pixel size,
    [computeGrid] returns an integer number of columns that is at least 16
    and an integer number of rows that is at least 12; it has no error
    outcome. *)
Theorem computeGrid_floors (video : HTMLVideoElement) (s : Qc) :
  (0 < s)%Qc ->
  exists cols rows : Z,
    grid_width (computeGrid video (Num s)) = ofZ cols /\
    grid_height (computeGrid video (Num s)) = ofZ rows /\
    (16 <= cols)%Z /\ (12 <= rows)%Z.
Proof.
  intros Hs. unfold computeGrid. cbn [grid_width grid_height].
  destruct (max_floor_integer 12 (VIEWPORT_HEIGHT / (Num s * #1.2))) as (rows & Hrows & Hr).
  { apply isFinite_div; auto using charHeight_nonzero. }
  change #12 with (ofZ 12). rewrite Hrows.
  destruct (max_floor_integer 16
    (ofZ rows
     * (if negb (N.eqb (videoWidth video) 0) && negb (N.eqb (videoHeight video) 0)
        then ofN (videoWidth video) / ofN (videoHeight video) else DEFAULT_ASPECT)
     * (Num s * #1.2 / max #1 (Num s * #0.62)))) as (cols & Hcols & Hc).
  { apply isFinite_mul; [apply isFinite_mul; [reflexivity | apply videoAspect_finite] |].
    apply isFinite_div; [reflexivity | apply isFinite_max; reflexivity | apply charWidth_nonzero]. }
  change #16 with (ofZ 16). rewrite Hcols.
  exists cols, rows. auto.
Qed.

Lemma computeGrid_floors_witness :
  (0 < Q2Qc 8)%Qc /\
  exists cols rows : Z,
    grid_width (computeGrid demoVideo #8) = ofZ cols /\
    grid_height (computeGrid demoVideo #8) = ofZ rows /\
    (16 <= cols)%Z /\ (12 <= rows)%Z.
Proof.
  split; [reflexivity | apply (computeGrid_floors demoVideo (Q2Qc 8)); reflexivity].
Defined.

(** ** Brightness and contrast *)

Lemma max_Num (x y : Qc) : max (Num x) (Num y) = Num (if Qc_ltb x y then y else x).
Proof. unfold max, lt. destruct (Qc_ltb x y); reflexivity. Qed.

Lemma min_Num (x y : Qc) : min (Num x) (Num y) = Num (if Qc_ltb y x then y else x).
Proof. unfold min, lt. destruct (Qc_ltb y x); reflexivity. Qed.

Ltac qc_cases :=
  repeat match goal with
  | |- context [Qc_ltb ?x ?y] =>
      let E := fresh "E" in
      destruct (Qc_ltb x y) eqn:E; [apply Qc_ltb_lt in E | apply Qc_ltb_ge in E]
  end.

Ltac qc_order := unfold Qcle, Qclt in *; lra.

Lemma max_Num_mono (z x y : Qc) :
  (x <= y)%Qc -> exists x' y', max (Num z) (Num x) = Num x' /\ max (Num z) (Num y) = Num y' /\ (x' <= y')%Qc.
Proof.
  intros H. rewrite !max_Num. do 2 eexists. split; [reflexivity | split; [reflexivity |]].
  qc_cases; qc_order.
Qed.

Lemma min_Num_mono (z x y : Qc) :
  (x <= y)%Qc -> exists x' y', min (Num z) (Num x) = Num x' /\ min (Num z) (Num y) = Num y' /\ (x' <= y')%Qc.
Proof.
  intros H. rewrite !min_Num. do 2 eexists. split; [reflexivity | split; [reflexivity |]].
  qc_cases; qc_order.
Qed.

Lemma clampedContrast_range (contrast : number) :
  contrast = NaN /\ clampedContrast contrast = NaN \/
  exists k : Qc, clampedContrast contrast = Num k /\ (Q2Qc 0.2 <= k)%Qc /\ (k <= Q2Qc 2.5)%Qc.
Proof.
  destruct contrast as [c | | |]; [right | right | right | left; split; reflexivity].
  - unfold clampedContrast, ofQ. rewrite min_Num, max_Num. eexists. split; [reflexivity |].
    qc_cases; split; try qc_order; try (vm_compute; congruence).
  - exists (Q2Qc 2.5). split; [reflexivity | split; vm_compute; congruence].
  - exists (Q2Qc 0.2). split; [reflexivity | split; vm_compute; congruence].
Qed.

Lemma luminance_Num (r g b : Qc) :
  luminance (Num r) (Num g) (Num b)
  = Num (Q2Qc 0.2126 * r + Q2Qc 0.7152 * g + Q2Qc 0.0722 * b).
Proof. reflexivity. Qed.

Lemma brightnessFor_luminance (r g b : number) :
  brightnessFor r g b = luminance r g b / #255.
Proof. reflexivity. Qed.

Lemma div_255 (x : Qc) : Num x / #255 = Num (x / Q2Qc 255).
Proof. reflexivity. Qed.

Lemma adjusted_Num_mono (x y k : Qc) :
  (x <= y)%Qc -> (0 <= k)%Qc ->
  exists x' y', adjusted (Num x) (Num k) = Num x' /\ adjusted (Num y) (Num k) = Num y' /\ (x' <= y')%Qc.
Proof.
  intros Hxy Hk. unfold adjusted.
  assert (H : ((x + - Q2Qc 0.5) * k + Q2Qc 0.5 <= (y + - Q2Qc 0.5) * k + Q2Qc 0.5)%Qc).
  { apply Qcplus_le_compat; [| apply Qcle_refl].
    apply Qcmult_le_compat_r; [| exact Hk].
    apply Qcplus_le_compat; [exact Hxy | apply Qcle_refl]. }
  change ((Num x - #0.5) * Num k + #0.5) with (Num ((x + - Q2Qc 0.5) * k + Q2Qc 0.5)).
  change ((Num y - #0.5) * Num k + #0.5) with (Num ((y + - Q2Qc 0.5) * k + Q2Qc 0.5)).
  unfold ofQ. destruct (min_Num_mono (Q2Qc 1) _ _ H) as (x1 & y1 & -> & -> & H1).
  exact (max_Num_mono (Q2Qc 0) _ _ H1).
Qed.

(** C9. With the contrast held fixed, the adjusted brightness computed by
    the rasterizer is a non-decreasing function of the raw luminance
    0.2126 R + 0.7152 G + 0.0722 B of the pixel: a pixel of greater or equal
    luminance never gets a smaller adjusted value, and for every contrast
    that is a number the adjusted value is greater or equal. *)
Theorem adjusted_monotone (contrast : number) (r1 g1 b1 r2 g2 b2 : Qc) :
  le (luminance (Num r1) (Num g1) (Num b1)) (luminance (Num r2) (Num g2) (Num b2)) = true ->
  let adj1 := adjusted (brightnessFor (Num r1) (Num g1) (Num b1)) (clampedContrast contrast) in
  let adj2 := adjusted (brightnessFor (Num r2) (Num g2) (Num b2)) (clampedContrast contrast) in
  lt adj2 adj1 = false /\ (isNaN contrast = false -> le adj1 adj2 = true).
Proof.
  intros Hl adj1 adj2. subst adj1 adj2.
  rewrite !brightnessFor_luminance, !luminance_Num in *. rewrite !div_255.
  cbn [le] in Hl. apply Qc_leb_le in Hl.
  destruct (clampedContrast_range contrast) as [[-> ->] | (k & -> & Hlo & Hhi)].
  - split; [reflexivity | discriminate].
  - assert (Hdiv : (forall u v : Qc, u <= v -> u / Q2Qc 255 <= v / Q2Qc 255)%Qc).
    { intros u v Huv. unfold Qcdiv. apply Qcmult_le_compat_r; [exact Huv |].
      vm_compute; congruence. }
    assert (Hk : (0 <= k)%Qc).
    { apply Qcle_trans with (Q2Qc 0.2); [vm_compute; congruence | exact Hlo]. }
    destruct (adjusted_Num_mono _ _ k (Hdiv _ _ Hl) Hk) as (x' & y' & -> & -> & H).
    cbn [lt le]. split; [apply Qc_ltb_ge; exact H | intros _; apply Qc_leb_le; exact H].
Qed.

Lemma adjusted_monotone_witness :
  le (luminance #10 #20 #30) (luminance #200 #100 #50) = true /\
  lt (adjusted (brightnessFor #200 #100 #50) (clampedContrast #1.5))
     (adjusted (brightnessFor #10 #20 #30) (clampedContrast #1.5)) = false /\
  (isNaN #1.5 = false ->
   le (adjusted (brightnessFor #10 #20 #30) (clampedContrast #1.5))
      (adjusted (brightnessFor #200 #100 #50) (clampedContrast #1.5)) = true).
Proof.
  split; [reflexivity |].
  apply (adjusted_monotone #1.5 (Q2Qc 10) (Q2Qc 20) (Q2Qc 30) (Q2Qc 200) (Q2Qc 100) (Q2Qc 50)).
  reflexivity.
Defined.

(** ** The scratch canvas *)

Lemma pixel_index (w h i : nat) :
  (i < 4 * w * h)%nat ->
  ((i / 4) mod w < w)%nat /\ ((i / 4) / w < h)%nat
  /\ (4 * ((i / 4) / w * w + (i / 4) mod w) + i mod 4)%nat = i.
Proof.
  intros Hi. assert (Hw : w <> 0%nat) by (intros ->; lia).
  assert (Hp : (i / 4 < w * h)%nat) by (apply Nat.Div0.div_lt_upper_bound; lia).
  split; [apply Nat.mod_upper_bound; exact Hw |].
  split; [apply Nat.Div0.div_lt_upper_bound; lia |].
  pose proof (Nat.div_mod_eq (i / 4) w). pose proof (Nat.div_mod_eq i 4). lia.
Qed.

(** After the two assignments the canvas has the size of the grid, is
    transparent and draws in the default state, whatever it was before. *)
Lemma canvas_resized (w h : nat) (c : HTMLCanvasElement) :
  setCanvasHeight h (setCanvasWidth w c)
  = {| context2d := context2d c; canvasWidth := w; canvasHeight := h;
       bitmap := replicate (4 * w * h) Byte.x00; drawingState := DEFAULT_STATE;
       imageDataFault := imageDataFault c |}.
Proof. reflexivity. Qed.

(** What the rasterizer reads back is the scaled frame and nothing else:
    neither the size, nor the content, nor the drawing state that the
    canvas had before the call is in it. *)
Lemma getImageData_after_draw (video : HTMLVideoElement) (w h : nat) (c : HTMLCanvasElement) :
  getImageData w h (drawImage video w h (setCanvasHeight h (setCanvasWidth w c)))
  = fitted (4 * w * h) (picture video (currentTime video) w h).
Proof.
  rewrite canvas_resized. unfold getImageData, drawImage, fitted, DEFAULT_STATE.
  cbn [canvasWidth canvasHeight bitmap drawingState].
  apply list_fmap_ext. intros k i Hk.
  assert (Hi : (i < 4 * w * h)%nat).
  { apply list_elem_of_lookup_2, list_elem_of_In, in_seq in Hk. lia. }
  destruct (pixel_index w h i Hi) as (Hx & Hy & E).
  cbv zeta.
  rewrite (proj2 (Nat.ltb_lt _ _) Hx), (proj2 (Nat.ltb_lt _ _) Hy). cbn [andb].
  rewrite E, list_lookup_imap, (lookup_replicate_2 _ _ _ Hi). cbn [fmap option_fmap option_map].
  rewrite (proj2 (Nat.ltb_lt _ _) Hx), (proj2 (Nat.ltb_lt _ _) Hy). cbn [andb].
  rewrite E. reflexivity.
Qed.

Lemma fitted_length (n : nat) (data : list byte) : length (fitted n data) = n.
Proof. unfold fitted. rewrite length_fmap, length_seq. reflexivity. Qed.

Lemma fitted_exact (data : list byte) : fitted (length data) data = data.
Proof.
  apply list_eq. intros i. unfold fitted. rewrite list_lookup_fmap.
  destruct (decide (i < length data)%nat) as [Hi | Hi].
  - rewrite (lookup_seq_lt _ _ _ Hi). cbn.
    destruct (lookup_lt_is_Some_2 data i Hi) as [x ->]. reflexivity.
  - rewrite (lookup_ge_None_2 data i) by lia.
    rewrite (lookup_ge_None_2 (seq 0 (length data)) i) by (rewrite length_seq; lia).
    reflexivity.
Qed.

(** With four bytes for every pixel of the grid, what the rasterizer reads
    back is the scaled frame as it is. *)
Lemma getImageData_picture (video : HTMLVideoElement) (w h : nat) (c : HTMLCanvasElement) :
  length (picture video (currentTime video) w h) = (4 * w * h)%nat ->
  getImageData w h (drawImage video w h (setCanvasHeight h (setCanvasWidth w c)))
  = picture video (currentTime video) w h.
Proof. intros H. rewrite getImageData_after_draw, <- H. apply fitted_exact. Qed.

(** ** The rasterizer *)

Lemma as_integer_Some (a : number) (z : Z) : as_integer a = Some z -> a = ofZ z.
Proof.
  destruct a as [x | | |]; try discriminate. unfold as_integer.
  destruct (Qc_eqb x _) eqn:E; [| discriminate]. intros [= <-].
  apply Qc_eqb_eq in E. unfold ofZ. f_equal. exact E.
Qed.

Lemma as_dim_Some (a : number) (n : nat) : as_dim a = Some n -> a = ofnat n.
Proof.
  unfold as_dim. destruct (as_integer a) as [z |] eqn:E; [| discriminate].
  destruct (Z.leb_spec 0 z); [| discriminate].
  destruct (z <=? MAX_LONG)%Z; [| discriminate]. intros [= <-].
  apply as_integer_Some in E. subst a. unfold ofnat. f_equal. lia.
Qed.

(** A grid dimension that [getImageData] accepts is in the range of a
    [long]. *)
Lemma as_dim_bound (a : number) (n : nat) :
  as_dim a = Some n -> (Z.of_nat n <= MAX_LONG)%Z.
Proof.
  unfold as_dim. destruct (as_integer a) as [z |]; [| discriminate].
  destruct (Z.leb_spec 0 z); [| discriminate].
  destruct (Z.leb_spec z MAX_LONG); [| discriminate]. intros [= <-]. lia.
Qed.

(** [asciiFromVideo] without its scratch canvas: of the canvas only the
    availability of a context and the refusal of [getImageData] are left. *)
Lemma asciiFromVideo_eq (video : HTMLVideoElement) (canvas : HTMLCanvasElement)
    (charset : jsstring) (scheme : Scheme) (size contrast : number) :
  asciiFromVideo video canvas charset scheme size contrast
  = let grid := computeGrid video size in
    if negb (context2d canvas) then Normal None
    else
      match as_dim (grid_width grid), as_dim (grid_height grid) with
      | Some w, Some h =>
          match imageDataFault canvas w h with
          | Some e => Throw e
          | None =>
              Normal (Some {| width := grid_width grid; height := grid_height grid;
                              charWidth := grid_charWidth grid;
                              charHeight := grid_charHeight grid;
                              rows :=
                                map (fun y =>
                                       map (cellAt (fitted (4 * w * h)
                                                      (picture video (currentTime video) w h))
                                              charset (hexToRgb (accent scheme))
                                              (hexToRgb (foreground scheme))
                                              (clampedContrast contrast) w y)
                                           (seq 0 w))
                                    (seq 0 h) |})
          end
      | _, _ => Throw GRID_FAULT
      end.
Proof.
  unfold asciiFromVideo. cbv zeta.
  destruct (negb (context2d canvas)); [reflexivity |].
  destruct (as_dim _) as [w |]; [| reflexivity].
  destruct (as_dim _) as [h |]; [| reflexivity].
  rewrite getImageData_after_draw. reflexivity.
Qed.

Lemma asciiFromVideo_contrast (video : HTMLVideoElement) (canvas : HTMLCanvasElement)
    (charset : jsstring) (scheme : Scheme) (size c1 c2 : number) :
  clampedContrast c1 = clampedContrast c2 ->
  asciiFromVideo video canvas charset scheme size c1
  = asciiFromVideo video canvas charset scheme size c2.
Proof. intros H. unfold asciiFromVideo. rewrite H. reflexivity. Qed.

(** Every contrast from 2.5 upwards is clamped to 2.5, every contrast up to
    0.2 is clamped to 0.2. *)
Lemma clampedContrast_above (contrast : number) :
  le #2.5 contrast = true -> clampedContrast contrast = #2.5.
Proof.
  destruct contrast as [c | | |]; try discriminate; [| reflexivity].
  unfold clampedContrast, ofQ. cbn [le]. rewrite Qc_leb_le. intros H.
  rewrite min_Num, (proj2 (Qc_ltb_ge c (Q2Qc 2.5)) H). reflexivity.
Qed.

Lemma clampedContrast_below (contrast : number) :
  le contrast #0.2 = true -> clampedContrast contrast = #0.2.
Proof.
  destruct contrast as [c | | |]; try discriminate; [| reflexivity].
  unfold clampedContrast, ofQ. cbn [le]. rewrite Qc_leb_le. intros H.
  assert (Hlt : Qc_ltb c (Q2Qc 2.5) = true).
  { apply Qc_ltb_lt. apply Qcle_lt_trans with (Q2Qc 0.2); [exact H | reflexivity]. }
  rewrite min_Num, Hlt, max_Num, (proj2 (Qc_ltb_ge (Q2Qc 0.2) c) H). reflexivity.
Qed.

(** Inside the range the contrast is used as it is. *)
Lemma clampedContrast_inside (contrast : number) :
  lt contrast #0.2 = false -> lt #2.5 contrast = false ->
  clampedContrast contrast = contrast.
Proof.
  destruct contrast as [c | | |]; try discriminate; [| reflexivity].
  unfold clampedContrast, ofQ. cbn [lt]. rewrite !Qc_ltb_ge. intros Hlo Hhi.
  rewrite min_Num.
  assert (E : (if Qc_ltb c (Q2Qc 2.5) then c else Q2Qc 2.5) = c).
  { destruct (Qc_ltb c (Q2Qc 2.5)) eqn:E; [reflexivity |].
    apply Qc_ltb_ge in E. apply Qcle_antisym; assumption. }
  rewrite E, max_Num.
  destruct (Qc_ltb (Q2Qc 0.2) c) eqn:E'; [reflexivity |].
  apply Qc_ltb_ge in E'. f_equal. apply Qcle_antisym; assumption.
Qed.

(** The clamp of the rasterizer, by cases. *)
Lemma clampedContrast_cases (contrast : number) :
  clampedContrast contrast
  = if lt contrast #0.2 then #0.2 else if lt #2.5 contrast then #2.5 else contrast.
Proof.
  destruct (lt contrast #0.2) eqn:Hlo.
  - apply clampedContrast_below. destruct contrast as [c | | |]; try discriminate; [| reflexivity].
    cbn [lt le] in *. unfold ofQ in *. apply Qc_leb_le, Qclt_le_weak, Qc_ltb_lt. exact Hlo.
  - destruct (lt #2.5 contrast) eqn:Hhi.
    + apply clampedContrast_above.
      destruct contrast as [c | | |]; try discriminate; [| reflexivity].
      cbn [lt le] in *. unfold ofQ in *. apply Qc_leb_le, Qclt_le_weak, Qc_ltb_lt. exact Hhi.
    + apply clampedContrast_inside; assumption.
Qed.

(** C8. The contrast is clamped to [0.2, 2.5] inside the rasterizer, and to
    nothing narrower.  For every frame, surface, palette, scheme, character
    size and contrast, the cells of the frame that the rasterizer returns
    are computed with the contrast itself when it lies in [0.2, 2.5], with
    2.5 when it is greater and with 0.2 when it is smaller; so every
    contrast from 2.5 upwards gives exactly the outcome of 2.5 and every
    contrast up to 0.2 exactly the outcome of 0.2.  In particular 5.0
    behaves as 2.5 and -1.0 as 0.2. *)
Theorem asciiFromVideo_contrast_clamped (video : HTMLVideoElement) (canvas : HTMLCanvasElement)
    (charset : jsstring) (scheme : Scheme) (size contrast : number) :
  let used := if lt contrast #0.2 then #0.2 else if lt #2.5 contrast then #2.5 else contrast in
  (forall frame : AsciiFrame,
     asciiFromVideo video canvas charset scheme size contrast = Normal (Some frame) ->
     exists w h : nat,
       width frame = ofnat w /\ height frame = ofnat h
       /\ rows frame
          = map (fun y =>
                   map (cellAt (fitted (4 * w * h) (picture video (currentTime video) w h))
                          charset (hexToRgb (accent scheme)) (hexToRgb (foreground scheme))
                          used w y)
                       (seq 0 w))
                (seq 0 h))
  /\ asciiFromVideo video canvas charset scheme size contrast
     = asciiFromVideo video canvas charset scheme size used
  /\ (le #2.5 contrast = true ->
      asciiFromVideo video canvas charset scheme size contrast
      = asciiFromVideo video canvas charset scheme size #2.5)
  /\ (le contrast #0.2 = true ->
      asciiFromVideo video canvas charset scheme size contrast
      = asciiFromVideo video canvas charset scheme size #0.2)
  /\ asciiFromVideo video canvas charset scheme size #5.0
     = asciiFromVideo video canvas charset scheme size #2.5
  /\ asciiFromVideo video canvas charset scheme size #(-1.0)
     = asciiFromVideo video canvas charset scheme size #0.2.
Proof.
  intros used.
  assert (Eu : clampedContrast contrast = used) by apply clampedContrast_cases.
  assert (Euu : clampedContrast used = used).
  { rewrite <- Eu. destruct (clampedContrast_range contrast) as [[_ ->] | (k & -> & Hlo & Hhi)];
      [reflexivity |].
    apply clampedContrast_inside; cbn [lt]; unfold ofQ; apply Qc_ltb_ge; assumption. }
  split; [| split; [| split; [| split; [| split]]]].
  - intros frame. rewrite asciiFromVideo_eq. cbv zeta. rewrite Eu.
    remember (computeGrid video size) as grid eqn:Eg.
    destruct (negb (context2d canvas)); [discriminate |].
    destruct (as_dim (grid_width grid)) as [w |] eqn:Ew; [| discriminate].
    destruct (as_dim (grid_height grid)) as [h |] eqn:Eh; [| discriminate].
    destruct (imageDataFault canvas w h); [discriminate |].
    intros H. injection H as <-. exists w, h.
    apply as_dim_Some in Ew, Eh.
    split; [exact Ew | split; [exact Eh | reflexivity]].
  - apply asciiFromVideo_contrast. rewrite Euu. exact Eu.
  - intros H. apply asciiFromVideo_contrast.
    rewrite (clampedContrast_above contrast H), (clampedContrast_above #2.5); reflexivity.
  - intros H. apply asciiFromVideo_contrast.
    rewrite (clampedContrast_below contrast H), (clampedContrast_below #0.2); reflexivity.
  - apply asciiFromVideo_contrast.
    rewrite (clampedContrast_above #5.0), (clampedContrast_above #2.5); reflexivity.
  - apply asciiFromVideo_contrast.
    rewrite (clampedContrast_below #(-1.0)), (clampedContrast_below #0.2); reflexivity.
Qed.

(** C4. The rasterizer is deterministic.  Two calls on frames of the same
    intrinsic size whose pixels the browser scales identically, with the same
    palette, scheme, character size and contrast, have identical outcomes:
    the same AsciiFrame, equal in every field and cell for cell.  This holds
    whatever element and whatever scratch canvas each of the two calls is
    given: the position and the duration of the element, and the size, the
    pixels and the drawing state that earlier use left on the canvas, do not
    reach the result, because the rasterizer resizes the canvas, which also
    resets its drawing state, and draws on all of it before it reads it
    back.  In particular a call on the canvas as an earlier call, on any
    frame and any grid, left it gives what a call on an untouched canvas
    gives. *)
Theorem asciiFromVideo_deterministic (v1 v2 : HTMLVideoElement) (c1 c2 : HTMLCanvasElement)
    (charset : jsstring) (scheme : Scheme) (size contrast : number) :
  videoWidth v1 = videoWidth v2 ->
  videoHeight v1 = videoHeight v2 ->
  (forall w h, picture v1 (currentTime v1) w h = picture v2 (currentTime v2) w h) ->
  context2d c1 = context2d c2 ->
  (forall w h, imageDataFault c1 w h = imageDataFault c2 w h) ->
  asciiFromVideo v1 c1 charset scheme size contrast
  = asciiFromVideo v2 c2 charset scheme size contrast
  /\ forall (v0 : HTMLVideoElement) (w0 h0 : nat),
       asciiFromVideo v2 (drawImage v0 w0 h0 (setCanvasHeight h0 (setCanvasWidth w0 c2)))
         charset scheme size contrast
       = asciiFromVideo v1 c1 charset scheme size contrast.
Proof.
  intros Hw Hh Hp Hc Hf.
  assert (H : forall c : HTMLCanvasElement,
            context2d c = context2d c2 ->
            (forall w h, imageDataFault c w h = imageDataFault c2 w h) ->
            asciiFromVideo v1 c1 charset scheme size contrast
            = asciiFromVideo v2 c charset scheme size contrast).
  { intros c Hcc Hcf. rewrite !asciiFromVideo_eq. unfold computeGrid. rewrite Hw, Hh, Hc, Hcc.
    destruct (negb (context2d c2)); [reflexivity |].
    cbn [grid_width grid_height grid_charWidth grid_charHeight].
    destruct (as_dim _) as [w |]; [| reflexivity].
    destruct (as_dim _) as [h |]; [| reflexivity].
    rewrite Hf, Hcf, Hp. reflexivity. }
  split; [apply H; [reflexivity | reflexivity] |].
  intros v0 w0 h0. symmetry. apply H; reflexivity.
Qed.

(** A canvas on which something was drawn before, and whose context was
    left in a state that draws nothing. *)
Lemma asciiFromVideo_deterministic_witness :
  let used := {| context2d := true; canvasWidth := 2; canvasHeight := 1;
                 bitmap := [Byte.xff; Byte.x00; Byte.x00; Byte.xff;
                            Byte.x00; Byte.xff; Byte.x00; Byte.xff];
                 drawingState := fun _ => [];
                 imageDataFault := fun _ _ => None |} in
  asciiFromVideo demoVideo newCanvas (utf16 "@$%#*+=-:. ")
    demoScheme #8 #1
  = asciiFromVideo demoVideoLater used (utf16 "@$%#*+=-:. ") demoScheme #8 #1
  /\ forall (v0 : HTMLVideoElement) (w0 h0 : nat),
       asciiFromVideo demoVideoLater
         (drawImage v0 w0 h0 (setCanvasHeight h0 (setCanvasWidth w0 used)))
         (utf16 "@$%#*+=-:. ") demoScheme #8 #1
       = asciiFromVideo demoVideo newCanvas (utf16 "@$%#*+=-:. ")
           demoScheme #8 #1.
Proof.
  apply (asciiFromVideo_deterministic demoVideo demoVideoLater);
    [reflexivity | reflexivity | intros w h; reflexivity | reflexivity
    | intros w h; reflexivity].
Defined.

(** ** The seeker *)

Lemma seek_start_ok (video : HTMLVideoElement) (time : number) :
  seekFault video (assignments video) (clampTime (duration video) time) = None ->
  seek_waiting (seek_start video time) /\
  currentTime (sk_video (seek_start video time)) = clampTime (duration video) time.
Proof.
  intros H. unfold seek_start, setCurrentTime. cbn [pause setPaused seekFault duration assignments].
  rewrite H. repeat split.
Qed.

Lemma seek_start_fault (video : HTMLVideoElement) (time : number) (e : thrown) :
  seekFault video (assignments video) (clampTime (duration video) time) = Some e ->
  seek_failed (seek_start video time).
Proof.
  intros H. unfold seek_start, setCurrentTime. cbn [pause setPaused seekFault duration assignments].
  rewrite H. split; [reflexivity | eexists; reflexivity].
Qed.

Lemma seek_step_waiting (st : SeekState) (ev : SeekEvent) :
  seek_waiting st -> seek_done (seek_step st ev).
Proof.
  intros (Hr & Hp & Hl & Ht). destruct ev; unfold seek_step, seek_finish; cbn.
  - rewrite Hl, Hr, Hp. repeat split.
  - rewrite Ht, Hr, Hp. repeat split.
Qed.

Lemma seek_step_done (st : SeekState) (ev : SeekEvent) :
  seek_done st -> seek_done (seek_step st ev).
Proof.
  intros (Hr & Hp & Hv). unfold seek_done.
  destruct ev; unfold seek_step, seek_finish; cbn.
  - destruct (sk_listener st); [rewrite Hr; cbn |]; auto.
  - destruct (sk_timer_pending st); [rewrite Hr; cbn |]; auto.
Qed.

Lemma seek_step_failed (st : SeekState) (ev : SeekEvent) :
  seek_failed st -> seek_failed (seek_step st ev).
Proof.
  intros (Hr & e & Hp). unfold seek_failed.
  destruct ev; unfold seek_step, seek_finish; cbn.
  - destruct (sk_listener st); [rewrite Hr; cbn |]; eauto.
  - destruct (sk_timer_pending st); [rewrite Hr; cbn |]; eauto.
Qed.

Lemma seek_run_done (events : list SeekEvent) (st : SeekState) :
  seek_done st -> seek_done (fold_left seek_step events st).
Proof.
  revert st. induction events as [| ev events IH]; intros st H; [exact H |].
  cbn [fold_left]. apply IH, seek_step_done, H.
Qed.

Lemma seek_run_failed (events : list SeekEvent) (st : SeekState) :
  seek_failed st -> seek_failed (fold_left seek_step events st).
Proof.
  revert st. induction events as [| ev events IH]; intros st H; [exact H |].
  cbn [fold_left]. apply IH, seek_step_failed, H.
Qed.

Lemma seek_run_waiting (events : list SeekEvent) (st : SeekState) :
  seek_waiting st ->
  match events with
  | [] => seek_waiting (fold_left seek_step events st)
  | _ :: _ => seek_done (fold_left seek_step events st)
  end.
Proof.
  intros H. destruct events as [| ev events]; [exact H |].
  cbn [fold_left]. apply seek_run_done, seek_step_waiting, H.
Qed.

Lemma seek_step_currentTime (st : SeekState) (ev : SeekEvent) :
  currentTime (sk_video (seek_step st ev)) = currentTime (sk_video st).
Proof.
  destruct ev; unfold seek_step, seek_finish; cbn;
    repeat match goal with |- context [if ?c then _ else _] => destruct c end; reflexivity.
Qed.

Lemma seek_run_currentTime (events : list SeekEvent) (st : SeekState) :
  currentTime (sk_video (fold_left seek_step events st)) = currentTime (sk_video st).
Proof.
  revert st. induction events as [| ev events IH]; intros st; [reflexivity |].
  cbn [fold_left]. rewrite IH. apply seek_step_currentTime.
Qed.

(** C6. The promise of [seekVideo] is rejected if and only if the
    synchronous seek request (pausing and assigning the clamped target to
    [currentTime]) throws, whatever is signalled afterwards.  When the
    request does not throw, the promise is fulfilled as soon as anything is
    signalled, the expiry of the timer without any "seeked" signal
    included, and the element is then paused: a late or imprecise seek is
    never an error. *)
Theorem seekVideo_rejects_iff_request_throws
    (video : HTMLVideoElement) (time : number) (events : list SeekEvent) :
  (is_rejected (seekVideo video time events) = true
   <-> seekFault video (assignments video) (clampTime (duration video) time) <> None)
  /\ (seekFault video (assignments video) (clampTime (duration video) time) = None ->
      events <> [] ->
      sk_promise (seekVideo video time events) = Some (Normal tt)
      /\ paused (sk_video (seekVideo video time events)) = true).
Proof.
  unfold seekVideo, is_rejected.
  destruct (seekFault video (assignments video) (clampTime (duration video) time)) as [e |] eqn:Hf.
  - destruct (seek_run_failed events _ (seek_start_fault video time e Hf)) as (_ & e' & ->).
    split; [split; [discriminate | reflexivity] | discriminate].
  - pose proof (seek_run_waiting events _ (proj1 (seek_start_ok video time Hf))) as H.
    destruct events as [| ev events].
    + destruct H as (_ & -> & _). split; [split; [discriminate | congruence] | congruence].
    + destruct H as (_ & Hp & Hv). rewrite Hp.
      split; [split; [discriminate | congruence] | intros _ _; split; [reflexivity | exact Hv]].
Qed.

Lemma seekVideo_rejects_iff_request_throws_witness :
  sk_promise (seekVideo demoVideo #1 [TimerFired]) = Some (Normal tt)
  /\ paused (sk_video (seekVideo demoVideo #1 [TimerFired])) = true.
Proof.
  apply (proj2 (seekVideo_rejects_iff_request_throws demoVideo #1 [TimerFired]));
    [reflexivity | discriminate].
Defined.

(** [await seekVideo(...)] always completes: when the timer expires the
    promise is settled. *)
Lemma awaitSeek_settled (video : HTMLVideoElement) (time : number) (signals : list SeekEvent) :
  sk_promise (seekVideo video time (signals ++ [TimerFired])) <> None.
Proof.
  unfold seekVideo.
  destruct (seekFault video (assignments video) (clampTime (duration video) time)) as [e |] eqn:Hf.
  - destruct (seek_run_failed (signals ++ [TimerFired]) _ (seek_start_fault video time e Hf))
      as (_ & e' & ->). discriminate.
  - pose proof (seek_run_waiting (signals ++ [TimerFired]) _
                  (proj1 (seek_start_ok video time Hf))) as H.
    destruct (signals ++ [TimerFired]) eqn:E; [destruct signals; discriminate |].
    destruct H as (_ & -> & _). discriminate.
Qed.

(** C7 does not hold as it is worded: with an unbounded duration a
    negative time is applied as it is, a stream shorter than 0.001 s is
    sought to 0 (above duration - 0.001), and a time that is not a number
    stays so. *)
Lemma seek_target_not_always_clamped :
  seekTargetClamped PosInf #(-5) = false
  /\ seekTargetClamped #0.0005 #1 = false
  /\ seekTargetClamped #10 NaN = false.
Proof. repeat split. Qed.

Lemma clampTime_bounds (d : Qc) (time : number) :
  isNaN time = false ->
  exists t u : Qc,
    clampTime (Num d) time = Num t
    /\ max #0 (Num d - #0.001) = Num u
    /\ (0 <= t)%Qc /\ (t <= u)%Qc /\ (d + - Q2Qc 0.001 <= u)%Qc
    /\ ((Q2Qc 0.001 <= d)%Qc -> u = (d + - Q2Qc 0.001)%Qc).
Proof.
  intros Ht. unfold clampTime. cbn [eqb isNaN orb].
  change (Num d - #0.001) with (Num (d + - Q2Qc 0.001)). unfold ofQ. rewrite max_Num.
  set (u := if Qc_ltb (Q2Qc 0) (d + - Q2Qc 0.001) then (d + - Q2Qc 0.001)%Qc else Q2Qc 0).
  assert (Hu : (0 <= u)%Qc /\ (d + - Q2Qc 0.001 <= u)%Qc).
  { subst u. qc_cases; split; try qc_order; vm_compute; congruence. }
  assert (Hu' : (Q2Qc 0.001 <= d)%Qc -> u = (d + - Q2Qc 0.001)%Qc).
  { intros Hd. subst u. qc_cases; [reflexivity |]. apply Qcle_antisym; [| exact E].
    rewrite <- (Qcplus_opp_r (Q2Qc 0.001)). apply Qcplus_le_compat; [exact Hd | apply Qcle_refl]. }
  destruct Hu as [Hu0 Hud].
  destruct time as [t | | |]; try discriminate.
  - rewrite max_Num, min_Num. do 2 eexists. split; [reflexivity |]. split; [reflexivity |].
    repeat split; try assumption; qc_cases; try qc_order; try (vm_compute; congruence).
  - exists u, u. unfold max, min. cbn [lt].
    repeat split; try assumption; apply Qcle_refl.
  - unfold max at 1. cbn [lt]. rewrite min_Num. do 2 eexists.
    split; [reflexivity |]. split; [reflexivity |].
    repeat split; try assumption; qc_cases; try qc_order; try (vm_compute; congruence).
Qed.

(** C7, as the code has it.  When the duration of the stream is a finite
    number [d] and the requested time is a number, the target that
    [seekVideo] applies is [clampTime d time]; it lies in
    [[0, max(0, d - 0.001)]], which is [[0, d - 0.001]] as soon as [d] is at
    least 0.001; and unless the element refuses the assignment it is the
    position of the stream after the call.  When the duration is
    [Infinity] or [NaN] the requested time is applied as it is. *)
Theorem seek_target_clamped_finite
    (video : HTMLVideoElement) (time : number) (events : list SeekEvent) :
  isNaN time = false ->
  let target := clampTime (duration video) time in
  (seekFault video (assignments video) target = None ->
   currentTime (sk_video (seekVideo video time events)) = target)
  /\ match duration video with
     | Num d =>
         le #0 target = true
         /\ le target (max #0 (Num d - #0.001)) = true
         /\ ((Q2Qc 0.001 <= d)%Qc -> seekTargetClamped (Num d) time = true)
     | PosInf | NaN => target = time
     | NegInf => target = #0
     end.
Proof.
  intros Ht target. subst target. split.
  - intros Hf. unfold seekVideo. rewrite seek_run_currentTime.
    apply (seek_start_ok video time Hf).
  - destruct (duration video) as [d | | |]; try reflexivity.
    + destruct (clampTime_bounds d time Ht) as (t & u & Et & Eu & H0 & Htu & Hdu & Hd).
      assert (H0' : le #0 (Num t) = true) by (apply Qc_leb_le; exact H0).
      unfold seekTargetClamped. rewrite Et, Eu.
      split; [exact H0' |]. split; [apply Qc_leb_le; exact Htu |].
      intros Hge. rewrite H0'. cbn [andb].
      change (Num d - #0.001) with (Num (d + - Q2Qc 0.001)).
      apply Qc_leb_le. rewrite <- (Hd Hge). exact Htu.
    + destruct time as [t | | |]; try discriminate; unfold clampTime; cbn.
      * unfold max, min, ofQ; cbn [lt]. destruct (Qc_ltb t (Q2Qc 0)) eqn:E; cbn [lt].
        -- reflexivity.
        -- apply Qc_ltb_ge in E. destruct (Qc_ltb (Q2Qc 0) t) eqn:E'; [reflexivity |].
           apply Qc_ltb_ge in E'. f_equal. apply Qcle_antisym; assumption.
      * reflexivity.
      * reflexivity.
Qed.

Lemma seek_target_clamped_finite_witness :
  (seekFault demoVideo (assignments demoVideo) (clampTime (duration demoVideo) #7) = None ->
   currentTime (sk_video (seekVideo demoVideo #7 [Seeked]))
   = clampTime (duration demoVideo) #7)
  /\ le #0 (clampTime #2 #7) = true
  /\ le (clampTime #2 #7) (max #0 (#2 - #0.001)) = true
  /\ ((Q2Qc 0.001 <= Q2Qc 2)%Qc -> seekTargetClamped #2 #7 = true).
Proof.
  apply (seek_target_clamped_finite demoVideo #7 [Seeked]). reflexivity.
Defined.

(** ** Reasoning about the handler *)

Section Triples.
Context {A B : Type}.
Implicit Types (P : Page -> Prop) (Qe : Page -> Prop).

Lemma triple_ret P (a : A) (Qn : A -> Page -> Prop) Qe :
  (forall s, P s -> Qn a s) -> triple P (mret a) Qn Qe.
Proof. intros H s Hs. apply H, Hs. Qed.

Lemma triple_throw P (e : thrown) (Qn : A -> Page -> Prop) Qe :
  (forall s, P s -> Qe s) -> triple P (throw e) Qn Qe.
Proof. intros H s Hs. apply H, Hs. Qed.

Lemma triple_bind P (m : M A) (f : A -> M B) (Qm : A -> Page -> Prop)
    (Qn : B -> Page -> Prop) Qe :
  triple P m Qm Qe -> (forall a, triple (Qm a) (f a) Qn Qe) ->
  triple P (m ≫= f) Qn Qe.
Proof.
  intros Hm Hf s Hs. specialize (Hm s Hs). unfold mbind, M_bind.
  destruct (m s) as [[a | e] s']; [apply Hf, Hm | exact Hm].
Qed.

Lemma triple_tryCatch P (body : M A) (handler : thrown -> M A)
    (Qn : A -> Page -> Prop) Qe Qe' :
  triple P body Qn Qe' -> (forall e, triple Qe' (handler e) Qn Qe) ->
  triple P (tryCatch body handler) Qn Qe.
Proof.
  intros Hb Hh s Hs. specialize (Hb s Hs). unfold tryCatch.
  destruct (body s) as [[a | e] s']; [exact Hb | apply Hh, Hb].
Qed.

Lemma triple_weaken P P' (m : M A) (Qn Qn' : A -> Page -> Prop) Qe Qe' :
  triple P' m Qn' Qe' ->
  (forall s, P s -> P' s) -> (forall a s, Qn' a s -> Qn a s) -> (forall s, Qe' s -> Qe s) ->
  triple P m Qn Qe.
Proof.
  intros H HP HQ HE s Hs. specialize (H s (HP s Hs)).
  destruct (m s) as [[a | e] s']; auto.
Qed.
End Triples.

Lemma triple_get (P : Page -> Prop) (Qn : Page -> Page -> Prop) (Qe : Page -> Prop) :
  (forall s, P s -> Qn s s) -> triple P get Qn Qe.
Proof. intros H s Hs. apply H, Hs. Qed.

Lemma triple_modify (P : Page -> Prop) (f : Page -> Page) (Qn : unit -> Page -> Prop)
    (Qe : Page -> Prop) :
  (forall s, P s -> Qn tt (f s)) -> triple P (modify f) Qn Qe.
Proof. intros H s Hs. apply H, Hs. Qed.

Lemma triple_forRange (I : Page -> Prop) (Qe : Page -> Prop) (body : nat -> M unit)
    (first count : nat) :
  (forall i, triple I (body i) (fun _ => I) Qe) ->
  triple I (forRange body first count) (fun _ => I) Qe.
Proof.
  intros Hb. revert first. induction count as [| k IH]; intros first.
  - apply triple_ret. auto.
  - cbn [forRange]. eapply triple_bind; [apply Hb | intros ?; apply IH].
Qed.

Lemma triple_tryFinally {A : Type} (P : Page -> Prop) (body : M A) (finalizer : M unit)
    (Qm : Page -> Prop) (Q : Page -> Prop) :
  triple P body (fun _ => Qm) Qm -> triple Qm finalizer (fun _ => Q) Q ->
  triple P (tryFinally body finalizer) (fun _ => Q) Q.
Proof.
  intros Hb Hf s Hs. specialize (Hb s Hs). unfold tryFinally.
  destruct (body s) as [r s1].
  assert (H1 : Qm s1) by (destruct r; exact Hb).
  specialize (Hf s1 H1). destruct (finalizer s1) as [[u | e] s2]; [destruct r |]; exact Hf.
Qed.

Section Keeps.
Context (I : Page -> Prop).

Lemma keeps_ret {A : Type} (a : A) : keeps I (mret a).
Proof. apply triple_ret. auto. Qed.

Lemma keeps_throw {A : Type} (e : thrown) : keeps I (@throw A e).
Proof. apply triple_throw. auto. Qed.

Lemma keeps_get : keeps I get.
Proof. apply triple_get. auto. Qed.

Lemma keeps_modify (f : Page -> Page) : (forall s, I s -> I (f s)) -> keeps I (modify f).
Proof. intros H. apply triple_modify. exact H. Qed.

Lemma keeps_bind {A B : Type} (m : M A) (f : A -> M B) :
  keeps I m -> (forall a, keeps I (f a)) -> keeps I (m ≫= f).
Proof. intros Hm Hf. eapply triple_bind; [exact Hm | exact Hf]. Qed.

Lemma keeps_tryCatch {A : Type} (body : M A) (handler : thrown -> M A) :
  keeps I body -> (forall e, keeps I (handler e)) -> keeps I (tryCatch body handler).
Proof. intros Hb Hh. eapply triple_tryCatch; [exact Hb | exact Hh]. Qed.

Lemma keeps_forRange (body : nat -> M unit) (first count : nat) :
  (forall i, keeps I (body i)) -> keeps I (forRange body first count).
Proof. intros Hb. apply triple_forRange. exact Hb. Qed.
End Keeps.

(** Decomposition of a goal [keeps I m] along the structure of [m]; what
    remains are the page updates, to be shown to keep [I]. *)
Ltac keeps_step :=
  lazymatch goal with
  | |- keeps _ (mbind _ _) => apply keeps_bind; [| intros ?]
  | |- keeps _ (mret _) => apply keeps_ret
  | |- keeps _ (throw _) => apply keeps_throw
  | |- keeps _ get => apply keeps_get
  | |- keeps _ (modify _) => apply keeps_modify; intros ? ?
  | |- keeps _ (tryCatch _ _) => apply keeps_tryCatch; [| intros ?]
  | |- keeps _ (forRange _ _ _) => apply keeps_forRange; intros ?
  | |- keeps _ (if ?c then _ else _) => destruct c
  | |- keeps _ (match ?x with _ => _ end) => destruct x
  end.

Ltac unfold_handler :=
  unfold exportBody, exportPrepare, exportEncode, exportCatch, captureFrame, primeSampling,
    ensureFfmpeg, writeFile, execFfmpeg, readFile, deleteFile, assignCurrentTime, pauseSampling,
    setStore, setExportState, setStatus, emit.

Ltac page_simpl :=
  repeat match goal with
         | |- context [match ffmpegRef ?s with _ => _ end] => destruct (ffmpegRef s) eqn:?
         end;
  cbn [trace ffmpegRef samplingVideo objectUrl outputName totalFrames
       with_trace with_ffmpegRef with_samplingVideo with_objectUrl with_outputName
       with_totalFrames] in *.


Lemma exportStates_snoc (t : list Effect) (e : Effect) :
  exportStates (t ++ [e]) = exportStates t ++ match e with SetExportState s => [s] | _ => [] end.
Proof. unfold exportStates. rewrite omap_app. destruct e; reflexivity. Qed.

Lemma statuses_snoc (t : list Effect) (e : Effect) :
  statuses (t ++ [e])
  = statuses t ++ match e with SetExportState s => [status s] | _ => [] end.
Proof.
  unfold statuses. rewrite exportStates_snoc, fmap_app. destruct e; reflexivity.
Qed.

(** *** Nothing is deleted before the cleanup *)


(** *** The loop bound is never infinite *)

Lemma min_cap_not_infinite (a : number) (e : Entitlement) : min a (maxFramesOf e) <> PosInf.
Proof.
  destruct e, a as [q | | |]; try discriminate; unfold maxFramesOf, ofQ; cbn [isFreeTier];
    rewrite min_Num; discriminate.
Qed.

(** [totalFrames], the bound of the sampling loop and of the cleanup loop,
    is never [Infinity]: both loops end. *)
Lemma body_totalFrames_not_infinite (env : Environment) (format : ExportFormat) :
  keeps (fun s => totalFrames s <> PosInf)
    (tryCatch (exportBody env format) (exportCatch format)).
Proof.
  unfold_handler. repeat keeps_step; page_simpl;
    try assumption; apply min_cap_not_infinite.
Qed.

(** *** An encoder, once loaded, stays *)

Ltac encoder_leaf :=
  page_simpl;
  try match goal with H : is_Some None |- _ => destruct (is_Some_None H) end;
  eauto.

Lemma body_keeps_encoder (env : Environment) (format : ExportFormat) :
  keeps has_encoder (tryCatch (exportBody env format) (exportCatch format)).
Proof.
  unfold_handler; unfold has_encoder. repeat keeps_step; encoder_leaf.
Qed.

Lemma ensureFfmpeg_spec (env : Environment) :
  triple locals_unset (ensureFfmpeg env) (fun _ => has_encoder) locals_unset.
Proof.
  intros s Hs. unfold ensureFfmpeg, has_encoder, mbind, M_bind, get.
  destruct (ffmpegRef s) eqn:E; cbn; [rewrite E; eauto |].
  destruct (loadFault env); cbn; eauto.
Qed.

Lemma rest_keeps_encoder {A : Type} (m : M A) :
  keeps has_encoder m ->
  triple has_encoder m (fun _ => has_encoder) encoder_or_unset.
Proof.
  intros H. apply (triple_weaken _ has_encoder _ _ (fun _ => has_encoder) _ has_encoder H);
    unfold encoder_or_unset; auto.
Qed.

Lemma prepare_locals (env : Environment) (format : ExportFormat) :
  triple locals_unset (exportPrepare env format) (fun _ => has_encoder) encoder_or_unset.
Proof.
  unfold exportPrepare.
  apply triple_bind with (Qm := fun _ => locals_unset).
  { unfold setExportState, emit. apply triple_modify. intros s Hs. exact Hs. }
  intros _. apply triple_bind with (Qm := fun _ => has_encoder).
  { apply (triple_weaken _ locals_unset _ _ (fun _ => has_encoder) _ locals_unset
             (ensureFfmpeg_spec env)); unfold encoder_or_unset; auto. }
  intros _. apply rest_keeps_encoder.
  unfold_handler; unfold has_encoder. repeat keeps_step; encoder_leaf.
Qed.


(** *** The cleanup *)

Lemma deleted_trans (n1 n2 : list string) (s1 s2 s3 : Page) :
  deleted n1 s1 s2 -> deleted n2 s2 s3 -> deleted (n1 ++ n2) s1 s3.
Proof.
  intros (Ht1 & Hs1 & Hn1 & Ho1) (Ht2 & Hs2 & Hn2 & Ho2). repeat split.
  - rewrite Ht2, Ht1, fmap_app, app_assoc. reflexivity.
  - rewrite Hs2, Hs1, list_to_set_app_L. clear. set_solver.
  - congruence.
  - congruence.
Qed.

Lemma setStore_run (st : gset string) (s : Page) :
  exists s', setStore st s = (Normal tt, s')
    /\ trace s' = trace s /\ totalFrames s' = totalFrames s /\ outputName s' = outputName s
    /\ storeOf s' = match ffmpegRef s with Some _ => st | None => ∅ end.
Proof.
  unfold setStore, modify, storeOf. destruct (ffmpegRef s) eqn:E; eexists;
    (split; [reflexivity |]); cbn; rewrite ?E; auto.
Qed.

Lemma storeOf_None (s : Page) : ffmpegRef s = None -> storeOf s = ∅.
Proof. unfold storeOf. intros ->. reflexivity. Qed.

Lemma best_effort_delete (name : string) (s : Page) :
  exists s', tryCatch (deleteFile name) (fun _ => mret tt) s = (Normal tt, s')
             /\ deleted [name] s s'.
Proof.
  unfold tryCatch, deleteFile, emit, modify, get, mbind, M_bind, mret, M_ret, throw.
  set (s0 := with_trace (trace s ++ [DeleteFile name]) s).
  assert (Hstore : storeOf s0 = storeOf s) by reflexivity.
  case_bool_decide as Hin.
  - destruct (setStore_run (storeOf s0 ∖ {[name]}) s0) as (s1 & E & Ht & Hn & Ho & Hs).
    rewrite E. exists s1. split; [reflexivity |].
    destruct (ffmpegRef s0) eqn:Ef.
    + unfold deleted. rewrite Ht, Hn, Ho, Hs, Hstore. repeat split. set_solver.
    + rewrite (storeOf_None s0 Ef) in Hin. set_solver.
  - exists s0. split; [reflexivity |].
    unfold deleted. rewrite Hstore in *. repeat split. set_solver.
Qed.

Lemma delete_frames (first count : nat) (s : Page) :
  exists s',
    forRange (fun i => tryCatch (deleteFile (frameName i)) (fun _ => mret tt)) first count s
    = (Normal tt, s')
    /\ deleted (frameName <$> seq first count) s s'.
Proof.
  revert first s. induction count as [| k IH]; intros first s.
  - exists s. split; [reflexivity |]. unfold deleted. cbn. rewrite app_nil_r.
    repeat split. set_solver.
  - destruct (best_effort_delete (frameName first) s) as (s1 & E1 & H1).
    destruct (IH (S first) s1) as (s2 & E2 & H2).
    exists s2. split.
    + cbn [forRange]. unfold mbind, M_bind. rewrite E1. exact E2.
    + exact (deleted_trans [frameName first] _ _ _ _ H1 H2).
Qed.

Lemma exportFinally_spec (s : Page) :
  exists s',
    exportFinally s = (Normal tt, s')
    /\ totalFrames s' = totalFrames s /\ outputName s' = outputName s
    /\ ((has_encoder s /\ deleted (cleanupNames s) s s')
        \/ (ffmpegRef s = None /\ trace s' = trace s /\ storeOf s' = ∅)).
Proof.
  unfold exportFinally, pauseSampling, modify, get, mbind, M_bind.
  cbn [ffmpegRef with_samplingVideo totalFrames outputName].
  destruct (ffmpegRef s) as [f |] eqn:Ef.
  - set (s0 := with_samplingVideo (pause (samplingVideo s)) s).
    destruct (delete_frames 0 (iterations (totalFrames s)) s0) as (s1 & E1 & H1).
    rewrite E1.
    assert (H0 : deleted [] s s0).
    { unfold deleted, storeOf. cbn. rewrite app_nil_r. repeat split. set_solver. }
    pose proof (deleted_trans _ _ _ _ _ H0 H1) as H01. cbn [app] in H01.
    destruct (outputName s) as [name |] eqn:Eo.
    + destruct (best_effort_delete name s1) as (s2 & E2 & H2).
      exists s2. split; [exact E2 |].
      pose proof (deleted_trans _ _ _ _ _ H01 H2) as H. 
      destruct H as (Ht & Hs & Hn & Ho). repeat split; try congruence.
      left. split; [unfold has_encoder; rewrite Ef; eauto |].
      unfold cleanupNames. rewrite Eo. repeat split; congruence.
    + exists s1. split; [reflexivity |].
      destruct H01 as (Ht & Hs & Hn & Ho). repeat split; try congruence.
      left. split; [unfold has_encoder; rewrite Ef; eauto |].
      unfold cleanupNames. rewrite Eo, app_nil_r. repeat split; congruence.
  - eexists. split; [reflexivity |]. repeat split. right.
    unfold storeOf. cbn. rewrite Ef. auto.
Qed.




Lemma exportCatch_normal (format : ExportFormat) (e : thrown) (s : Page) :
  fst (exportCatch format e s) = Normal tt.
Proof. reflexivity. Qed.

Lemma guarded_body_normal (env : Environment) (format : ExportFormat) (s : Page) :
  fst (tryCatch (exportBody env format) (exportCatch format) s) = Normal tt.
Proof.
  unfold tryCatch. destruct (exportBody env format s) as [[[] | e] s'];
    [reflexivity | apply exportCatch_normal].
Qed.

Lemma handleExport_selected (env : Environment) (format : ExportFormat) (cached : option FFmpeg) :
  selectedFile env = true ->
  handleExport env format (initialPage cached)
  = tryFinally (tryCatch (exportBody env format) (exportCatch format)) exportFinally
      (startPage env cached).
Proof. intros H. unfold handleExport. rewrite H. reflexivity. Qed.

Lemma handleExport_unselected (env : Environment) (format : ExportFormat)
    (cached : option FFmpeg) :
  selectedFile env = false ->
  handleExport env format (initialPage cached) = (Normal tt, initialPage cached).
Proof. intros H. unfold handleExport. rewrite H. reflexivity. Qed.

(** The run of the handler on a selected file, phase by phase. *)
Lemma handleExport_phases (env : Environment) (format : ExportFormat) (cached : option FFmpeg) :
  selectedFile env = true ->
  exists s2 s3,
    tryCatch (exportBody env format) (exportCatch format) (startPage env cached)
    = (Normal tt, s2)
    /\ exportFinally s2 = (Normal tt, s3)
    /\ handleExport env format (initialPage cached) = (Normal tt, s3).
Proof.
  intros H. rewrite (handleExport_selected env format cached H). unfold tryFinally.
  pose proof (guarded_body_normal env format (startPage env cached)) as Hr.
  destruct (tryCatch (exportBody env format) (exportCatch format) (startPage env cached))
    as [r s2].
  cbn [fst] in Hr. subst r.
  destruct (exportFinally_spec s2) as (s3 & E3 & _).
  exists s2, s3. rewrite E3. auto.
Qed.


(** *** The statuses a job goes through *)

Lemma in_sampling_loading (s : Page) : in_sampling s -> loading s.
Proof. intros [k H]. exists (S k). exact H. Qed.

Ltac sampling_leaf :=
  page_simpl;
  match goal with
  | H : in_sampling _ |- in_sampling _ =>
      let k := fresh "k" in
      destruct H as [k H]; unfold in_sampling; page_simpl;
      rewrite ?statuses_snoc, ?H;
      first [ exists k; rewrite ?app_nil_r; reflexivity
            | exists (S k); cbn [status]; rewrite (replicate_S_end (S k)); reflexivity ]
  end.

Lemma rest_keeps_sampling {A : Type} (m : M A) :
  keeps in_sampling m -> triple in_sampling m (fun _ => in_sampling) loading.
Proof.
  intros H. apply (triple_weaken _ in_sampling _ _ (fun _ => in_sampling) _ in_sampling H);
    auto using in_sampling_loading.
Qed.

Lemma ensureFfmpeg_keeps_trace (env : Environment) (P : list Effect -> Prop) :
  keeps (fun s => P (trace s)) (ensureFfmpeg env).
Proof. unfold ensureFfmpeg. repeat keeps_step; page_simpl; assumption. Qed.

Lemma prepare_statuses (env : Environment) (format : ExportFormat) :
  triple (fun s => statuses (trace s) = []) (exportPrepare env format)
    (fun _ => in_sampling) loading.
Proof.
  unfold exportPrepare.
  apply triple_bind with (Qm := fun _ s => statuses (trace s) = [initializing]).
  { unfold setExportState, emit. apply triple_modify. intros s Hs. cbn [trace with_trace].
    rewrite statuses_snoc, Hs. reflexivity. }
  intros _. apply triple_bind with (Qm := fun _ s => statuses (trace s) = [initializing]).
  { apply (triple_weaken _ _ _ _ _ _ _
             (ensureFfmpeg_keeps_trace env (fun t => statuses t = [initializing]))); auto.
    intros s Hs. exists 0%nat. exact Hs. }
  intros _. apply triple_bind with (Qm := fun _ => in_sampling).
  { unfold setExportState, emit. apply triple_modify. intros s Hs.
    exists 0%nat. cbn [trace with_trace]. rewrite statuses_snoc, Hs. reflexivity. }
  intros _. apply rest_keeps_sampling.
  unfold_handler; unfold truncationNotice. repeat keeps_step; sampling_leaf.
Qed.




Lemma exportStates_DeleteFile (names : list string) : exportStates (DeleteFile <$> names) = [].
Proof. induction names as [| n names IH]; [reflexivity | exact IH]. Qed.

Lemma exportStates_app (t1 t2 : list Effect) :
  exportStates (t1 ++ t2) = exportStates t1 ++ exportStates t2.
Proof. unfold exportStates. apply omap_app. Qed.

(** The cleanup publishes no export state. *)
Lemma exportFinally_exportStates (s s' : Page) :
  exportFinally s = (Normal tt, s') -> exportStates (trace s') = exportStates (trace s).
Proof.
  intros E. destruct (exportFinally_spec s) as (s'' & E' & _ & _ & H).
  rewrite E in E'. injection E' as <-.
  destruct H as [[_ (Ht & _)] | (_ & Ht & _)]; rewrite Ht; [| reflexivity].
  rewrite exportStates_app, exportStates_DeleteFile, app_nil_r. reflexivity.
Qed.




(** ** The frame count *)

Lemma Qceiling_inject (n : Z) : Qceiling (Q2Qc (inject_Z n)) = n.
Proof.
  unfold Qceiling. rewrite <- (Z.opp_involutive n) at 2. f_equal.
  assert (E : (- Q2Qc (inject_Z n) == inject_Z (- n))%Q).
  { rewrite this_Q2Qc. unfold Qeq. simpl. lia. }
  rewrite E. apply Qfloor_Z.
Qed.

Lemma iterations_ofZ (n : Z) : iterations (ofZ n) = Z.to_nat n.
Proof. unfold iterations, ofZ. rewrite Qceiling_inject. reflexivity. Qed.

Lemma le_ofZ (a c : Z) : le (ofZ a) (ofZ c) = (a <=? c)%Z.
Proof.
  unfold le, ofZ. destruct (Z.leb_spec a c) as [H | H].
  - apply Qc_leb_le. unfold Qcle. rewrite !this_Q2Qc, <- Zle_Qle. exact H.
  - apply Bool.not_true_iff_false. rewrite Qc_leb_le. unfold Qcle.
    rewrite !this_Q2Qc, <- Zle_Qle. lia.
Qed.

Lemma lt_ofZ (a c : Z) : lt (ofZ a) (ofZ c) = (a <? c)%Z.
Proof. apply Qc_ltb_ofZ. Qed.

Lemma tier_fps_positive (e : Entitlement) :
  exists f : Qc, fps (tierConfigOf e) = Num f /\ (1 <= f)%Qc.
Proof. destruct e; eexists; (split; [reflexivity | vm_compute; congruence]). Qed.

Lemma maxFramesOf_ofZ (e : Entitlement) :
  maxFramesOf e = ofZ (if isFreeTier e then 300 else 600).
Proof. destruct e; reflexivity. Qed.

(** The ideal frame count of a stream of positive finite duration is an
    integer, at least 1. *)
Lemma idealFrames_positive (d : Qc) (e : Entitlement) :
  (0 < d)%Qc ->
  exists z : Z, ceil (Num d * fps (tierConfigOf e)) = ofZ z /\ (1 <= z)%Z.
Proof.
  intros Hd. destruct (tier_fps_positive e) as (f & -> & Hf).
  cbn [mul ceil]. eexists. split; [reflexivity |].
  assert (H : (0 < d * f)%Qc).
  { rewrite <- (Qcmult_0_l f). apply Qcmult_lt_compat_r; [| exact Hd].
    apply Qclt_le_trans with (Q2Qc 1); [reflexivity | exact Hf]. }
  unfold Qclt in H.
  pose proof (Qle_ceiling (d * f)%Qc) as Hc.
  assert (Hz : (inject_Z 0 < inject_Z (Qceiling (d * f)%Qc))%Q).
  { apply Qlt_le_trans with (this (d * f)%Qc); [exact H | exact Hc]. }
  rewrite <- Zlt_Qlt in Hz. lia.
Qed.

(** The total frame count of a stream of positive finite duration: an
    integer between 1 and the cap of the tier. *)
Lemma totalFrames_range (d : Qc) (e : Entitlement) :
  (0 < d)%Qc ->
  let ideal := ceil (Num d * fps (tierConfigOf e)) in
  let cap := if isFreeTier e then 300%Z else 600%Z in
  exists z n : Z,
    ideal = ofZ z /\ min ideal (maxFramesOf e) = ofZ n /\ n = Z.min z cap
    /\ (1 <= n <= cap)%Z.
Proof.
  intros Hd ideal cap. subst ideal.
  destruct (idealFrames_positive d e Hd) as (z & -> & Hz).
  rewrite maxFramesOf_ofZ, min_ofZ. exists z, (Z.min z cap).
  repeat split; subst cap; destruct (isFreeTier e); lia.
Qed.

Lemma primeSampling_run (env : Environment) (s : Page) :
  (forall k, seekFault (samplingVideo s) k #0 = None) ->
  exists s', primeSampling env s = (Normal tt, s')
    /\ trace s' = trace s /\ ffmpegRef s' = ffmpegRef s /\ totalFrames s' = totalFrames s
    /\ duration (samplingVideo s') = duration (samplingVideo s).
Proof.
  intros H.
  unfold primeSampling, tryCatch, assignCurrentTime, pauseSampling, setCurrentTime, modify, get,
    throw, mbind, M_bind, mret, M_ret.
  rewrite H. cbn [samplingVideo with_samplingVideo].
  destruct (playFault env); cbn [samplingVideo with_samplingVideo seekFault assignments].
  - rewrite H. eexists. split; [reflexivity |]. auto.
  - eexists. split; [reflexivity |]. auto.
Qed.

(** The handler up to the sampling loop, for a source whose metadata load
    and whose duration is a positive number. *)
Lemma exportPrepare_run (env : Environment) (format : ExportFormat) (d : Qc) (s : Page) :
  is_Some (ffmpegRef s) \/ loadFault env = None ->
  metadataLoads env = true ->
  duration (source env) = Num d ->
  (0 < d)%Qc ->
  (forall k, seekFault (source env) k #0 = None) ->
  let ideal := ceil (Num d * fps (tierConfigOf (entitlement env))) in
  let total := min ideal (maxFramesOf (entitlement env)) in
  exists r s' t,
    exportPrepare env format s = (r, s')
    /\ totalFrames s' = total
    /\ trace s' = trace s ++ t
    /\ (lt total ideal = true -> last t = Some (SetExportState (truncationNotice format total)))
    /\ (exportContext env = true -> exists step, r = Normal (Num d, step)).
Proof.
  intros Henc Hmeta Hdur Hd Hprime ideal total.
  assert (Hcheck : negb (isFinite (Num d)) || le (Num d) #0 = false).
  { unfold ofQ. cbn [isFinite negb orb le]. apply Bool.not_true_iff_false. rewrite Qc_leb_le.
    apply Qclt_not_le, Hd. }
  assert (Hload : match ffmpegRef s with Some _ => True | None => loadFault env = None end).
  { destruct Henc as [[f Hf] | Hl]; [rewrite Hf; exact I | destruct (ffmpegRef s); auto]. }
  cbv [exportPrepare ensureFfmpeg setExportState emit modify get throw mbind M_bind mret M_ret
       pauseSampling].
  cbn [ffmpegRef with_trace with_ffmpegRef with_objectUrl with_samplingVideo with_totalFrames
       samplingVideo trace].
  destruct (ffmpegRef s) as [f |] eqn:Ef; [| rewrite Hload];
    cbn [ffmpegRef with_trace with_ffmpegRef with_objectUrl with_samplingVideo with_totalFrames
         samplingVideo trace];
    rewrite Hmeta;
    cbn [ffmpegRef with_trace with_ffmpegRef with_objectUrl with_samplingVideo with_totalFrames
         samplingVideo trace];
    rewrite Hdur, Hcheck; fold ideal; fold total;
    match goal with
    | |- context [primeSampling ?e ?X] =>
        destruct (primeSampling_run e X) as (s1 & E1 & Ht1 & _ & _ & _);
          [exact Hprime | rewrite E1]
    end;
    cbn [trace with_trace with_objectUrl with_samplingVideo with_ffmpegRef] in Ht1;
    destruct (haveCurrentData env), (lt total ideal) eqn:Elt, (exportContext env);
    do 3 eexists; (split; [reflexivity |]);
    cbn [totalFrames trace with_trace with_totalFrames with_samplingVideo];
    rewrite Ht1, <- ?app_assoc;
    (split; [reflexivity |]); (split; [reflexivity |]);
    (split; [intros; first [reflexivity | discriminate]
            | intros; first [discriminate | eauto]]).
Qed.

Ltac settled_leaf :=
  page_simpl;
  match goal with
  | H : settled _ _ _ |- settled _ _ _ =>
      destruct H as [? ?]; split; page_simpl;
      [assumption | try apply prefix_app_r; assumption]
  end.

Lemma captureFrame_settled (env : Environment) (format : ExportFormat) (duration step : number)
    (total : number) (t : list Effect) (i : nat) :
  keeps (settled total t) (captureFrame env format duration step i).
Proof. unfold_handler. repeat keeps_step; settled_leaf. Qed.

Lemma exportEncode_settled (env : Environment) (format : ExportFormat)
    (total : number) (t : list Effect) :
  keeps (settled total t) (exportEncode env format).
Proof. unfold_handler. repeat keeps_step; settled_leaf. Qed.

Lemma exportCatch_settled (format : ExportFormat) (e : thrown) (total : number)
    (t : list Effect) :
  keeps (settled total t) (exportCatch format e).
Proof. unfold_handler. repeat keeps_step; settled_leaf. Qed.

Lemma exportFinally_settled (total : number) (t : list Effect) (s s' : Page) :
  exportFinally s = (Normal tt, s') -> settled total t s -> settled total t s'.
Proof.
  intros E [Hn Ht]. destruct (exportFinally_spec s) as (s'' & E' & Hn' & _ & H).
  rewrite E in E'. injection E' as <-. split; [congruence |].
  destruct H as [[_ (Htr & _)] | (_ & Htr & _)]; rewrite Htr;
    [apply prefix_app_r |]; exact Ht.
Qed.

(** The first turn of the sampling loop starts with the seek of frame 0. *)
Lemma first_frame_sought (env : Environment) (format : ExportFormat) (duration step : number)
    (total : number) (t : list Effect) :
  let target := clampTime duration (if eqb step #0 then #0 else ofnat 0 * step) in
  triple (fun s => totalFrames s = total /\ trace s = t)
    (captureFrame env format duration step 0)
    (fun _ => settled total (t ++ [SeekTo 0 target]))
    (settled total (t ++ [SeekTo 0 target])).
Proof.
  intros target. unfold captureFrame. fold target.
  apply triple_bind with (Qm := fun _ => settled total (t ++ [SeekTo 0 target])).
  { unfold emit. apply triple_modify. intros s [Hn Ht]. split; page_simpl; [exact Hn |].
    rewrite Ht. reflexivity. }
  intros _. refine (_ : keeps (settled total (t ++ [SeekTo 0 target])) _).
  unfold_handler. repeat keeps_step; settled_leaf.
Qed.

Lemma tryCatch_bind_normal {A B : Type} (m : M A) (k : A -> M B) (h : thrown -> M B)
    (s s' : Page) (a : A) :
  m s = (Normal a, s') -> tryCatch (m ≫= k) h s = tryCatch (k a) h s'.
Proof. intros E. unfold tryCatch, mbind, M_bind. rewrite E. reflexivity. Qed.

Lemma tryCatch_bind_throw {A B : Type} (m : M A) (k : A -> M B) (h : thrown -> M B)
    (s s' : Page) (e : thrown) :
  m s = (Throw e, s') -> tryCatch (m ≫= k) h s = h e s'.
Proof. intros E. unfold tryCatch, mbind, M_bind. rewrite E. reflexivity. Qed.

(** C2. For a source whose duration is a positive number d, on either
    tier, the total frame count of the export is
    min(ceil(d * fps), maxFrames): an integer between 1 and the cap of the
    tier, 300 on the free tier and 600 on the premium tier, however long the
    source is.  When the ideal count exceeds the cap the handler publishes
    the truncation notice, as a sampling status, and goes on: unless the
    export canvas has no drawing context, the next thing it does is seek
    frame 0. *)
Theorem frame_count_capped (env : Environment) (format : ExportFormat)
    (cached : option FFmpeg) (d : Qc) :
  selectedFile env = true ->
  is_Some cached \/ loadFault env = None ->
  metadataLoads env = true ->
  duration (source env) = Num d ->
  (0 < d)%Qc ->
  (forall k, seekFault (source env) k #0 = None) ->
  let p := runExport env format cached in
  let ideal := ceil (Num d * fps (tierConfigOf (entitlement env))) in
  let cap := maxFramesOf (entitlement env) in
  totalFrames p = min ideal cap
  /\ le (totalFrames p) cap = true
  /\ le #1 (totalFrames p) = true
  /\ cap = (if isFreeTier (entitlement env) then #300 else #600)
  /\ (lt cap ideal = true ->
      let notice := truncationNotice format (totalFrames p) in
      status notice = sampling
      /\ SetExportState notice ∈ trace p
      /\ (exportContext env = true ->
          exists before after target,
            trace p = before ++ [SetExportState notice; SeekTo 0 target] ++ after)).
Proof.
  intros Hsel Henc Hmeta Hdur Hd Hprime p ideal cap. subst p. unfold runExport.
  destruct (handleExport_phases env format cached Hsel) as (s2 & s3 & E2 & E3 & ->).
  cbn [snd].
  destruct (totalFrames_range d (entitlement env) Hd) as (z & n & Hz & Hn & Hnz & Hrange).
  fold ideal in Hz, Hn. fold cap in Hn.
  destruct (exportPrepare_run env format d (startPage env cached) Henc Hmeta Hdur Hd Hprime)
    as (r & s1 & t & E1 & Htotal & Ht & Hnotice & Hctx).
  fold ideal in Htotal, Hnotice. fold cap in Htotal, Hnotice.
  set (T := trace (startPage env cached) ++ t) in *.
  (* what is settled once the guarded part has run *)
  assert (Hs2 : settled (min ideal cap) T s2
                /\ (exportContext env = true ->
                    exists target, settled (min ideal cap) (T ++ [SeekTo 0 target]) s2)).
  { unfold exportBody in E2. destruct r as [[duration step] | e].
    - rewrite (tryCatch_bind_normal _ _ _ _ _ _ E1) in E2.
      cbn beta iota in E2.
      rewrite (tryCatch_bind_normal get _ _ s1 s1 s1 eq_refl) in E2.
      rewrite Htotal, Hn, iterations_ofZ in E2.
      destruct (Z.to_nat n) as [| k] eqn:Ek; [lia |].
      cbn [forRange] in E2.
      set (target := clampTime duration (if eqb step #0 then #0 else ofnat 0 * step)).
      assert (H : triple (fun s => totalFrames s = min ideal cap /\ trace s = T)
                    (tryCatch
                       ((captureFrame env format duration step 0;;
                         forRange (captureFrame env format duration step) 1 k);;
                        exportEncode env format)
                       (exportCatch format))
                    (fun _ => settled (min ideal cap) (T ++ [SeekTo 0 target]))
                    (settled (min ideal cap) (T ++ [SeekTo 0 target]))).
      { apply triple_tryCatch with (Qe' := settled (min ideal cap) (T ++ [SeekTo 0 target]));
          [| intros e; apply exportCatch_settled].
        apply triple_bind with (Qm := fun _ => settled (min ideal cap) (T ++ [SeekTo 0 target]));
          [| intros _; apply exportEncode_settled].
        apply triple_bind with (Qm := fun _ => settled (min ideal cap) (T ++ [SeekTo 0 target]));
          [apply first_frame_sought |].
        intros _. apply keeps_forRange. intros i. apply captureFrame_settled. }
      specialize (H s1 (conj Htotal Ht)). rewrite E2 in H.
      split; [| intros _; exists target; exact H].
      destruct H as [H1 H2]. split; [exact H1 |].
      apply prefix_app_l in H2. exact H2.
    - rewrite (tryCatch_bind_throw _ _ _ _ _ _ E1) in E2.
      pose proof (exportCatch_settled format e (min ideal cap) T s1) as H.
      rewrite E2 in H. split; [apply H; split; [exact Htotal | rewrite Ht; reflexivity] |].
      intros Hc. destruct (Hctx Hc) as [step Hstep]. discriminate. }
  destruct Hs2 as [Hs2 Hseek].
  pose proof (exportFinally_settled _ _ _ _ E3 Hs2) as [Hn3 Ht3].
  rewrite Hn3, Hn. unfold cap at 1 2. rewrite maxFramesOf_ofZ.
  split; [reflexivity |]. split; [rewrite le_ofZ; apply Z.leb_le; lia |].
  split; [change #1 with (ofZ 1); rewrite le_ofZ; apply Z.leb_le; lia |].
  split; [destruct (isFreeTier (entitlement env)); reflexivity |].
  intros Hlt. cbv zeta. split; [reflexivity |].
  assert (Htrunc : lt (min ideal cap) ideal = true).
  { rewrite Hn, Hz, lt_ofZ. unfold cap in Hlt. rewrite maxFramesOf_ofZ, Hz, lt_ofZ in Hlt.
    apply Z.ltb_lt in Hlt. apply Z.ltb_lt. lia. }
  rewrite Hn in Hnotice, Htrunc. specialize (Hnotice Htrunc).
  apply last_Some in Hnotice as [t' Hnotice].
  split.
  - destruct Ht3 as [rest Hrest]. rewrite Hrest. subst T. rewrite Hnotice.
    rewrite !elem_of_app, list_elem_of_singleton. auto.
  - intros Hc. destruct (Hseek Hc) as [target Hsettled].
    destruct (exportFinally_settled _ _ _ _ E3 Hsettled) as [_ [rest Hrest]].
    exists (trace (startPage env cached) ++ t'), rest, target.
    rewrite Hrest. subst T. rewrite Hnotice, <- !app_assoc. reflexivity.
Qed.

(** ** A job that captures nothing *)

Lemma writes_snoc (t : list Effect) (e : Effect) :
  writes (t ++ [e]) = writes t ++ match e with WriteFile n => [n] | _ => [] end.
Proof. unfold writes. rewrite omap_app. destruct e; reflexivity. Qed.

Lemma writes_app (t1 t2 : list Effect) : writes (t1 ++ t2) = writes t1 ++ writes t2.
Proof. unfold writes. apply omap_app. Qed.

Lemma writes_DeleteFile (names : list string) : writes (DeleteFile <$> names) = [].
Proof. induction names as [| n names IH]; [reflexivity | exact IH]. Qed.

Ltac written_leaf :=
  unfold nothing_written, encoding_on_nothing in *; page_simpl;
  rewrite ?writes_snoc, ?statuses_snoc, ?app_nil_r;
  repeat match goal with H : _ /\ _ |- _ => destruct H end;
  repeat split; try assumption; try (apply elem_of_app; left; assumption).

Lemma exportPrepare_writes_nothing (env : Environment) (format : ExportFormat) :
  keeps nothing_written (exportPrepare env format).
Proof. unfold_handler. repeat keeps_step; written_leaf. Qed.

(** Without a drawing context on the scratch canvas a turn of the sampling
    loop seeks, writes nothing and does not throw. *)
Lemma captureFrame_skips (env : Environment) (format : ExportFormat) (duration step : number)
    (n : number) (i : nat) :
  bufferContext env = false ->
  triple (fun s => nothing_written s /\ totalFrames s = n)
    (captureFrame env format duration step i)
    (fun _ s => nothing_written s /\ totalFrames s = n) (fun _ => False).
Proof.
  intros Hbuf s [Hw Hn]. unfold captureFrame, asciiFromVideo. rewrite Hbuf.
  cbn [context2d negb]. unfold emit, modify, get, mbind, M_bind, mret, M_ret.
  cbn [samplingVideo with_trace].
  destruct (awaitSeek _ _ _) as [video [[] | e]];
    (split; [unfold nothing_written; cbn [trace with_trace with_samplingVideo];
             rewrite writes_snoc, app_nil_r; exact Hw
            | exact Hn]).
Qed.

Lemma eqb_ofZ_zero (n : Z) : (1 <= n)%Z -> eqb (ofZ n) #0 = false.
Proof.
  intros Hn. change #0 with (ofZ 0). unfold ofZ. cbn [eqb]. apply Qc_eqb_neq. intros E.
  assert (E' : ofZ n = ofZ 0) by (unfold ofZ; f_equal; exact E).
  apply ofZ_inj in E'. lia.
Qed.

(** With a frame count of at least 1 the check before the encoding never
    fires, whatever the number of frames written: the encoding status is
    published. *)
Lemma exportEncode_on_nothing (env : Environment) (format : ExportFormat) (n : Z) :
  (1 <= n)%Z ->
  triple (fun s => nothing_written s /\ totalFrames s = ofZ n) (exportEncode env format)
    (fun _ => encoding_on_nothing) encoding_on_nothing.
Proof.
  intros Hn. unfold exportEncode.
  apply triple_bind with (Qm := fun _ s => nothing_written s /\ totalFrames s = ofZ n).
  { unfold pauseSampling. apply triple_modify. intros s Hs. exact Hs. }
  intros _. apply triple_bind with (Qm := fun s' s => s' = s /\ nothing_written s
                                                      /\ totalFrames s = ofZ n).
  { apply triple_get. intros s [H1 H2]. auto. }
  intros s0. apply triple_bind with (Qm := fun _ => nothing_written).
  { intros s (-> & Hw & Ht). rewrite Ht, (eqb_ofZ_zero n Hn). exact Hw. }
  intros _. apply triple_bind with (Qm := fun _ => nothing_written).
  { apply triple_modify. intros s Hs. exact Hs. }
  intros _. apply triple_bind with (Qm := fun _ => encoding_on_nothing).
  { unfold setExportState, emit. apply triple_modify. intros s Hs.
    unfold encoding_on_nothing. cbn [trace with_trace].
    rewrite statuses_snoc, writes_snoc, app_nil_r. split; [| exact Hs].
    apply elem_of_app. right. apply list_elem_of_singleton. reflexivity. }
  intros _. refine (_ : keeps encoding_on_nothing _).
  unfold_handler. repeat keeps_step; written_leaf.
Qed.

Lemma exportCatch_on_nothing (format : ExportFormat) (e : thrown) :
  keeps encoding_on_nothing (exportCatch format e).
Proof. unfold_handler. repeat keeps_step; written_leaf. Qed.

(** The defect behind C3, for every environment: once the frame count is
    computed, a run whose scratch canvas yields no drawing context skips
    every sampling instant, writes no frame, and still publishes the
    encoding status. *)
Lemma skipped_run_reaches_encoding (env : Environment) (format : ExportFormat)
    (cached : option FFmpeg) (d : Qc) :
  selectedFile env = true ->
  is_Some cached \/ loadFault env = None ->
  metadataLoads env = true ->
  duration (source env) = Num d ->
  (0 < d)%Qc ->
  (forall k, seekFault (source env) k #0 = None) ->
  exportContext env = true ->
  bufferContext env = false ->
  writes (trace (runExport env format cached)) = []
  /\ encoding ∈ statuses (trace (runExport env format cached)).
Proof.
  intros Hsel Henc Hmeta Hdur Hd Hprime Hctx Hbuf. unfold runExport.
  destruct (handleExport_phases env format cached Hsel) as (s2 & s3 & E2 & E3 & ->).
  cbn [snd].
  destruct (totalFrames_range d (entitlement env) Hd) as (z & n & Hz & Hn & Hnz & Hrange).
  destruct (exportPrepare_run env format d (startPage env cached) Henc Hmeta Hdur Hd Hprime)
    as (r & s1 & t & E1 & Htotal & Ht & _ & Hr).
  destruct (Hr Hctx) as [step ->].
  pose proof (exportPrepare_writes_nothing env format (startPage env cached) eq_refl) as Hw1.
  rewrite E1 in Hw1.
  assert (H2 : encoding_on_nothing s2).
  { unfold exportBody in E2. rewrite (tryCatch_bind_normal _ _ _ _ _ _ E1) in E2.
    cbn beta iota in E2. rewrite (tryCatch_bind_normal get _ _ s1 s1 s1 eq_refl) in E2.
    assert (H : triple (fun s => nothing_written s /\ totalFrames s = ofZ n)
                  (tryCatch
                     (forRange (captureFrame env format (Num d) step) 0
                        (iterations (totalFrames s1));;
                      exportEncode env format)
                     (exportCatch format))
                  (fun _ => encoding_on_nothing) encoding_on_nothing).
    { apply triple_tryCatch with (Qe' := encoding_on_nothing);
        [| intros e; apply exportCatch_on_nothing].
      apply triple_bind with (Qm := fun _ s => nothing_written s /\ totalFrames s = ofZ n);
        [| intros _; apply exportEncode_on_nothing; lia].
      apply (triple_weaken _ _ _ _ _ _ _
               (triple_forRange _ (fun _ => False) _ 0 _
                  (fun i => captureFrame_skips env format (Num d) step (ofZ n) i Hbuf)));
        [auto | auto | intros s []]. }
    specialize (H s1 (conj Hw1 (eq_trans Htotal Hn))). rewrite E2 in H. exact H. }
  destruct H2 as [Henc2 Hw2].
  destruct (exportFinally_spec s2) as (s3' & E3' & _ & _ & H).
  rewrite E3 in E3'. injection E3' as <-.
  destruct H as [[_ (Htr & _)] | (_ & Htr & _)]; rewrite Htr.
  - unfold statuses. rewrite writes_app, writes_DeleteFile, exportStates_app,
      exportStates_DeleteFile, !app_nil_r. split; assumption.
  - split; assumption.
Qed.

(** C3, on the code.  With a scratch canvas that never yields a drawing
    context, or with an element that rejects every seek of the loop, every
    one of the 20 sampling instants of a 2 s clip is skipped and nothing is
    written to the encoder.  The handler does not fail with "No frames
    captured for export": it publishes the encoding status, runs the encoder
    on no input, publishes delivering, and ends in the error of the failed
    read of the output file, which the encoder rejects with a string: the
    message shown is the general "Export failed". *)
Theorem skipped_instants_reach_encoding :
  let failure (env : Environment) :=
    let p := runExport env mp4 None in
    seeks (trace p) = seq 0 20
    /\ writes (trace p) = []
    /\ statuses (trace p) = [initializing; sampling; encoding; delivering; error]
    /\ Exec ["-framerate"; "10"; "-i"; "frame_%04d.png"; "-c:v"; "libx264";
             "-pix_fmt"; "yuv420p"; "ascii-output.mp4"] ∈ trace p
    /\ (message <$> last (exportStates (trace p))) = Some (Some "Export failed") in
  failure skippingEnvironment /\ failure rejectingEnvironment.
Proof.
  cbv zeta. repeat split; try (vm_compute; reflexivity);
    apply list_elem_of_In; vm_compute; tauto.
Qed.

Lemma frame_count_capped_witness :
  let p := runExport failingEncoderEnvironment gif None in
  let ideal := ceil (#120 * fps (tierConfigOf free)) in
  let cap := maxFramesOf free in
  totalFrames p = min ideal cap
  /\ le (totalFrames p) cap = true
  /\ le #1 (totalFrames p) = true
  /\ cap = #300
  /\ (lt cap ideal = true ->
      let notice := truncationNotice gif (totalFrames p) in
      status notice = sampling
      /\ SetExportState notice ∈ trace p
      /\ (exportContext failingEncoderEnvironment = true ->
          exists before after target,
            trace p = before ++ [SetExportState notice; SeekTo 0 target] ++ after)).
Proof.
  apply (frame_count_capped failingEncoderEnvironment gif None (Q2Qc 120));
    [reflexivity | right; reflexivity | reflexivity | reflexivity | reflexivity
    | intros k; reflexivity].
Defined.

(** * Further properties of the code *)

(** ** Colours *)

Lemma Qfloor_inject (n : Z) : Qfloor (Q2Qc (inject_Z n)) = n.
Proof.
  assert (E : (Q2Qc (inject_Z n) == inject_Z n)%Q) by apply this_Q2Qc.
  rewrite E. apply Qfloor_Z.
Qed.

Lemma toInt32_small (z : Z) : (0 <= z < 2147483648)%Z -> toInt32 (ofZ z) = z.
Proof.
  intros H. unfold toInt32, ofZ.
  change (2 ^ 31)%Z with 2147483648%Z. change (2 ^ 32)%Z with 4294967296%Z.
  assert (E : Qc_ltb (Q2Qc (inject_Z z)) 0 = false).
  { apply Qc_ltb_ge. unfold Qcle. rewrite (this_Q2Qc (inject_Z z)).
    change (inject_Z 0 <= inject_Z z)%Q. rewrite <- Zle_Qle. lia. }
  rewrite E, Qfloor_inject. rewrite Z.mod_small; lia.
Qed.

Lemma hex_digit_range (c : ascii) (v : Z) : hex_digit c = Some v -> (0 <= v <= 15)%Z.
Proof.
  unfold hex_digit. intros H.
  repeat match type of H with
         | (if ?c then _ else _) = _ => destruct c eqn:?
         end; inversion H; subst; lia.
Qed.

(** A hexadecimal digit is neither white space, nor a sign, nor the [x] of
    a [0x] prefix. *)
Lemma parseInt16_digits (c1 c2 : ascii) (rest : string) (v1 v2 : Z) :
  hex_digit c1 = Some v1 -> hex_digit c2 = Some v2 ->
  parseInt16 (String c1 (String c2 rest))
  = match hex_prefix (String c1 (String c2 rest)) None with
    | Some z => ofZ z
    | None => NaN
    end.
Proof.
  intros H1 H2.
  destruct c1 as [[] [] [] [] [] [] [] []]; try discriminate H1; try reflexivity;
    destruct c2 as [[] [] [] [] [] [] [] []]; try discriminate H2; reflexivity.
Qed.

Lemma hexToRgb_six (c1 c2 c3 c4 c5 c6 : ascii) (v1 v2 v3 v4 v5 v6 : Z) :
  hex_digit c1 = Some v1 -> hex_digit c2 = Some v2 -> hex_digit c3 = Some v3 ->
  hex_digit c4 = Some v4 -> hex_digit c5 = Some v5 -> hex_digit c6 = Some v6 ->
  hexToRgb (String "#" (String c1 (String c2 (String c3 (String c4 (String c5 (String c6 "")))))))
  = {| r := ofZ (16 * v1 + v2); g := ofZ (16 * v3 + v4); b := ofZ (16 * v5 + v6) |}.
Proof.
  intros H1 H2 H3 H4 H5 H6.
  pose proof (hex_digit_range _ _ H1). pose proof (hex_digit_range _ _ H2).
  pose proof (hex_digit_range _ _ H3). pose proof (hex_digit_range _ _ H4).
  pose proof (hex_digit_range _ _ H5). pose proof (hex_digit_range _ _ H6).
  unfold hexToRgb. cbn [replace_first_hash Ascii.eqb Bool.eqb String.length Nat.eqb].
  rewrite (parseInt16_digits _ _ _ _ _ H1 H2).
  cbn [hex_prefix]. rewrite H1, H2, H3, H4, H5, H6.
  set (z := (16 * (16 * (16 * (16 * (16 * v1 + v2) + v3) + v4) + v5) + v6)%Z).
  rewrite toInt32_small by (subst z; lia).
  change 255%Z with (Z.ones 8). rewrite !Z.land_ones, !Z.shiftr_div_pow2 by lia.
  change (2 ^ 16)%Z with 65536%Z. change (2 ^ 8)%Z with 256%Z.
  assert (E : z = (65536 * (16 * v1 + v2) + (256 * (16 * v3 + v4) + (16 * v5 + v6)))%Z)
    by (subst z; lia).
  f_equal; f_equal; rewrite E; clear E z.
  - rewrite Z.mul_comm, Z.div_add_l by lia.
    rewrite (Z.div_small (256 * _ + _)) by lia. rewrite Z.add_0_r. apply Z.mod_small. lia.
  - replace (65536 * (16 * v1 + v2) + (256 * (16 * v3 + v4) + (16 * v5 + v6)))%Z
      with ((256 * (16 * v1 + v2) + (16 * v3 + v4)) * 256 + (16 * v5 + v6))%Z by lia.
    rewrite Z.div_add_l by lia. rewrite (Z.div_small (16 * v5 + v6)) by lia.
    rewrite Z.add_0_r.
    replace (256 * (16 * v1 + v2) + (16 * v3 + v4))%Z
      with ((16 * v3 + v4) + (16 * v1 + v2) * 256)%Z by lia.
    rewrite Z.mod_add by lia. apply Z.mod_small. lia.
  - replace (65536 * (16 * v1 + v2) + (256 * (16 * v3 + v4) + (16 * v5 + v6)))%Z
      with ((16 * v5 + v6) + (256 * (16 * v1 + v2) + (16 * v3 + v4)) * 256)%Z by lia.
    rewrite Z.mod_add by lia. apply Z.mod_small. lia.
Qed.

Lemma land_255_range (x : Z) : (0 <= Z.land x 255 <= 255)%Z.
Proof.
  change (Z.land x 255) with (Z.land x (Z.ones 8)). rewrite Z.land_ones by lia.
  change (2 ^ 8)%Z with 256%Z. pose proof (Z.mod_pos_bound x 256). lia.
Qed.

Lemma hexToRgb_channels (hex : string) :
  is_channel (r (hexToRgb hex)) /\ is_channel (g (hexToRgb hex)) /\ is_channel (b (hexToRgb hex)).
Proof.
  unfold hexToRgb, is_channel. cbn [r g b].
  repeat split; eexists; (split; [reflexivity | apply land_255_range]).
Qed.

(** Canonical rationals as rationals. *)
Lemma this_add (x y : Qc) : (this (x + y)%Qc == this x + this y)%Q.
Proof. apply Qred_correct. Qed.

Lemma this_mul (x y : Qc) : (this (x * y)%Qc == this x * this y)%Q.
Proof. apply Qred_correct. Qed.

Lemma this_opp (x : Qc) : (this (- x)%Qc == - this x)%Q.
Proof. apply Qred_correct. Qed.

Ltac qc_to_q :=
  unfold Qcle, Qclt in *;
  repeat first [ rewrite this_add in * | rewrite this_mul in * | rewrite this_opp in *
                 | rewrite this_Q2Qc in * ].

Lemma Qfloor_between (x : Q) (lo hi : Z) :
  (inject_Z lo <= x)%Q -> (x < inject_Z (hi + 1))%Q -> (lo <= Qfloor x <= hi)%Z.
Proof.
  intros Hlo Hhi. split.
  - rewrite <- (Qfloor_Z lo). apply Qfloor_resp_le. exact Hlo.
  - assert (H : (inject_Z (Qfloor x) < inject_Z (hi + 1))%Q).
    { apply Qle_lt_trans with x; [apply Qfloor_le | exact Hhi]. }
    rewrite <- Zlt_Qlt in H. lia.
Qed.

Lemma round_ofZ (z : Z) : round (ofZ z) = ofZ z.
Proof.
  unfold round, ofZ at 1. f_equal.
  assert (H : (z <= Qfloor (Q2Qc (inject_Z z) + Q2Qc (Qmake 1 2))%Q <= z)%Z).
  { apply Qfloor_between; qc_to_q; rewrite ?inject_Z_plus; simpl;
    change (inject_Z 1) with 1%Q; generalize (inject_Z z); intros; lra. }
  lia.
Qed.

(** One channel of [mixColor]. *)
Lemma mix_channel_between (a c : Z) (t : Qc) :
  (0 <= t)%Qc -> (t <= 1)%Qc ->
  exists z : Z, round (ofZ a * (#1 - Num t) + ofZ c * Num t) = ofZ z
                /\ (Z.min a c <= z <= Z.max a c)%Z.
Proof.
  intros H0 H1. unfold ofZ at 1 2, ofQ, sub. cbn [mul add neg round].
  eexists. split; [reflexivity |].
  assert (Ha : (inject_Z (Z.min a c) <= inject_Z a)%Q) by (rewrite <- Zle_Qle; lia).
  assert (Hc : (inject_Z (Z.min a c) <= inject_Z c)%Q) by (rewrite <- Zle_Qle; lia).
  assert (Ha' : (inject_Z a <= inject_Z (Z.max a c))%Q) by (rewrite <- Zle_Qle; lia).
  assert (Hc' : (inject_Z c <= inject_Z (Z.max a c))%Q) by (rewrite <- Zle_Qle; lia).
  apply Qfloor_between; qc_to_q; rewrite ?inject_Z_plus; change (inject_Z 1) with 1%Q;
    change (this 0%Qc) with 0%Q in *; change (this 1%Qc) with 1%Q in *;
    set (T := this t) in *; set (A := inject_Z a) in *; set (C := inject_Z c) in *;
    set (lo := inject_Z (Z.min a c)) in *; set (hi := inject_Z (Z.max a c)) in *; nra.
Qed.

Lemma mixColor_between_channels (a1 a2 a3 c1 c2 c3 : Z) (t : Qc) :
  (0 <= t)%Qc -> (t <= 1)%Qc ->
  exists r' g' b' : Z,
    mixColor {| r := ofZ a1; g := ofZ a2; b := ofZ a3 |}
             {| r := ofZ c1; g := ofZ c2; b := ofZ c3 |} (Num t)
    = {| r := ofZ r'; g := ofZ g'; b := ofZ b' |}
    /\ (Z.min a1 c1 <= r' <= Z.max a1 c1)%Z
    /\ (Z.min a2 c2 <= g' <= Z.max a2 c2)%Z
    /\ (Z.min a3 c3 <= b' <= Z.max a3 c3)%Z.
Proof.
  intros H0 H1. unfold mixColor. cbn [r g b].
  destruct (mix_channel_between a1 c1 t H0 H1) as (r' & -> & Hr).
  destruct (mix_channel_between a2 c2 t H0 H1) as (g' & -> & Hg).
  destruct (mix_channel_between a3 c3 t H0 H1) as (b' & -> & Hb).
  exists r', g', b'. auto.
Qed.

(** X1. [hexToRgb] decodes the six-digit form: the channels of
    [#rrggbb] are the values of the three pairs of hexadecimal digits, in
    either case of the letters. *)
Theorem hexToRgb_six_digits (c1 c2 c3 c4 c5 c6 : ascii) (v1 v2 v3 v4 v5 v6 : Z) :
  hex_digit c1 = Some v1 -> hex_digit c2 = Some v2 -> hex_digit c3 = Some v3 ->
  hex_digit c4 = Some v4 -> hex_digit c5 = Some v5 -> hex_digit c6 = Some v6 ->
  hexToRgb (String "#" (String c1 (String c2 (String c3 (String c4 (String c5 (String c6 "")))))))
  = {| r := ofZ (16 * v1 + v2); g := ofZ (16 * v3 + v4); b := ofZ (16 * v5 + v6) |}
  /\ (0 <= 16 * v1 + v2 <= 255)%Z /\ (0 <= 16 * v3 + v4 <= 255)%Z /\ (0 <= 16 * v5 + v6 <= 255)%Z.
Proof.
  intros H1 H2 H3 H4 H5 H6. split; [apply hexToRgb_six; assumption |].
  pose proof (hex_digit_range _ _ H1). pose proof (hex_digit_range _ _ H2).
  pose proof (hex_digit_range _ _ H3). pose proof (hex_digit_range _ _ H4).
  pose proof (hex_digit_range _ _ H5). pose proof (hex_digit_range _ _ H6). lia.
Qed.

Lemma hexToRgb_six_digits_witness :
  hexToRgb "#33fF66" = {| r := ofZ (16 * 3 + 3); g := ofZ (16 * 15 + 15); b := ofZ (16 * 6 + 6) |}
  /\ (0 <= 16 * 3 + 3 <= 255)%Z /\ (0 <= 16 * 15 + 15 <= 255)%Z /\ (0 <= 16 * 6 + 6 <= 255)%Z.
Proof.
  apply (hexToRgb_six_digits "3" "3" "f" "F" "6" "6"); reflexivity.
Defined.

(** X2. [hexToRgb] expands the three-digit shorthand: [#abc] gives the
    channels of [#aabbcc], that is 17 times the value of each digit. *)
Theorem hexToRgb_three_digits (c1 c2 c3 : ascii) (v1 v2 v3 : Z) :
  hex_digit c1 = Some v1 -> hex_digit c2 = Some v2 -> hex_digit c3 = Some v3 ->
  hexToRgb (String "#" (String c1 (String c2 (String c3 ""))))
  = hexToRgb (String "#" (String c1 (String c1 (String c2 (String c2 (String c3 (String c3 "")))))))
  /\ hexToRgb (String "#" (String c1 (String c2 (String c3 ""))))
     = {| r := ofZ (17 * v1); g := ofZ (17 * v2); b := ofZ (17 * v3) |}.
Proof.
  intros H1 H2 H3.
  assert (E : hexToRgb (String "#" (String c1 (String c2 (String c3 ""))))
              = hexToRgb (String "#" (String c1 (String c1 (String c2 (String c2
                                      (String c3 (String c3 "")))))))).
  { unfold hexToRgb. cbn [replace_first_hash Ascii.eqb Bool.eqb String.length Nat.eqb double_chars].
    assert (N : forall c v, hex_digit c = Some v ->
                            Ascii.eqb c "010" || Ascii.eqb c "013" = false).
    { intros c v H. destruct c as [[] [] [] [] [] [] [] []]; try discriminate H; reflexivity. }
    rewrite (N _ _ H1), (N _ _ H2), (N _ _ H3). reflexivity. }
  split; [exact E |]. rewrite E, (hexToRgb_six _ _ _ _ _ _ _ _ _ _ _ _ H1 H1 H2 H2 H3 H3).
  f_equal; f_equal; lia.
Qed.

Lemma hexToRgb_three_digits_witness :
  hexToRgb "#0af" = hexToRgb "#00aaff"
  /\ hexToRgb "#0af" = {| r := ofZ (17 * 0); g := ofZ (17 * 10); b := ofZ (17 * 15) |}.
Proof.
  apply (hexToRgb_three_digits "0" "a" "f"); reflexivity.
Defined.

(** X3. [mixColor] interpolates: for two colours with integer channels and
    a ratio between 0 and 1, every channel of the blend is an integer that
    lies between the two channels it blends; ratio 0 gives the first colour
    and ratio 1 the second. *)
Theorem mixColor_between (a1 a2 a3 c1 c2 c3 : Z) (t : Qc) :
  (0 <= t)%Qc -> (t <= 1)%Qc ->
  let a := {| r := ofZ a1; g := ofZ a2; b := ofZ a3 |} in
  let c := {| r := ofZ c1; g := ofZ c2; b := ofZ c3 |} in
  (exists r' g' b' : Z,
     mixColor a c (Num t) = {| r := ofZ r'; g := ofZ g'; b := ofZ b' |}
     /\ (Z.min a1 c1 <= r' <= Z.max a1 c1)%Z
     /\ (Z.min a2 c2 <= g' <= Z.max a2 c2)%Z
     /\ (Z.min a3 c3 <= b' <= Z.max a3 c3)%Z)
  /\ mixColor a c #0 = a
  /\ mixColor a c #1 = c.
Proof.
  intros H0 H1 a c. split; [apply mixColor_between_channels; assumption |].
  subst a c. unfold mixColor, ofZ, ofQ, sub. cbn [r g b mul add neg].
  split; f_equal;
    match goal with
    | |- round (Num ?q) = Num ?x => replace q with x by (change (Q2Qc 1) with 1%Qc; change (Q2Qc 0) with 0%Qc; ring)
    end; apply round_ofZ.
Qed.

Lemma mixColor_between_witness :
  let a := {| r := ofZ 0; g := ofZ 177; b := ofZ 64 |} in
  let c := {| r := ofZ 51; g := ofZ 255; b := ofZ 102 |} in
  (exists r' g' b' : Z,
     mixColor a c #0.25 = {| r := ofZ r'; g := ofZ g'; b := ofZ b' |}
     /\ (Z.min 0 51 <= r' <= Z.max 0 51)%Z
     /\ (Z.min 177 255 <= g' <= Z.max 177 255)%Z
     /\ (Z.min 64 102 <= b' <= Z.max 64 102)%Z)
  /\ mixColor a c #0 = a
  /\ mixColor a c #1 = c.
Proof.
  apply (mixColor_between 0 177 64 51 255 102 (Q2Qc 0.25)); vm_compute; congruence.
Defined.

(** ** The cells of a rasterized frame *)

Lemma as_integer_ofZ (z : Z) : as_integer (ofZ z) = Some z.
Proof.
  unfold as_integer, ofZ. rewrite Qfloor_inject.
  replace (Qc_eqb _ _) with true; [reflexivity |]. symmetry. apply Qc_eqb_eq. reflexivity.
Qed.

Lemma as_dim_ofZ (z : Z) :
  (0 <= z <= MAX_LONG)%Z -> as_dim (ofZ z) = Some (Z.to_nat z).
Proof.
  intros H. unfold as_dim. rewrite as_integer_ofZ.
  destruct (Z.leb_spec 0 z); [| lia]. destruct (Z.leb_spec z MAX_LONG); [reflexivity | lia].
Qed.

Lemma toString_ofZ (z : Z) : toString (ofZ z) = string_of_Z z.
Proof.
  unfold toString. rewrite as_integer_ofZ. reflexivity.
Qed.

(** A finite maximum with an integer is not below it. *)
Lemma max_ofZ_lower (k : Z) (a : number) (n : nat) :
  max (ofZ k) a = ofnat n -> (k <= Z.of_nat n)%Z.
Proof.
  unfold ofnat. destruct a as [x | | |]; try discriminate.
  - unfold ofZ at 1. rewrite max_Num. intros H.
    destruct (Qc_ltb (Q2Qc (inject_Z k)) x) eqn:E.
    + apply Qc_ltb_lt in E. injection H as ->.
      unfold Qclt in E. rewrite !this_Q2Qc in E. rewrite <- Zlt_Qlt in E. lia.
    + apply ofZ_inj in H. lia.
  - cbn. intros H. apply ofZ_inj in H. lia.
Qed.

(** What [asciiFromVideo] returns when it returns a frame. *)
Lemma asciiFromVideo_Some (video : HTMLVideoElement) (canvas : HTMLCanvasElement)
    (charset : jsstring) (scheme : Scheme) (size contrast : number) (frame : AsciiFrame) :
  asciiFromVideo video canvas charset scheme size contrast = Normal (Some frame) ->
  exists w h : nat,
    width frame = ofnat w /\ height frame = ofnat h /\ (16 <= w)%nat /\ (12 <= h)%nat
    /\ rows frame
       = map (fun y => map (cellAt (fitted (4 * w * h) (picture video (currentTime video) w h))
                              charset
                              (hexToRgb (accent scheme)) (hexToRgb (foreground scheme))
                              (clampedContrast contrast) w y) (seq 0 w))
             (seq 0 h).
Proof.
  rewrite asciiFromVideo_eq. cbv zeta.
  remember (computeGrid video size) as grid eqn:Eg.
  destruct (negb (context2d canvas)); [discriminate |].
  destruct (as_dim (grid_width grid)) as [w |] eqn:Ew; [| discriminate].
  destruct (as_dim (grid_height grid)) as [h |] eqn:Eh; [| discriminate].
  destruct (imageDataFault canvas w h); [discriminate |].
  intros H. injection H as <-. exists w, h.
  apply as_dim_Some in Ew, Eh.
  split; [exact Ew | split; [exact Eh |]].
  split; [| split; [| reflexivity]].
  - apply Nat2Z.inj_le. apply (max_ofZ_lower 16 (floor (ofnat h * (if negb (N.eqb (videoWidth video) 0) && negb (N.eqb (videoHeight video) 0)
                    then ofN (videoWidth video) / ofN (videoHeight video) else DEFAULT_ASPECT)
                 * (size * #1.2 / max #1 (size * #0.62))))).
    rewrite <- Eh, <- Ew, Eg. reflexivity.
  - apply Nat2Z.inj_le. apply (max_ofZ_lower 12 (floor (VIEWPORT_HEIGHT / (size * #1.2)))).
    rewrite <- Eh, Eg. reflexivity.
Qed.

Lemma computeGrid_dims (video : HTMLVideoElement) (s : Qc) :
  (0 < s)%Qc ->
  exists cols rows : Z,
    grid_width (computeGrid video (Num s)) = ofZ cols
    /\ grid_height (computeGrid video (Num s)) = ofZ rows
    /\ (16 <= cols)%Z /\ (12 <= rows)%Z.
Proof.
  intros Hs. unfold computeGrid. cbn [grid_width grid_height].
  assert (Hh : is_zero (Num s * #1.2) = false) by (apply charHeight_nonzero; exact Hs).
  assert (Hw : is_zero (max #1 (Num s * #0.62)) = false) by apply charWidth_nonzero.
  assert (Fh : isFinite (Num s * #1.2) = true) by reflexivity.
  assert (Fw : isFinite (max #1 (Num s * #0.62)) = true) by (apply isFinite_max; reflexivity).
  assert (Fr : isFinite (VIEWPORT_HEIGHT / (Num s * #1.2)) = true)
    by (apply isFinite_div; [reflexivity | exact Fh | exact Hh]).
  change #12 with (ofZ 12). change #16 with (ofZ 16).
  destruct (max_floor_integer 12 _ Fr) as (rows & Er & Hr). rewrite Er.
  assert (Fc : isFinite (ofZ rows
                 * (if negb (N.eqb (videoWidth video) 0) && negb (N.eqb (videoHeight video) 0)
                    then ofN (videoWidth video) / ofN (videoHeight video) else DEFAULT_ASPECT)
                 * (Num s * #1.2 / max #1 (Num s * #0.62))) = true).
  { apply isFinite_mul; [apply isFinite_mul; [reflexivity | apply videoAspect_finite] |].
    apply isFinite_div; assumption. }
  destruct (max_floor_integer 16 _ Fc) as (cols & Ec & Hc). rewrite Ec.
  exists cols, rows. auto.
Qed.

Lemma sub_ofZ (a c : Z) : ofZ a - ofZ c = ofZ (a - c).
Proof.
  unfold ofZ, sub. cbn [neg add]. f_equal. apply Qc_is_canon. qc_to_q.
  unfold Z.sub. rewrite inject_Z_plus, inject_Z_opp. reflexivity.
Qed.

(** The glyph index as an integer: with [L] the last position of the
    palette, the rounded value clamped to [[0, L]]. *)
Lemma glyphIndex_ofZ (charset : jsstring) (a : Qc) :
  let L := (Z.of_nat (length charset) - 1)%Z in
  glyphIndex charset (Num a)
  = ofZ (Z.max 0 (Z.min L (Qfloor (((Q2Qc 1 + - a) * Q2Qc (inject_Z L))%Qc + Q2Qc (Qmake 1 2))%Q))).
Proof.
  intros L. unfold glyphIndex. cbv zeta. unfold ofnat. change #1 with (ofZ 1) at 1 3.
  rewrite sub_ofZ. fold L. change #0 with (ofZ 0).
  replace (round ((#1 - Num a) * ofZ L))
    with (ofZ (Qfloor (((Q2Qc 1 + - a) * Q2Qc (inject_Z L))%Qc + Q2Qc (Qmake 1 2))%Q))
    by reflexivity.
  rewrite min_ofZ, max_ofZ. reflexivity.
Qed.

Lemma glyphIndex_non_increasing (charset : jsstring) (a1 a2 : Qc) :
  (a1 <= a2)%Qc ->
  exists i1 i2 : Z,
    glyphIndex charset (Num a1) = ofZ i1 /\ glyphIndex charset (Num a2) = ofZ i2
    /\ (i2 <= i1)%Z /\ (0 <= i2)%Z /\ (i1 <= Z.max 0 (Z.of_nat (length charset) - 1))%Z.
Proof.
  intros H. rewrite !glyphIndex_ofZ. cbv zeta.
  set (L := (Z.of_nat (length charset) - 1)%Z).
  do 2 eexists. split; [reflexivity | split; [reflexivity |]].
  destruct (Z.le_gt_cases 0 L) as [HL | HL]; [| lia].
  assert (F : (Qfloor (((Q2Qc 1 + - a2) * Q2Qc (inject_Z L))%Qc + Q2Qc (Qmake 1 2))%Q
               <= Qfloor (((Q2Qc 1 + - a1) * Q2Qc (inject_Z L))%Qc + Q2Qc (Qmake 1 2))%Q)%Z).
  { apply Qfloor_resp_le.
    assert (HL' : (0 <= inject_Z L)%Q) by (change 0%Q with (inject_Z 0); rewrite <- Zle_Qle; lia).
    qc_to_q. generalize dependent (inject_Z L). intros l Hl.
    generalize dependent (this a1). intros x1. generalize dependent (this a2). intros x2 Hx.
    nra. }
  lia.
Qed.

(** With a palette that is not empty, the glyph of a finite adjusted
    brightness is one of the palette. *)
Lemma glyph_in_charset (charset : jsstring) (a : Qc) :
  charset <> [] ->
  exists (i : nat) (c : char16),
    charset !! i = Some c /\ glyphAt charset (glyphIndex charset (Num a)) = [c].
Proof.
  intros Hne. rewrite glyphIndex_ofZ. cbv zeta.
  set (L := (Z.of_nat (length charset) - 1)%Z).
  set (z := Z.max 0 (Z.min L _)).
  assert (HL : (0 <= L)%Z) by (destruct charset; [congruence | subst L; cbn [length]; lia]).
  assert (Hz : (0 <= z <= L)%Z) by (subst z; lia).
  unfold glyphAt. rewrite as_integer_ofZ.
  destruct (Z.leb_spec 0 z); [| lia].
  match goal with
  | |- context [match ?l with Some _ => _ | None => _ end] => destruct l as [c |] eqn:Hc
  end.
  - exists (Z.to_nat z), c. split; [exact Hc | reflexivity].
  - apply lookup_ge_None in Hc. subst L. lia.
Qed.

(** The glyph is always a single code unit: one of the palette, or the
    space that stands in for a missing one. *)
Lemma glyphAt_one_unit (charset : jsstring) (index : number) :
  exists c : char16, glyphAt charset index = [c] /\ (c ∈ charset \/ c = 32%N).
Proof.
  unfold glyphAt.
  destruct (as_integer index) as [z |]; [| exists 32%N; split; [reflexivity | right; reflexivity]].
  destruct (0 <=? z)%Z; [| exists 32%N; split; [reflexivity | right; reflexivity]].
  destruct (charset !! Z.to_nat z) as [c |] eqn:E.
  - exists c. split; [reflexivity | left; apply list_elem_of_lookup; exists (Z.to_nat z); exact E].
  - exists 32%N. split; [reflexivity | right; reflexivity].
Qed.

Lemma sample_byte (data : list byte) (i : nat) :
  (i < length data)%nat -> exists z : Z, sample data i = ofZ z /\ (0 <= z <= 255)%Z.
Proof.
  intros H. unfold sample. destruct (lookup_lt_is_Some_2 data i H) as [v ->].
  exists (Z.of_N (Byte.to_N v)). split; [reflexivity |].
  pose proof (Byte.to_N_bounded v). lia.
Qed.

Lemma adjusted_unit (x k : Qc) :
  exists a : Qc, adjusted (Num x) (Num k) = Num a /\ (0 <= a)%Qc /\ (a <= 1)%Qc.
Proof.
  unfold adjusted.
  change ((Num x - #0.5) * Num k + #0.5) with (Num ((x + - Q2Qc 0.5) * k + Q2Qc 0.5)).
  unfold ofQ. rewrite min_Num, max_Num. eexists. split; [reflexivity |].
  change 1%Qc with (Q2Qc 1). change 0%Qc with (Q2Qc 0).
  qc_cases; split; try qc_order; try (vm_compute; congruence).
Qed.

(** The adjusted brightness of a cell whose three samples exist, under a
    contrast that is a number. *)
Lemma cell_brightness_unit (data : list byte) (contrast : number) (i : nat) :
  isNaN contrast = false -> (i + 2 < length data)%nat ->
  exists a : Qc,
    adjusted (brightnessFor (sample data i) (sample data (i + 1)) (sample data (i + 2)))
             (clampedContrast contrast) = Num a
    /\ (0 <= a)%Qc /\ (a <= 1)%Qc.
Proof.
  intros Hc Hi.
  destruct (sample_byte data i) as (r' & -> & _); [lia |].
  destruct (sample_byte data (i + 1)) as (g' & -> & _); [lia |].
  destruct (sample_byte data (i + 2)) as (b' & -> & _); [lia |].
  destruct (clampedContrast_range contrast) as [[-> _] | (k & -> & _)]; [discriminate |].
  rewrite brightnessFor_luminance. unfold ofZ. rewrite luminance_Num, div_255.
  apply adjusted_unit.
Qed.

(** Every cell of a frame that [asciiFromVideo] returns, when the contrast
    is a number and the canvas hands back four bytes for every pixel. *)
Lemma frame_cells (video : HTMLVideoElement) (canvas : HTMLCanvasElement)
    (charset : jsstring) (scheme : Scheme) (size contrast : number) (frame : AsciiFrame)
    (row : list AsciiCell) (cell : AsciiCell) :
  asciiFromVideo video canvas charset scheme size contrast = Normal (Some frame) ->
  isNaN contrast = false ->
  (forall w h, length (picture video (currentTime video) w h) = (4 * w * h)%nat) ->
  row ∈ rows frame -> cell ∈ row ->
  exists a : Qc,
    (0 <= a)%Qc /\ (a <= 1)%Qc
    /\ brightness cell = Num a
    /\ char cell = glyphAt charset (glyphIndex charset (Num a))
    /\ color cell
       = rgbToCss (mixColor (hexToRgb (accent scheme)) (hexToRgb (foreground scheme)) (Num a)).
Proof.
  intros Hf Hc Hp Hrow Hcell.
  destruct (asciiFromVideo_Some _ _ _ _ _ _ _ Hf) as (w & h & _ & _ & _ & _ & Hrows).
  rewrite Hrows in Hrow. apply list_elem_of_In, in_map_iff in Hrow.
  destruct Hrow as (y & <- & Hy%in_seq).
  apply list_elem_of_In, in_map_iff in Hcell. destruct Hcell as (x & <- & Hx%in_seq).
  destruct (cell_brightness_unit (fitted (4 * w * h) (picture video (currentTime video) w h))
              contrast ((y * w + x) * 4) Hc) as (a & Ea & H0 & H1).
  { rewrite fitted_length. nia. }
  exists a. split; [exact H0 | split; [exact H1 |]].
  unfold cellAt. cbv zeta. cbn [brightness char color]. fold (glyphIndex charset).
  unfold glyphIndex. cbv zeta. rewrite Ea. repeat split; reflexivity.
Qed.

Lemma asciiFromVideo_returns (video : HTMLVideoElement) (canvas : HTMLCanvasElement)
    (charset : jsstring) (scheme : Scheme) (size contrast : number) (w h : nat) :
  context2d canvas = true ->
  as_dim (grid_width (computeGrid video size)) = Some w ->
  as_dim (grid_height (computeGrid video size)) = Some h ->
  imageDataFault canvas w h = None ->
  exists frame,
    asciiFromVideo video canvas charset scheme size contrast = Normal (Some frame).
Proof.
  intros Hc Ew Eh Hf. rewrite asciiFromVideo_eq. cbv zeta. rewrite Hc, Ew, Eh, Hf.
  eexists. reflexivity.
Qed.

(** The frame of the sample clip of 10 by 400 pixels at character size 40:
    a grid of 16 by 12 cells. *)
Lemma tiny_frame :
  exists frame,
    asciiFromVideo tinyVideo newCanvas (utf16 "@$%#*+=-:. ")
      demoScheme #40 #1
    = Normal (Some frame).
Proof.
  apply (asciiFromVideo_returns _ _ _ _ _ _ 16 12); [reflexivity | | | reflexivity];
    vm_compute; reflexivity.
Qed.

(** X4. For a positive character size whose grid [getImageData] accepts
    (both dimensions in the range of a [long], and the implementation does
    not refuse a rectangle of that size) and a scratch canvas that yields a
    context, [asciiFromVideo] returns a frame (neither [null] nor an
    exception), and the frame is a full rectangle: [height] rows of [width]
    cells each, at least 16 columns by 12 rows. *)
Theorem asciiFromVideo_frame_shape (video : HTMLVideoElement) (canvas : HTMLCanvasElement)
    (charset : jsstring) (scheme : Scheme) (s : Qc) (contrast : number) :
  (0 < s)%Qc -> context2d canvas = true ->
  le (grid_width (computeGrid video (Num s))) (ofZ MAX_LONG) = true ->
  le (grid_height (computeGrid video (Num s))) (ofZ MAX_LONG) = true ->
  (forall w h : nat,
     grid_width (computeGrid video (Num s)) = ofnat w ->
     grid_height (computeGrid video (Num s)) = ofnat h ->
     imageDataFault canvas w h = None) ->
  exists (frame : AsciiFrame) (w h : nat),
    asciiFromVideo video canvas charset scheme (Num s) contrast = Normal (Some frame)
    /\ width frame = ofnat w /\ height frame = ofnat h
    /\ (16 <= w)%nat /\ (12 <= h)%nat
    /\ length (rows frame) = h
    /\ Forall (fun row => length row = w) (rows frame).
Proof.
  intros Hs Hc Hgw Hgh Hfault.
  destruct (computeGrid_dims video s Hs) as (cols & rows & Ew & Eh & Hcols & Hrows).
  rewrite Ew, le_ofZ in Hgw. rewrite Eh, le_ofZ in Hgh.
  apply Z.leb_le in Hgw, Hgh.
  assert (Dw : as_dim (grid_width (computeGrid video (Num s))) = Some (Z.to_nat cols))
    by (rewrite Ew; apply as_dim_ofZ; lia).
  assert (Dh : as_dim (grid_height (computeGrid video (Num s))) = Some (Z.to_nat rows))
    by (rewrite Eh; apply as_dim_ofZ; lia).
  destruct (asciiFromVideo_returns video canvas charset scheme (Num s) contrast _ _ Hc Dw Dh)
    as [frame E].
  { apply Hfault; [rewrite Ew | rewrite Eh]; unfold ofnat; f_equal; lia. }
  exists frame.
  destruct (asciiFromVideo_Some _ _ _ _ _ _ _ E) as (w' & h' & Hw & Hh & Lw & Lh & Hrows').
  exists w', h'. repeat split; try assumption.
  - rewrite Hrows', length_map, length_seq. reflexivity.
  - rewrite Hrows'. apply Forall_forall. intros row Hrow.
    apply list_elem_of_In, in_map_iff in Hrow. destruct Hrow as (y & <- & _).
    rewrite length_map, length_seq. reflexivity.
Qed.

Lemma asciiFromVideo_frame_shape_witness :
  exists (frame : AsciiFrame) (w h : nat),
    asciiFromVideo demoVideo newCanvas (utf16 "@$%#*+=-:. ")
      demoScheme #8 #1
    = Normal (Some frame)
    /\ width frame = ofnat w /\ height frame = ofnat h
    /\ (16 <= w)%nat /\ (12 <= h)%nat
    /\ length (rows frame) = h
    /\ Forall (fun row => length row = w) (rows frame).
Proof.
  apply (asciiFromVideo_frame_shape demoVideo newCanvas
           (utf16 "@$%#*+=-:. ") demoScheme (Q2Qc 8) #1);
    [reflexivity | reflexivity | vm_compute; reflexivity | vm_compute; reflexivity
    | intros w h _ _; reflexivity].
Defined.




(** X5. In a frame that [asciiFromVideo] returns, the brightness of every
    cell is a number between 0 and 1, provided the contrast is a number
    and the canvas hands back four bytes for every pixel of the grid. *)
Theorem frame_brightness_unit (video : HTMLVideoElement) (canvas : HTMLCanvasElement)
    (charset : jsstring) (scheme : Scheme) (size contrast : number) (frame : AsciiFrame) :
  asciiFromVideo video canvas charset scheme size contrast = Normal (Some frame) ->
  isNaN contrast = false ->
  (forall w h, length (picture video (currentTime video) w h) = (4 * w * h)%nat) ->
  Forall (Forall (fun cell => le #0 (brightness cell) = true /\ le (brightness cell) #1 = true))
         (rows frame).
Proof.
  intros Hf Hc Hp. apply Forall_forall. intros row Hrow. apply Forall_forall. intros cell Hcell.
  destruct (frame_cells _ _ _ _ _ _ _ _ _ Hf Hc Hp Hrow Hcell) as (a & H0 & H1 & -> & _).
  unfold ofQ, le. split; apply Qc_leb_le; assumption.
Qed.

Lemma frame_brightness_unit_witness :
  exists frame,
    asciiFromVideo tinyVideo newCanvas (utf16 "@$%#*+=-:. ") demoScheme #40 #1
    = Normal (Some frame)
    /\ Forall (Forall (fun cell => le #0 (brightness cell) = true
                                   /\ le (brightness cell) #1 = true))
              (rows frame).
Proof.
  destruct tiny_frame as [frame E].
  exists frame. split; [exact E |].
  apply (frame_brightness_unit tinyVideo newCanvas (utf16 "@$%#*+=-:. ")
           demoScheme #40 #1).
  - exact E.
  - reflexivity.
  - intros w h. apply repeat_length.
Defined.

(** X6. With a palette that is not empty, every cell of a returned frame
    carries exactly one glyph, and that glyph is one of the palette (same
    provisos as for the brightness). *)
Theorem frame_glyphs_from_charset (video : HTMLVideoElement) (canvas : HTMLCanvasElement)
    (charset : jsstring) (scheme : Scheme) (size contrast : number) (frame : AsciiFrame) :
  asciiFromVideo video canvas charset scheme size contrast = Normal (Some frame) ->
  isNaN contrast = false ->
  (forall w h, length (picture video (currentTime video) w h) = (4 * w * h)%nat) ->
  charset <> [] ->
  Forall (Forall (fun cell => exists c : char16, c ∈ charset /\ char cell = [c])) (rows frame).
Proof.
  intros Hf Hc Hp Hne. apply Forall_forall. intros row Hrow. apply Forall_forall.
  intros cell Hcell.
  destruct (frame_cells _ _ _ _ _ _ _ _ _ Hf Hc Hp Hrow Hcell) as (a & _ & _ & _ & -> & _).
  destruct (glyph_in_charset charset a Hne) as (i & c & Hi & ->).
  exists c. split; [| reflexivity]. apply list_elem_of_lookup. exists i. exact Hi.
Qed.

Lemma frame_glyphs_from_charset_witness :
  exists frame,
    asciiFromVideo tinyVideo newCanvas (utf16 "@$%#*+=-:. ") demoScheme #40 #1
    = Normal (Some frame)
    /\ Forall (Forall (fun cell => exists c : char16,
                         c ∈ utf16 "@$%#*+=-:. " /\ char cell = [c]))
              (rows frame).
Proof.
  destruct tiny_frame as [frame E].
  exists frame. split; [exact E |].
  apply (frame_glyphs_from_charset tinyVideo newCanvas (utf16 "@$%#*+=-:. ")
           demoScheme #40 #1).
  - exact E.
  - reflexivity.
  - intros w h. apply repeat_length.
  - discriminate.
Defined.

(** X7. The glyph of a cell is the palette entry at [glyphIndex] of its
    brightness, and that index never grows with the brightness: of two
    adjusted values the greater one selects the same or an earlier position
    of the palette, and the position is never below 0 or past the end. *)
Theorem glyph_index_non_increasing (data : list byte) (charset : jsstring)
    (accentRgb foregroundRgb : Rgb) (clamped : number) (w y x : nat) (a1 a2 : Qc) :
  (a1 <= a2)%Qc ->
  char (cellAt data charset accentRgb foregroundRgb clamped w y x)
  = glyphAt charset
      (glyphIndex charset (brightness (cellAt data charset accentRgb foregroundRgb clamped w y x)))
  /\ exists i1 i2 : Z,
       glyphIndex charset (Num a1) = ofZ i1 /\ glyphIndex charset (Num a2) = ofZ i2
       /\ (i2 <= i1)%Z /\ (0 <= i2)%Z /\ (i1 <= Z.max 0 (Z.of_nat (length charset) - 1))%Z.
Proof.
  intros H. split; [| apply glyphIndex_non_increasing; exact H].
  cbv beta iota zeta delta [cellAt char brightness glyphIndex]. reflexivity.
Qed.

Lemma glyph_index_non_increasing_witness :
  char (cellAt (repeat Byte.x80 8) (utf16 "@$%#*+=-:. ") (hexToRgb "#00b140")
          (hexToRgb "#33ff66") #1 1 0 0)
  = glyphAt (utf16 "@$%#*+=-:. ")
      (glyphIndex (utf16 "@$%#*+=-:. ")
         (brightness (cellAt (repeat Byte.x80 8) (utf16 "@$%#*+=-:. ") (hexToRgb "#00b140")
                        (hexToRgb "#33ff66") #1 1 0 0)))
  /\ exists i1 i2 : Z,
       glyphIndex (utf16 "@$%#*+=-:. ") #0.2 = ofZ i1
       /\ glyphIndex (utf16 "@$%#*+=-:. ") #0.7 = ofZ i2
       /\ (i2 <= i1)%Z /\ (0 <= i2)%Z
       /\ (i1 <= Z.max 0 (Z.of_nat (length (utf16 "@$%#*+=-:. ")) - 1))%Z.
Proof.
  apply (glyph_index_non_increasing (repeat Byte.x80 8) (utf16 "@$%#*+=-:. ")
           (hexToRgb "#00b140") (hexToRgb "#33ff66") #1 1 0 0 (Q2Qc 0.2) (Q2Qc 0.7)).
  vm_compute. congruence.
Defined.

Lemma rgb_of_channels (c : Rgb) :
  is_channel (r c) -> is_channel (g c) -> is_channel (b c) ->
  exists r' g' b' : Z,
    c = {| r := ofZ r'; g := ofZ g'; b := ofZ b' |}
    /\ (0 <= r' <= 255)%Z /\ (0 <= g' <= 255)%Z /\ (0 <= b' <= 255)%Z.
Proof.
  destruct c as [cr cg cb]. cbn [r g b].
  intros (r' & -> & Hr) (g' & -> & Hg) (b' & -> & Hb). exists r', g', b'. auto.
Qed.

(** X8. The colour of every cell of a returned frame is a CSS colour
    [rgb(r, g, b)] whose channels are integers between 0 and 255 (same
    provisos as for the brightness). *)
Theorem frame_colours_valid (video : HTMLVideoElement) (canvas : HTMLCanvasElement)
    (charset : jsstring) (scheme : Scheme) (size contrast : number) (frame : AsciiFrame) :
  asciiFromVideo video canvas charset scheme size contrast = Normal (Some frame) ->
  isNaN contrast = false ->
  (forall w h, length (picture video (currentTime video) w h) = (4 * w * h)%nat) ->
  Forall (Forall (fun cell =>
            exists r' g' b' : Z,
              color cell = "rgb(" +:+ string_of_Z r' +:+ ", " +:+ string_of_Z g' +:+ ", "
                           +:+ string_of_Z b' +:+ ")"
              /\ (0 <= r' <= 255)%Z /\ (0 <= g' <= 255)%Z /\ (0 <= b' <= 255)%Z))
         (rows frame).
Proof.
  intros Hf Hc Hp. apply Forall_forall. intros row Hrow. apply Forall_forall. intros cell Hcell.
  destruct (frame_cells _ _ _ _ _ _ _ _ _ Hf Hc Hp Hrow Hcell) as (a & H0 & H1 & _ & _ & ->).
  destruct (hexToRgb_channels (accent scheme)) as (A1 & A2 & A3).
  destruct (hexToRgb_channels (foreground scheme)) as (F1 & F2 & F3).
  destruct (rgb_of_channels _ A1 A2 A3) as (a1 & a2 & a3 & -> & ? & ? & ?).
  destruct (rgb_of_channels _ F1 F2 F3) as (f1 & f2 & f3 & -> & ? & ? & ?).
  destruct (mixColor_between_channels a1 a2 a3 f1 f2 f3 a H0 H1)
    as (r' & g' & b' & -> & ? & ? & ?).
  exists r', g', b'. unfold rgbToCss. cbn [r g b]. rewrite !toString_ofZ.
  split; [reflexivity | lia].
Qed.

Lemma frame_colours_valid_witness :
  exists frame,
    asciiFromVideo tinyVideo newCanvas (utf16 "@$%#*+=-:. ") demoScheme #40 #1
    = Normal (Some frame)
    /\ Forall (Forall (fun cell =>
                 exists r' g' b' : Z,
                   color cell = "rgb(" +:+ string_of_Z r' +:+ ", " +:+ string_of_Z g' +:+ ", "
                                +:+ string_of_Z b' +:+ ")"
                   /\ (0 <= r' <= 255)%Z /\ (0 <= g' <= 255)%Z /\ (0 <= b' <= 255)%Z))
              (rows frame).
Proof.
  destruct tiny_frame as [frame E].
  exists frame. split; [exact E |].
  apply (frame_colours_valid tinyVideo newCanvas (utf16 "@$%#*+=-:. ")
           demoScheme #40 #1).
  - exact E.
  - reflexivity.
  - intros w h. apply repeat_length.
Defined.

(** ** The preview markup *)

Lemma escapeChar_unit (c : char16) :
  escapeChar [c]
  = if bool_decide (c = 38%N) then utf16 "&amp;"
    else if bool_decide (c = 60%N) then utf16 "&lt;"
    else if bool_decide (c = 62%N) then utf16 "&gt;"
    else if bool_decide (c = 32%N) then utf16 "&nbsp;"
    else [c].
Proof.
  unfold escapeChar.
  repeat case_bool_decide; try reflexivity; exfalso;
    repeat match goal with
           | H : [_] = utf16 _ |- _ => injection H as H
           | H : [_] <> utf16 _ |- _ => apply H; clear H
           end;
    subst; vm_compute in *; congruence.
Qed.

Lemma occurrences_app (c : char16) (s t : jsstring) :
  occurrences c (s ++ t) = (occurrences c s + occurrences c t)%nat.
Proof. unfold occurrences. rewrite filter_app, length_app. reflexivity. Qed.

Lemma occurrences_cons (c x : char16) (s : jsstring) :
  occurrences c (x :: s) = ((if bool_decide (x = c) then 1 else 0) + occurrences c s)%nat.
Proof.
  unfold occurrences. rewrite filter_cons. case_bool_decide.
  - rewrite decide_True by assumption. reflexivity.
  - rewrite decide_False by assumption. reflexivity.
Qed.

Lemma utf16_app (s t : string) : utf16 (s +:+ t) = utf16 s ++ utf16 t.
Proof.
  induction s as [| c s IH]; [reflexivity |].
  change (N_of_ascii c :: utf16 (s +:+ t) = N_of_ascii c :: (utf16 s ++ utf16 t)).
  rewrite IH. reflexivity.
Qed.

(** Decimal numerals hold neither [<] nor [>]. *)
Lemma string_of_uint_no_angle (c : char16) (d : Decimal.uint) :
  c = LT_SIGN \/ c = GT_SIGN ->
  occurrences c (utf16 (NilEmpty.string_of_uint d)) = 0%nat.
Proof.
  intros Hc. induction d; cbn [NilEmpty.string_of_uint utf16];
    rewrite ?occurrences_cons, ?IHd; try reflexivity;
    case_bool_decide; try reflexivity; exfalso; destruct Hc; subst c; vm_compute in *; congruence.
Qed.

Lemma string_of_Z_no_angle (c : char16) (z : Z) :
  c = LT_SIGN \/ c = GT_SIGN -> occurrences c (utf16 (string_of_Z z)) = 0%nat.
Proof.
  intros Hc. unfold string_of_Z, NilZero.string_of_int, NilZero.string_of_uint.
  assert (H0 : occurrences c (utf16 "0") = 0%nat).
  { cbn [utf16]. rewrite occurrences_cons. case_bool_decide; [| reflexivity].
    exfalso. destruct Hc; subst c; vm_compute in *; congruence. }
  assert (Hm : forall s, occurrences c (utf16 (String "-" s)) = occurrences c (utf16 s)).
  { intros s. cbn [utf16]. rewrite occurrences_cons. case_bool_decide; [| reflexivity].
    exfalso. destruct Hc; subst c; vm_compute in *; congruence. }
  destruct (Z.to_int z) as [d | d]; rewrite ?Hm; destruct d; try exact H0;
    apply string_of_uint_no_angle; exact Hc.
Qed.

Lemma toString_no_angle (c : char16) (a : number) :
  c = LT_SIGN \/ c = GT_SIGN -> occurrences c (utf16 (toString a)) = 0%nat.
Proof.
  intros Hc. unfold toString.
  destruct a as [x | | |];
    try (destruct Hc; subst c; vm_compute; reflexivity).
  destruct (as_integer (Num x)); [apply string_of_Z_no_angle; exact Hc |].
  rewrite !utf16_app, !occurrences_app, !string_of_Z_no_angle by exact Hc.
  destruct Hc; subst c; reflexivity.
Qed.

Lemma rgbToCss_no_angle (c : char16) (rgb : Rgb) :
  c = LT_SIGN \/ c = GT_SIGN -> occurrences c (utf16 (rgbToCss rgb)) = 0%nat.
Proof.
  intros Hc. unfold rgbToCss.
  rewrite !utf16_app, !occurrences_app, !toString_no_angle by exact Hc.
  destruct Hc; subst c; reflexivity.
Qed.

Lemma escapeChar_no_angle (c u : char16) :
  c = LT_SIGN \/ c = GT_SIGN -> occurrences c (escapeChar [u]) = 0%nat.
Proof.
  intros Hc. rewrite escapeChar_unit.
  repeat case_bool_decide; subst;
    try (destruct Hc; subst c; vm_compute; reflexivity).
  rewrite occurrences_cons. case_bool_decide; [| reflexivity].
  exfalso. destruct Hc; subst c; unfold LT_SIGN, GT_SIGN in *; congruence.
Qed.

Lemma cellToHtml_angles (c : char16) (cell : AsciiCell) :
  c = LT_SIGN \/ c = GT_SIGN -> plain_cell cell -> occurrences c (cellToHtml cell) = 2%nat.
Proof.
  intros Hc (H1 & H2 & H3). unfold cellToHtml.
  destruct (char cell) as [| u [| ? ?]]; try discriminate H1.
  rewrite !occurrences_app, (escapeChar_no_angle c u Hc).
  destruct Hc; subst c; rewrite ?H2, ?H3; reflexivity.
Qed.

Lemma occurrences_join (c : char16) (sep : jsstring) (parts : list jsstring) :
  occurrences c (join sep parts)
  = ((length parts - 1) * occurrences c sep + occurrences c (concat parts))%nat.
Proof.
  destruct parts as [| first rest]; [reflexivity |].
  cbn [join length concat]. rewrite !occurrences_app.
  replace (S (length rest) - 1)%nat with (length rest) by lia.
  induction rest as [| part rest IH]; [reflexivity |].
  cbn [map concat length]. rewrite !occurrences_app. lia.
Qed.

Lemma row_angles (c : char16) (row : list AsciiCell) :
  c = LT_SIGN \/ c = GT_SIGN -> Forall plain_cell row ->
  occurrences c (join [] (map cellToHtml row)) = (2 * length row)%nat.
Proof.
  intros Hc H. rewrite occurrences_join.
  replace (occurrences c []) with 0%nat by reflexivity. rewrite Nat.mul_0_r, Nat.add_0_l.
  induction H as [| cell row Hcell Hrow IH]; [reflexivity |].
  cbn [map concat length]. rewrite occurrences_app, (cellToHtml_angles c cell Hc Hcell), IH.
  lia.
Qed.

Lemma frameToHtml_angles (c : char16) (frame : AsciiFrame) :
  c = LT_SIGN \/ c = GT_SIGN -> Forall (Forall plain_cell) (rows frame) ->
  occurrences c (frameToHtml frame)
  = (2 * length (concat (rows frame)) + (length (rows frame) - 1))%nat.
Proof.
  intros Hc H. unfold frameToHtml. rewrite occurrences_join, length_map.
  assert (B : occurrences c (utf16 "<br/>") = 1%nat) by (destruct Hc; subst c; reflexivity).
  rewrite B, Nat.mul_1_r.
  assert (E : occurrences c (concat (map (fun row => join [] (map cellToHtml row)) (rows frame)))
              = (2 * length (concat (rows frame)))%nat).
  { induction H as [| row rest Hrow Hrest IH]; [reflexivity |].
    cbn [map concat]. rewrite occurrences_app, length_app, (row_angles c row Hc Hrow), IH. lia. }
  rewrite E. lia.
Qed.

Lemma cellAt_plain (data : list byte) (charset : jsstring) (accentRgb foregroundRgb : Rgb)
    (clamped : number) (w y x : nat) :
  plain_cell (cellAt data charset accentRgb foregroundRgb clamped w y x).
Proof.
  unfold plain_cell, cellAt. cbv zeta. cbv beta iota delta [char color].
  split; [| split; apply rgbToCss_no_angle; [left | right]; reflexivity].
  match goal with
  | |- length (glyphAt ?cs ?i) = _ => destruct (glyphAt_one_unit cs i) as (c & -> & _)
  end.
  reflexivity.
Qed.

Lemma length_concat_map {A : Type} (f : nat -> list A) (l : list nat) (w : nat) :
  (forall y, length (f y) = w) -> length (concat (map f l)) = (length l * w)%nat.
Proof.
  intros H. induction l as [| y l IH]; [reflexivity |].
  cbn [map concat length]. rewrite length_app, H, IH. lia.
Qed.

(** X9. [escapeChar] makes a glyph safe for markup: the text it returns for
    a code unit holds no [<], no [>] and no space, and two different code
    units never get the same text. *)
Theorem escapeChar_safe (c1 c2 : char16) :
  occurrences LT_SIGN (escapeChar [c1]) = 0%nat
  /\ occurrences GT_SIGN (escapeChar [c1]) = 0%nat
  /\ occurrences 32%N (escapeChar [c1]) = 0%nat
  /\ (escapeChar [c1] = escapeChar [c2] -> c1 = c2).
Proof.
  split; [apply escapeChar_no_angle; left; reflexivity |].
  split; [apply escapeChar_no_angle; right; reflexivity |].
  rewrite !escapeChar_unit. split.
  - repeat case_bool_decide; subst; try reflexivity.
    rewrite occurrences_cons. case_bool_decide; [congruence | reflexivity].
  - repeat case_bool_decide; subst; try reflexivity; intros E;
      try (vm_compute in E; discriminate E); injection E as E; congruence.
Qed.

(** X10. The preview markup of a frame that [asciiFromVideo] returns has
    exactly one [span] element per cell and one line break between
    consecutive rows: for a grid of [w] by [h] cells it holds
    [2 * w * h + (h - 1)] opening and as many closing angle brackets, so
    that no glyph and no colour opens or closes a tag. *)
Theorem frameToHtml_one_span_per_cell (video : HTMLVideoElement) (canvas : HTMLCanvasElement)
    (charset : jsstring) (scheme : Scheme) (size contrast : number) (frame : AsciiFrame) :
  asciiFromVideo video canvas charset scheme size contrast = Normal (Some frame) ->
  exists w h : nat,
    width frame = ofnat w /\ height frame = ofnat h
    /\ occurrences LT_SIGN (frameToHtml frame) = (2 * (w * h) + (h - 1))%nat
    /\ occurrences GT_SIGN (frameToHtml frame) = (2 * (w * h) + (h - 1))%nat.
Proof.
  intros Hf.
  destruct (asciiFromVideo_Some _ _ _ _ _ _ _ Hf) as (w & h & Hw & Hh & _ & _ & Hrows).
  exists w, h. split; [exact Hw | split; [exact Hh |]].
  assert (P : Forall (Forall plain_cell) (rows frame)).
  { rewrite Hrows. apply Forall_forall. intros row Hrow.
    apply list_elem_of_In, in_map_iff in Hrow. destruct Hrow as (y & <- & _).
    apply Forall_forall. intros cell Hcell.
    apply list_elem_of_In, in_map_iff in Hcell. destruct Hcell as (x & <- & _).
    apply cellAt_plain. }
  assert (L : length (concat (rows frame)) = (h * w)%nat).
  { rewrite Hrows. rewrite (length_concat_map _ _ w), length_seq; [reflexivity |].
    intros y. rewrite length_map, length_seq. reflexivity. }
  assert (R : length (rows frame) = h) by (rewrite Hrows, length_map, length_seq; reflexivity).
  rewrite !frameToHtml_angles, L, R by (auto; left + right; reflexivity).
  split; f_equal; lia.
Qed.

Lemma frameToHtml_one_span_per_cell_witness :
  exists (frame : AsciiFrame) (w h : nat),
    asciiFromVideo tinyVideo newCanvas (utf16 "@$%#*+=-:. ") demoScheme #40 #1
    = Normal (Some frame)
    /\ width frame = ofnat w /\ height frame = ofnat h
    /\ occurrences LT_SIGN (frameToHtml frame) = (2 * (w * h) + (h - 1))%nat
    /\ occurrences GT_SIGN (frameToHtml frame) = (2 * (w * h) + (h - 1))%nat.
Proof.
  destruct tiny_frame as [frame E].
  destruct (frameToHtml_one_span_per_cell tinyVideo newCanvas
              (utf16 "@$%#*+=-:. ") demoScheme #40 #1 frame E) as (w & h & H).
  exists frame, w, h. split; [exact E | exact H].
Defined.

(** ** Seeking: what is left behind *)

Lemma seek_start_armed_or_quiet (video : HTMLVideoElement) (time : number) :
  seek_armed (seek_start video time) \/ seek_quiet (seek_start video time).
Proof.
  unfold seek_start, setCurrentTime. cbv zeta.
  destruct (seekFault (pause video) (assignments (pause video)) _) as [e |].
  - right. repeat split; discriminate.
  - left. repeat split; discriminate.
Qed.

Lemma seek_step_armed (st : SeekState) (ev : SeekEvent) :
  seek_armed st -> seek_quiet (seek_step st ev).
Proof.
  intros (Hr & Hl & Ht & Hp & Hto). destruct (sk_timeout st) as [id |] eqn:E; [| congruence].
  destruct ev; unfold seek_step; rewrite ?Hl, ?Ht; unfold seek_finish; cbn [sk_resolved];
    rewrite Hr; unfold seek_cleanup; cbn; rewrite ?E, ?Hp; repeat split; discriminate.
Qed.

Lemma seek_step_quiet (st : SeekState) (ev : SeekEvent) :
  seek_quiet st -> seek_step st ev = st.
Proof.
  intros (_ & Hl & Ht & _). destruct ev; unfold seek_step; rewrite ?Hl, ?Ht; reflexivity.
Qed.

Lemma seek_run_quiet (events : list SeekEvent) (st : SeekState) :
  seek_quiet st -> fold_left seek_step events st = st.
Proof.
  intros H. induction events as [| ev events IH]; [reflexivity |].
  cbn [fold_left]. rewrite (seek_step_quiet st ev H). exact IH.
Qed.

Lemma seek_run_armed_or_quiet (events : list SeekEvent) (st : SeekState) :
  seek_armed st \/ seek_quiet st ->
  seek_armed (fold_left seek_step events st) \/ seek_quiet (fold_left seek_step events st).
Proof.
  revert st. induction events as [| ev events IH]; intros st H; [exact H |].
  cbn [fold_left]. apply IH. right. destruct H as [H | H].
  - apply seek_step_armed. exact H.
  - rewrite (seek_step_quiet st ev H). exact H.
Qed.

Lemma seekVideo_armed_or_quiet (video : HTMLVideoElement) (time : number)
    (events : list SeekEvent) :
  seek_armed (seekVideo video time events) \/ seek_quiet (seekVideo video time events).
Proof. apply seek_run_armed_or_quiet, seek_start_armed_or_quiet. Qed.

(** X11. A [seekVideo] call leaves nothing behind: while its promise is
    pending both the "seeked" listener and the timer are armed, and once the
    promise is settled (resolved or rejected) the listener is removed and
    the timer is cleared. *)
Theorem seekVideo_releases_listener_and_timer (video : HTMLVideoElement) (time : number)
    (events : list SeekEvent) :
  let st := seekVideo video time events in
  match sk_promise st with
  | None => sk_listener st = true /\ sk_timer_pending st = true
  | Some _ => sk_listener st = false /\ sk_timer_pending st = false
  end.
Proof.
  intros st. subst st.
  destruct (seekVideo_armed_or_quiet video time events)
    as [(_ & Hl & Ht & -> & _) | (_ & Hl & Ht & Hp)].
  - split; assumption.
  - destruct (sk_promise _); [split; assumption | congruence].
Qed.

(** X12. Once the promise of a [seekVideo] call is settled, whatever the
    stream or the timer signal later changes nothing: neither the element
    nor the outcome. *)
Theorem seekVideo_ignores_late_signals (video : HTMLVideoElement) (time : number)
    (events late : list SeekEvent) :
  sk_promise (seekVideo video time events) <> None ->
  seekVideo video time (events ++ late) = seekVideo video time events.
Proof.
  intros H. unfold seekVideo. rewrite fold_left_app.
  apply seek_run_quiet.
  destruct (seekVideo_armed_or_quiet video time events) as [(_ & _ & _ & Hp & _) | Hq].
  - contradiction.
  - exact Hq.
Qed.

Lemma seekVideo_ignores_late_signals_witness :
  seekVideo demoVideo #1 ([Seeked] ++ [TimerFired; Seeked]) = seekVideo demoVideo #1 [Seeked].
Proof.
  apply (seekVideo_ignores_late_signals demoVideo #1 [Seeked] [TimerFired; Seeked]).
  vm_compute. discriminate.
Defined.

Lemma clamp_into (time : number) (u : Qc) :
  isNaN time = false -> (0 <= u)%Qc ->
  exists x : Qc, min (max time #0) (Num u) = Num x /\ (0 <= x)%Qc /\ (x <= u)%Qc.
Proof.
  intros Ht Hu. change 0%Qc with (Q2Qc 0) in *.
  destruct time as [t | | |]; try discriminate Ht; unfold ofQ.
  - rewrite max_Num, min_Num. eexists. split; [reflexivity |]. qc_cases; split; qc_order.
  - cbn [max lt]. exists u. split; [| split; [exact Hu | apply Qcle_refl]].
    unfold min, lt. reflexivity.
  - cbn [max lt]. rewrite min_Num. eexists. split; [reflexivity |]. qc_cases; split; qc_order.
Qed.

Lemma clamp_stays (x u : Qc) :
  (0 <= x)%Qc -> (x <= u)%Qc -> min (max (Num x) #0) (Num u) = Num x.
Proof.
  intros H0 H1. change 0%Qc with (Q2Qc 0) in *. unfold ofQ. rewrite max_Num.
  replace (Qc_ltb x (Q2Qc 0)) with false by (symmetry; apply Qc_ltb_ge; exact H0).
  rewrite min_Num.
  replace (Qc_ltb u x) with false by (symmetry; apply Qc_ltb_ge; exact H1).
  reflexivity.
Qed.

(** The upper bound of [clampTime] for a duration that is neither
    [Infinity] nor [NaN]. *)
Lemma clamp_upper (duration : number) :
  eqb duration PosInf || isNaN duration = false ->
  exists u : Qc, max #0 (duration - #0.001) = Num u /\ (0 <= u)%Qc.
Proof.
  intros E. destruct duration as [d | | |]; try discriminate E.
  - unfold sub, ofQ. cbn [neg add]. rewrite max_Num. eexists. split; [reflexivity |].
    change 0%Qc with (Q2Qc 0). qc_cases; qc_order.
  - exists (Q2Qc 0). split; [reflexivity | apply Qcle_refl].
Qed.

(** X13. [clampTime] is idempotent: clamping a clamped time again changes
    nothing.  The handler clamps every sampling instant before it calls
    [seekVideo], which clamps its argument once more; the position that is
    assigned is the one the handler computed. *)
Theorem clampTime_idempotent (duration time : number) :
  clampTime duration (clampTime duration time) = clampTime duration time.
Proof.
  unfold clampTime.
  destruct (eqb duration PosInf || isNaN duration) eqn:E; [reflexivity |].
  destruct (clamp_upper duration E) as (u & -> & Hu).
  destruct (isNaN time) eqn:Ht.
  - destruct time; try discriminate Ht. reflexivity.
  - destruct (clamp_into time u Ht Hu) as (x & -> & H0 & H1).
    apply clamp_stays; assumption.
Qed.

(** ** The export button *)

Ltac as_keeps :=
  lazymatch goal with |- triple ?I ?m _ _ => change (keeps I m) end.

Ltac busy_leaf :=
  unfold all_busy in *; page_simpl; rewrite ?exportStates_snoc, ?app_nil_r;
  try assumption;
  try (apply Forall_app; split; [assumption | repeat constructor]).

Lemma prepare_busy (env : Environment) (format : ExportFormat) :
  keeps all_busy (exportPrepare env format).
Proof. unfold_handler. repeat keeps_step; busy_leaf. Qed.

Lemma loop_busy (env : Environment) (format : ExportFormat) (duration step : number)
    (first count : nat) :
  keeps all_busy (forRange (captureFrame env format duration step) first count).
Proof. unfold_handler. repeat keeps_step; busy_leaf. Qed.

Ltac over_leaf :=
  unfold run_over in *; page_simpl; rewrite ?exportStates_snoc, ?app_nil_r; try assumption.

Lemma encode_over (env : Environment) (format : ExportFormat) :
  triple all_busy (exportEncode env format) (fun _ => run_over format) all_busy.
Proof.
  unfold exportEncode. cbv zeta.
  repeat (apply triple_bind with (Qm := fun _ => all_busy);
          [solve [as_keeps; unfold_handler; repeat keeps_step; busy_leaf]
          | intros ?]).
  apply triple_bind with (Qm := fun _ => run_over format).
  { unfold setExportState, emit. apply triple_modify. intros s Hs. over_leaf.
    eexists _, _. split; [reflexivity |]. repeat split; try assumption. left. split; reflexivity. }
  intros _.
  apply triple_bind with (Qm := fun _ => run_over format);
    [| intros _]; unfold setStatus, emit; apply triple_modify; intros s Hs; over_leaf.
Qed.

Lemma body_over (env : Environment) (format : ExportFormat) :
  triple all_busy (tryCatch (exportBody env format) (exportCatch format))
    (fun _ => run_over format) (run_over format).
Proof.
  apply triple_tryCatch with (Qe' := all_busy).
  - unfold exportBody.
    apply triple_bind with (Qm := fun _ => all_busy); [apply prepare_busy |].
    intros [duration step].
    apply triple_bind with (Qm := fun _ => all_busy); [apply keeps_get |].
    intros s.
    apply triple_bind with (Qm := fun _ => all_busy); [apply loop_busy |].
    intros _. apply encode_over.
  - intros e. unfold exportCatch. cbv zeta.
    apply triple_bind with (Qm := fun _ => run_over format).
    + unfold setExportState, emit. apply triple_modify. intros s Hs. over_leaf.
      eexists _, _. split; [reflexivity |]. repeat split; try assumption.
      right. split; reflexivity.
    + intros _. unfold setStatus, emit. apply triple_modify. intros s Hs. over_leaf.
Qed.

(** X14. The states that an export publishes keep the export buttons
    disabled until the last one.  Of the export states of a run, every one
    that is followed by another is a state for which [exportIdle] fails, so
    that [canExport] is false: whatever part of its states a run has
    published, the buttons are disabled as long as a state is still to come
    (and so for good in a run that waits forever).  The state that the
    handler publishes last, when it runs to its end, is [done] (with progress
    1) or [error] (with progress 0), for which [canExport] is true again.
    Without a selected file nothing is published.  (What a timer of an
    earlier export sets in the meantime is not a state of the run.) *)
Theorem export_buttons_disabled_until_last_state (env : Environment)
    (format0 : ExportFormat) (cached : option FFmpeg) :
  let p := runExport env format0 cached in
  let published := exportStates (trace p) in
  (forall earlier later : list ExportState,
     published = earlier ++ later -> later <> [] ->
     Forall (fun st => canExport true true st = false) earlier)
  /\ if selectedFile env then
       exists final,
         last published = Some final
         /\ canExport true true final = true
         /\ format final = Some format0
         /\ (status final = done /\ progress final = #1
             \/ status final = error /\ progress final = #0)
     else trace p = [].
Proof.
  intros p published.
  assert (H : if selectedFile env then run_over format0 p else trace p = []).
  { subst p. unfold runExport. destruct (selectedFile env) eqn:Hsel.
    - destruct (handleExport_phases env format0 cached Hsel) as (s2 & s3 & E2 & E3 & ->).
      cbn [snd]. unfold run_over. rewrite (exportFinally_exportStates _ _ E3).
      pose proof (body_over env format0 (startPage env cached)) as H.
      rewrite E2 in H. apply H. unfold all_busy. constructor.
    - rewrite (handleExport_unselected env format0 cached Hsel). reflexivity. }
  destruct (selectedFile env).
  - destruct H as (busy & final & E & Hbusy & Hfinal & Hrest). fold published in E.
    split.
    + intros earlier later Hsplit Hlater.
      destruct (exists_last Hlater) as (later' & st & ->).
      rewrite E, app_assoc in Hsplit. apply app_inj_tail in Hsplit as [-> _].
      apply Forall_app in Hbusy. apply Hbusy.
    + exists final. rewrite E, last_snoc. auto.
  - split; [| exact H]. intros earlier later Hsplit _.
    subst published. rewrite H in Hsplit. cbn in Hsplit.
    symmetry in Hsplit. apply app_eq_nil in Hsplit as [-> _]. constructor.
Qed.

(** ** The order of the sampling loop *)

Lemma triple_forRange_indexed (I : nat -> Page -> Prop) (Qe : Page -> Prop)
    (body : nat -> M unit) (first count : nat) :
  (forall i, (first <= i < first + count)%nat ->
             triple (I i) (body i) (fun _ => I (S i)) Qe) ->
  triple (I first) (forRange body first count) (fun _ => I (first + count)%nat) Qe.
Proof.
  revert first. induction count as [| k IH]; intros first Hb.
  - apply triple_ret. intros s Hs. rewrite Nat.add_0_r. exact Hs.
  - cbn [forRange]. apply triple_bind with (Qm := fun _ => I (S first)).
    + apply Hb. lia.
    + intros _. replace (first + S k)%nat with (S first + k)%nat by lia.
      apply IH. intros i Hi. apply Hb. lia.
Qed.

Lemma keeps_forRange_bounded (I : Page -> Prop) (body : nat -> M unit) (first count : nat) :
  (forall i, (first <= i < first + count)%nat -> keeps I (body i)) ->
  keeps I (forRange body first count).
Proof.
  intros Hb. apply (triple_forRange_indexed (fun _ => I) I body first count Hb).
Qed.

Lemma keeps_weaken {A : Type} (I Qn Qe : Page -> Prop) (m : M A) :
  keeps I m -> (forall s, I s -> Qn s) -> (forall s, I s -> Qe s) ->
  triple I m (fun _ => Qn) Qe.
Proof.
  intros H HQn HQe. apply (triple_weaken _ I _ _ (fun _ => I) _ I H); auto.
Qed.

Lemma seeks_snoc (t : list Effect) (e : Effect) :
  seeks (t ++ [e]) = seeks t ++ match e with SeekTo i _ => [i] | _ => [] end.
Proof. unfold seeks. rewrite omap_app. destruct e; reflexivity. Qed.

Lemma seeks_app (t1 t2 : list Effect) : seeks (t1 ++ t2) = seeks t1 ++ seeks t2.
Proof. apply omap_app. Qed.

Lemma seeks_DeleteFile (names : list string) : seeks (DeleteFile <$> names) = [].
Proof. induction names; [reflexivity | assumption]. Qed.

Lemma statuses_DeleteFile (names : list string) : statuses (DeleteFile <$> names) = [].
Proof. unfold statuses. rewrite exportStates_DeleteFile. reflexivity. Qed.

Lemma statuses_app (t1 t2 : list Effect) : statuses (t1 ++ t2) = statuses t1 ++ statuses t2.
Proof. unfold statuses. rewrite exportStates_app, fmap_app. reflexivity. Qed.

Lemma not_encoding_snoc (l : list ExportStatus) (st : ExportStatus) :
  encoding ∉ l -> st <> encoding -> encoding ∉ l ++ [st].
Proof. intros Hl Hst. rewrite elem_of_app, list_elem_of_singleton. intros [? | ?]; auto. Qed.

Ltac sampled_leaf :=
  unfold before_sampling, sampled, sampled_all in *; page_simpl;
  rewrite ?seeks_snoc, ?writes_snoc, ?statuses_snoc, ?app_nil_r;
  repeat match goal with H : _ /\ _ |- _ => destruct H end;
  repeat split; try assumption;
  try (apply not_encoding_snoc; [assumption | discriminate]).

Lemma prepare_before_sampling (env : Environment) (format : ExportFormat) :
  keeps before_sampling (exportPrepare env format).
Proof. unfold_handler. repeat keeps_step; sampled_leaf. Qed.

Lemma sampled_more (n : number) (k j j' : nat) (s : Page) :
  (j <= j')%nat -> sampled n k j s -> sampled n k j' s.
Proof.
  intros Hj (Hn & Hs & (l & Hw & Hl) & He). repeat split; try assumption.
  exists l. split; [exact Hw |].
  replace j' with (j + (j' - j))%nat by lia. rewrite seq_app.
  apply sublist_inserts_r. exact Hl.
Qed.

Lemma captureFrame_sampled (env : Environment) (format : ExportFormat) (duration step : number)
    (n : number) (i : nat) :
  triple (sampled n i i) (captureFrame env format duration step i)
    (fun _ => sampled n (S i) (S i)) (sampled n (S i) (S i)).
Proof.
  unfold captureFrame. cbv zeta.
  apply triple_bind with (Qm := fun _ => sampled n (S i) i).
  { unfold emit. apply triple_modify. intros s (Hn & Hs & Hw & He).
    unfold sampled. page_simpl. rewrite seeks_snoc, writes_snoc, statuses_snoc, !app_nil_r, Hs, seq_S.
    auto. }
  intros _. apply triple_bind with (Qm := fun _ => sampled n (S i) i).
  { apply keeps_weaken; [apply keeps_get | auto | intros ?; apply sampled_more; lia]. }
  intros s0. destruct (awaitSeek _ _ _) as [video outcome].
  apply triple_bind with (Qm := fun _ => sampled n (S i) i).
  { apply keeps_weaken; [apply keeps_modify; intros s Hs; sampled_leaf | auto
                         | intros ?; apply sampled_more; lia]. }
  intros _. destruct outcome as [[] | e].
  2: { apply triple_ret. intros ?. apply sampled_more. lia. }
  destruct (asciiFromVideo _ _ _ _ _ _) as [[frame |] | e].
  2: { apply triple_ret. intros ?. apply sampled_more. lia. }
  2: { apply triple_throw. intros ?. apply sampled_more. lia. }
  apply triple_bind with (Qm := fun _ => sampled n (S i) (S i)).
  - apply triple_tryCatch with (Qe' := sampled n (S i) (S i)).
    + destruct (pngFault env i) as [e |].
      { apply triple_throw. intros ?. apply sampled_more. lia. }
      unfold writeFile.
      apply triple_bind with (Qm := fun _ => sampled n (S i) (S i)).
      * unfold emit. apply triple_modify. intros s (Hn & Hs & (l & Hw & Hl) & He).
        unfold sampled. page_simpl.
        rewrite seeks_snoc, writes_snoc, statuses_snoc, !app_nil_r, Hw.
        repeat split; try assumption.
        exists (l ++ [i]). rewrite fmap_app, seq_S. split; [reflexivity |].
        apply sublist_app; [exact Hl | reflexivity].
      * intros _. as_keeps. unfold_handler. repeat keeps_step; sampled_leaf.
    + intros e. apply triple_throw. auto.
  - intros _. as_keeps. unfold_handler. repeat keeps_step; sampled_leaf.
Qed.

Lemma encode_sampled_all (env : Environment) (format : ExportFormat) (n : number) :
  keeps (sampled_all n) (exportEncode env format).
Proof. unfold_handler. repeat keeps_step; sampled_leaf. Qed.

Lemma sampled_sampled_some (n : number) (k : nat) (s : Page) :
  (k <= iterations n)%nat -> sampled n k k s -> sampled_some s.
Proof.
  intros Hk (Hn & Hs & (l & Hw & Hl) & He). exists k, l. rewrite Hn.
  repeat split; try assumption. intros H. contradiction.
Qed.

Lemma sampled_all_sampled_some (n : number) (s : Page) : sampled_all n s -> sampled_some s.
Proof.
  intros (Hn & Hs & l & Hw & Hl). exists (iterations n), l. rewrite Hn.
  repeat split; try assumption. lia.
Qed.

Lemma body_sampled (env : Environment) (format : ExportFormat) :
  triple before_sampling (tryCatch (exportBody env format) (exportCatch format))
    (fun _ => sampled_some) sampled_some.
Proof.
  assert (Hstart : forall s, before_sampling s -> sampled (totalFrames s) 0 0 s).
  { intros s (Hs & Hw & He). repeat split; try assumption.
    exists []. rewrite Hw. split; [reflexivity | apply sublist_nil_l]. }
  apply triple_tryCatch with (Qe' := sampled_some).
  - unfold exportBody.
    apply triple_bind with (Qm := fun _ => before_sampling).
    { apply keeps_weaken; [apply prepare_before_sampling | auto |].
      intros s Hs. apply (sampled_sampled_some (totalFrames s) 0); [lia | auto]. }
    intros [duration step]. intros s Hs. unfold mbind, M_bind, get.
    set (n := totalFrames s).
    pose proof (triple_forRange_indexed (fun i => sampled n i i)
                  (fun s' => exists k, (k <= iterations n)%nat /\ sampled n k k s')
                  (captureFrame env format duration step) 0 (iterations n)) as Hloop.
    cbn [Nat.add] in Hloop. specialize (Hloop
      (fun i Hi => triple_weaken _ _ _ _ _ _ _ (captureFrame_sampled env format duration step n i)
                     (fun _ H => H) (fun _ _ H => H)
                     (fun s' H => ex_intro _ (S i) (conj (proj2 Hi) H))) s (Hstart s Hs)).
    destruct (forRange _ 0 (iterations n) s) as [[[] | e] s1].
    + assert (Hall : sampled_all n s1).
      { destruct Hloop as (Hn & Hk & Hw & _). repeat split; assumption. }
      pose proof (encode_sampled_all env format n s1 Hall) as He.
      destruct (exportEncode env format s1) as [[[] | e] s2];
        apply (sampled_all_sampled_some n); exact He.
    + destruct Hloop as (k & Hk & H). apply (sampled_sampled_some n k); auto.
  - intros e. unfold exportCatch. cbv zeta.
    apply triple_bind with (Qm := fun _ => sampled_some); [| intros _];
      unfold setExportState, setStatus, emit; apply triple_modify;
      intros s (k & l & Hk & Hs & Hw & Hl & He); exists k, l; page_simpl;
      rewrite seeks_snoc, writes_snoc, statuses_snoc, !app_nil_r;
      repeat split; try assumption.
    intros [H | H%list_elem_of_singleton]%elem_of_app; [auto | discriminate H].
Qed.

(** The page after a run, from the page the guarded part left. *)
Lemma run_sampled_some (env : Environment) (format : ExportFormat) (cached : option FFmpeg) :
  sampled_some (runExport env format cached).
Proof.
  unfold runExport. destruct (selectedFile env) eqn:Hsel.
  - destruct (handleExport_phases env format cached Hsel) as (s2 & s3 & E2 & E3 & ->).
    cbn [snd].
    assert (H0 : before_sampling (startPage env cached)).
    { repeat split; try reflexivity. cbn. apply not_elem_of_nil. }
    pose proof (body_sampled env format (startPage env cached) H0) as H.
    rewrite E2 in H. destruct H as (k & l & Hk & Hs & Hw & Hl & He).
    destruct (exportFinally_spec s2) as (s3' & E3' & Hn & _ & Ht).
    rewrite E3 in E3'. injection E3' as <-.
    exists k, l. rewrite Hn.
    destruct Ht as [[_ (Ht & _)] | (_ & Ht & _)]; rewrite Ht;
      rewrite ?seeks_app, ?writes_app, ?statuses_app, ?seeks_DeleteFile, ?writes_DeleteFile,
        ?statuses_DeleteFile, ?app_nil_r; auto.
  - rewrite (handleExport_unselected env format cached Hsel). exists 0%nat, [].
    cbn [snd initialPage trace totalFrames]. split; [lia |].
    split; [reflexivity | split; [reflexivity | split; [reflexivity |]]].
    intros H. cbn in H. inversion H.
Qed.

(** X15. The sampling loop seeks the sampling instants in index order and
    skips none: whatever the environment does, the indices that a run asked
    the sampling element to seek are [0, 1, ..., k-1] for some [k] that does
    not exceed the frame count [N] of the run, and [k] is [N] whenever the
    run got as far as publishing the encoding status. *)
Theorem seeks_in_index_order (env : Environment) (format : ExportFormat)
    (cached : option FFmpeg) :
  let p := runExport env format cached in
  exists k,
    (k <= iterations (totalFrames p))%nat
    /\ seeks (trace p) = seq 0 k
    /\ (encoding ∈ statuses (trace p) -> k = iterations (totalFrames p)).
Proof.
  intros p. destruct (run_sampled_some env format cached) as (k & l & Hk & Hs & _ & _ & He).
  exists k. auto.
Qed.

(** X16. A still is written only for a sampling instant that was sought,
    at most once per instant, and in the order of the instants: the names
    that a run passes to [writeFile] are the frame names of a sub-sequence
    of the indices it sought. *)
Theorem writes_follow_seeks (env : Environment) (format : ExportFormat)
    (cached : option FFmpeg) :
  let p := runExport env format cached in
  exists l : list nat,
    writes (trace p) = frameName <$> l
    /\ l `sublist_of` seeks (trace p)
    /\ NoDup l
    /\ Forall (fun i => (i < iterations (totalFrames p))%nat) l.
Proof.
  intros p. subst p.
  destruct (run_sampled_some env format cached) as (k & l & Hk & Hs & Hw & Hl & _).
  exists l. rewrite Hs. repeat split; try assumption.
  - eapply sublist_NoDup; [apply NoDup_seq | exact Hl].
  - apply Forall_forall. intros i Hi.
    assert (Hi' : i ∈ seq 0 k) by (eapply elem_of_sublist; eassumption).
    apply list_elem_of_In, in_seq in Hi'. lia.
Qed.

(** ** What a run leaves in the store *)

Section StoreInvariant.
Context (R : number -> option string -> gset string -> Prop).

Lemma setStore_inv (st : gset string) (s : Page) :
  store_inv R s -> (is_Some (ffmpegRef s) -> R (totalFrames s) (outputName s) st) ->
  store_inv R (snd (setStore st s)) /\ fst (setStore st s) = Normal tt.
Proof.
  unfold store_inv, setStore, modify, storeOf. intros H Hst.
  destruct (ffmpegRef s) as [f |] eqn:E; cbn; rewrite ?E; eauto.
Qed.

Lemma emit_inv (e : Effect) : keeps (store_inv R) (emit e).
Proof. unfold emit. apply keeps_modify. intros s H. exact H. Qed.

Lemma writeFile_inv (env : Environment) (index : nat) (name : string) :
  (forall n o X, R n o X -> R n o ({[name]} ∪ X)) ->
  keeps (store_inv R) (writeFile env index name).
Proof.
  intros HR. unfold writeFile. apply keeps_bind; [apply emit_inv | intros _].
  destruct (writeFault env index); [apply keeps_throw |].
  intros s H. unfold mbind, M_bind, get.
  destruct (setStore_inv ({[name]} ∪ storeOf s) s H) as [H1 H2]; [intros _; apply HR, H |].
  destruct (setStore _ s) as [r s']. cbn [fst snd] in *. subst r. exact H1.
Qed.

Lemma execFfmpeg_inv (env : Environment) (args : list string) :
  (forall made n o X, exec env args = Normal made -> R n o X -> R n o (list_to_set made ∪ X)) ->
  keeps (store_inv R) (execFfmpeg env args).
Proof.
  intros HR. unfold execFfmpeg. apply keeps_bind; [apply emit_inv | intros _].
  destruct (exec env args) as [made | e] eqn:E; [| apply keeps_throw].
  intros s H. unfold mbind, M_bind, get.
  destruct (setStore_inv (list_to_set made ∪ storeOf s) s H) as [H1 H2];
    [intros _; apply (HR made); [reflexivity | exact H] |].
  destruct (setStore _ s) as [r s']. cbn [fst snd] in *. subst r. exact H1.
Qed.

Lemma readFile_inv (env : Environment) (name : string) :
  keeps (store_inv R) (readFile env name).
Proof.
  unfold readFile. apply keeps_bind; [apply emit_inv | intros _].
  apply keeps_bind; [apply keeps_get | intros s0].
  case_bool_decide; [destruct (readFault env) |]; keeps_step.
Qed.

Lemma ensureFfmpeg_inv (env : Environment) : keeps (store_inv R) (ensureFfmpeg env).
Proof.
  intros s H. unfold ensureFfmpeg, mbind, M_bind, get.
  destruct (ffmpegRef s) as [f |] eqn:E; [exact H |].
  destruct (loadFault env); [exact H |].
  unfold store_inv, storeOf in *. cbn. rewrite E in H. exact H.
Qed.

End StoreInvariant.

Ltac unfold_handler_but_files :=
  unfold exportBody, exportPrepare, exportEncode, exportCatch, captureFrame, primeSampling,
    assignCurrentTime, pauseSampling, setExportState, setStatus.

Ltac store_step :=
  first [ apply emit_inv | apply readFile_inv | apply ensureFfmpeg_inv | keeps_step ].

Ltac store_leaf :=
  unfold store_inv, storeOf, only_initial, only_stills, only_run, only_cleanable in *;
  cbn [trace ffmpegRef samplingVideo objectUrl outputName totalFrames
       with_trace with_ffmpegRef with_samplingVideo with_objectUrl with_outputName
       with_totalFrames] in *;
  try assumption.

Lemma prepare_only_initial (env : Environment) (format : ExportFormat) (init : gset string) :
  keeps (store_inv (only_initial init)) (exportPrepare env format).
Proof. unfold_handler_but_files. repeat store_step; store_leaf. Qed.

Ltac store_side :=
  unfold only_initial, only_stills, only_run, only_cleanable, produced;
  intros;
  repeat match goal with H : _ /\ _ |- _ => destruct H end;
  repeat split; try assumption;
  let x := fresh "x" in
  let Hx := fresh "Hx" in
  intros x Hx; apply elem_of_union in Hx; destruct Hx as [Hx | Hx]; eauto.

Lemma captureFrame_only_stills (env : Environment) (format : ExportFormat)
    (duration step : number) (init : gset string) (n : number) (i : nat) :
  (i < iterations n)%nat ->
  keeps (store_inv (only_stills init n)) (captureFrame env format duration step i).
Proof.
  intros Hi. unfold_handler_but_files.
  repeat first [store_step | apply writeFile_inv]; try solve [store_leaf].
  store_side. apply elem_of_singleton in Hx. subst. eauto.
Qed.

Lemma only_stills_cleanable (env : Environment) (format : ExportFormat) (init : gset string)
    (n : number) (s : Page) :
  store_inv (only_stills init n) s -> store_inv (only_cleanable env format init) s.
Proof.
  unfold store_inv, only_stills, only_cleanable. intros [Hn H] x Hx. rewrite Hn.
  destruct (H x Hx) as [? | ?]; auto.
Qed.

Lemma only_run_cleanable (env : Environment) (format : ExportFormat) (init : gset string)
    (n : number) (s : Page) :
  store_inv (only_run env format init n) s -> store_inv (only_cleanable env format init) s.
Proof.
  unfold store_inv, only_run, only_cleanable. intros (Hn & Ho & H) x Hx. rewrite Hn.
  destruct (H x Hx) as [? | [? | ?]]; auto.
Qed.

Lemma encode_only_run (env : Environment) (format : ExportFormat) (init : gset string)
    (n : number) :
  triple (store_inv (only_stills init n)) (exportEncode env format)
    (fun _ => store_inv (only_cleanable env format init))
    (store_inv (only_cleanable env format init)).
Proof.
  unfold exportEncode. cbv zeta.
  do 3 (apply triple_bind with (Qm := fun _ => store_inv (only_stills init n));
        [apply keeps_weaken;
         [unfold_handler_but_files; repeat store_step; store_leaf
         | auto | apply only_stills_cleanable]
        | intros ?]).
  apply triple_bind with (Qm := fun _ => store_inv (only_run env format init n)).
  { apply triple_modify. intros s [Hn H]. store_leaf. repeat split; auto.
    intros x Hx. destruct (H x Hx); auto. }
  intros _. apply keeps_weaken; [| apply only_run_cleanable | apply only_run_cleanable].
  unfold_handler_but_files.
  repeat first [store_step | apply execFfmpeg_inv]; try solve [store_leaf].
  store_side. right. right. exists made. split; [assumption |].
  apply elem_of_list_to_set in Hx. exact Hx.
Qed.

Lemma body_only_cleanable (env : Environment) (format : ExportFormat) (init : gset string) :
  triple (store_inv (only_initial init))
    (tryCatch (exportBody env format) (exportCatch format))
    (fun _ => store_inv (only_cleanable env format init))
    (store_inv (only_cleanable env format init)).
Proof.
  assert (Hinit : forall s, store_inv (only_initial init) s ->
                            store_inv (only_stills init (totalFrames s)) s).
  { intros s H. split; [reflexivity |]. intros x Hx. left. apply H, Hx. }
  apply triple_tryCatch with (Qe' := store_inv (only_cleanable env format init)).
  - unfold exportBody.
    apply triple_bind with (Qm := fun _ => store_inv (only_initial init)).
    { apply keeps_weaken; [apply prepare_only_initial | auto |].
      intros s H. eapply only_stills_cleanable, Hinit, H. }
    intros [duration step]. intros s Hs. unfold mbind, M_bind, get.
    set (n := totalFrames s).
    pose proof (keeps_forRange_bounded (store_inv (only_stills init n))
                  (captureFrame env format duration step) 0 (iterations n)
                  (fun i Hi => captureFrame_only_stills env format duration step init n i
                                 (proj2 Hi)) s (Hinit s Hs)) as Hloop.
    destruct (forRange _ 0 (iterations n) s) as [[[] | e] s1].
    + exact (encode_only_run env format init n s1 Hloop).
    + eapply only_stills_cleanable, Hloop.
  - intros e. as_keeps. unfold_handler_but_files. repeat store_step; store_leaf.
Qed.

Lemma frameName_cleaned (s : Page) (i : nat) :
  (i < iterations (totalFrames s))%nat -> frameName i ∈ cleanupNames s.
Proof.
  intros Hi. unfold cleanupNames. apply elem_of_app. left.
  apply list_elem_of_fmap. exists i. split; [reflexivity |].
  apply list_elem_of_In, in_seq. lia.
Qed.

(** X17. A run leaves no file of its own in the store of the encoder:
    every name in the store after the handler has run was in the store
    before, or is a by-product of the encoder other than the output file.
    In particular the store is empty afterwards when it was empty before
    and the encoder makes nothing but the output file. *)
Theorem export_leaves_no_file (env : Environment) (format : ExportFormat)
    (cached : option FFmpeg) :
  let p := runExport env format cached in
  (forall name, name ∈ storeOf p ->
     name ∈ storeOf (initialPage cached)
     \/ (produced env format name /\ name <> OUTPUT_NAME format))
  /\ (storeOf (initialPage cached) = ∅ ->
      (forall name, produced env format name -> name = OUTPUT_NAME format) ->
      storeOf p = ∅).
Proof.
  intros p.
  assert (H : forall name, name ∈ storeOf p ->
                name ∈ storeOf (initialPage cached)
                \/ (produced env format name /\ name <> OUTPUT_NAME format)).
  { subst p. unfold runExport. destruct (selectedFile env) eqn:Hsel.
    2: { rewrite (handleExport_unselected env format cached Hsel). auto. }
    destruct (handleExport_phases env format cached Hsel) as (s2 & s3 & E2 & E3 & ->).
    cbn [snd].
    assert (H0 : store_inv (only_initial (storeOf (initialPage cached))) (startPage env cached)).
    { unfold store_inv, only_initial. reflexivity. }
    pose proof (body_only_cleanable env format _ (startPage env cached) H0) as H.
    rewrite E2 in H.
    destruct (exportFinally_spec s2) as (s3' & E3' & _ & _ & Ht).
    rewrite E3 in E3'. injection E3' as <-.
    destruct Ht as [[_ (_ & Hst & _)] | (_ & _ & Hst)]; rewrite Hst; [| set_solver].
    intros name [Hin Hout]%elem_of_difference.
    rewrite elem_of_list_to_set in Hout.
    destruct (H name Hin) as [Hi | [(i & Hi & ->) | [Hp Ho]]].
    - left. exact Hi.
    - exfalso. apply Hout, frameName_cleaned, Hi.
    - right. split; [exact Hp |]. intros ->. apply Hout.
      unfold cleanupNames. rewrite Ho. apply elem_of_app. right. apply list_elem_of_singleton.
      reflexivity. }
  split; [exact H |].
  intros Hempty Honly. apply elem_of_equiv_empty_L. intros name Hname.
  destruct (H name Hname) as [Hi | [Hp Hne]].
  - rewrite Hempty in Hi. set_solver.
  - apply Hne, Honly, Hp.
Qed.

(** ** Failures before the sampling loop *)

Lemma errorMessageFor_unavailable :
  errorMessageFor (ErrorObj ENCODER_UNAVAILABLE)
  = "Browser compatibility issue. Please refresh and try again.".
Proof. vm_compute. reflexivity. Qed.

Lemma errorMessageFor_duration :
  errorMessageFor (ErrorObj "Video duration unavailable for export")
  = "Video duration unavailable for export".
Proof. vm_compute. reflexivity. Qed.

Lemma iterations_0 : iterations #0 = 0%nat.
Proof. reflexivity. Qed.

(** X18. When the encoder cannot be loaded the export stops at once with
    the browser-compatibility message: the run publishes the initializing
    state and then the error state, and does nothing else; no instant is
    sought, nothing is written, run or deleted, and no encoder is kept. *)
Theorem export_without_encoder (env : Environment) (format0 : ExportFormat) (e : thrown) :
  selectedFile env = true ->
  loadFault env = Some e ->
  let p := runExport env format0 None in
  exportStates (trace p)
  = [ {| status := initializing; format := Some format0; progress := #0.05;
         message := Some "Loading encoder" |};
      {| status := error; format := Some format0; progress := #0;
         message := Some "Browser compatibility issue. Please refresh and try again." |} ]
  /\ (exists text,
        trace p
        = [ SetStatus text;
            SetExportState {| status := initializing; format := Some format0; progress := #0.05;
                              message := Some "Loading encoder" |};
            SetExportState {| status := error; format := Some format0; progress := #0;
                              message := Some "Browser compatibility issue. Please refresh and try again." |};
            SetStatus "ERROR> Browser compatibility issue. Please refresh and try again." ])
  /\ ffmpegRef p = None.
Proof.
  intros Hsel Hload p. subst p. unfold runExport.
  rewrite (handleExport_selected env format0 None Hsel).
  unfold tryFinally, tryCatch, exportBody, exportPrepare, ensureFfmpeg, exportCatch,
    exportFinally, pauseSampling, setExportState, setStatus, emit, modify, get, throw,
    mbind, M_bind, mret, M_ret.
  cbn [startPage initialPage ffmpegRef trace with_trace with_totalFrames with_outputName
       with_objectUrl with_samplingVideo fst snd app samplingVideo objectUrl outputName
       totalFrames].
  rewrite Hload.
  cbn [startPage initialPage ffmpegRef trace with_trace with_totalFrames with_outputName
       with_objectUrl with_samplingVideo fst snd app samplingVideo objectUrl outputName
       totalFrames].
  rewrite errorMessageFor_unavailable.
  repeat split. eexists. reflexivity.
Qed.

Lemma export_without_encoder_witness :
  let p := runExport noEncoderEnvironment gif None in
  exportStates (trace p)
  = [ {| status := initializing; format := Some gif; progress := #0.05;
         message := Some "Loading encoder" |};
      {| status := error; format := Some gif; progress := #0;
         message := Some "Browser compatibility issue. Please refresh and try again." |} ]
  /\ (exists text,
        trace p
        = [ SetStatus text;
            SetExportState {| status := initializing; format := Some gif; progress := #0.05;
                              message := Some "Loading encoder" |};
            SetExportState {| status := error; format := Some gif; progress := #0;
                              message := Some "Browser compatibility issue. Please refresh and try again." |};
            SetStatus "ERROR> Browser compatibility issue. Please refresh and try again." ])
  /\ ffmpegRef p = None.
Proof.
  apply (export_without_encoder noEncoderEnvironment gif
           (ErrorObj "SharedArrayBuffer is not defined")); reflexivity.
Defined.

Lemma errorMessageFor_unreadable :
  errorMessageFor (ErrorObj "Unable to read video for export")
  = "Unable to read video for export".
Proof. vm_compute. reflexivity. Qed.

(** X19. A file whose metadata cannot be read, or whose duration is not a
    positive finite number (a live stream, an empty clip), is refused before
    any frame is planned: the run publishes the initializing and the
    sampling state and then the error state with the reason; the frame count
    stays 0, no instant is sought, nothing is written, run or deleted, and
    the encoder that was loaded is kept. *)
Theorem export_refuses_unreadable_video (env : Environment) (format0 : ExportFormat)
    (cached : option FFmpeg) :
  selectedFile env = true ->
  is_Some cached \/ loadFault env = None ->
  metadataLoads env = false
  \/ isFinite (duration (source env)) = false \/ le (duration (source env)) #0 = true ->
  let p := runExport env format0 cached in
  let reason := if metadataLoads env then "Video duration unavailable for export"
                else "Unable to read video for export" in
  (exists text,
     trace p
     = [ SetStatus text;
         SetExportState {| status := initializing; format := Some format0; progress := #0.05;
                           message := Some "Loading encoder" |};
         SetExportState {| status := sampling; format := Some format0; progress := #0.1;
                           message := Some "Sampling frames" |};
         SetExportState {| status := error; format := Some format0; progress := #0;
                           message := Some reason |};
         SetStatus ("ERROR> " +:+ reason) ])
  /\ totalFrames p = #0
  /\ is_Some (ffmpegRef p).
Proof.
  intros Hsel Henc Hbad p reason. subst p reason. unfold runExport.
  rewrite (handleExport_selected env format0 cached Hsel).
  assert (Hcheck : metadataLoads env = true ->
                   negb (isFinite (duration (source env))) || le (duration (source env)) #0
                   = true).
  { intros Hm. destruct Hbad as [Hb | [Hb | Hb]]; [congruence | |]; rewrite Hb;
      [reflexivity | apply orb_true_r]. }
  unfold tryFinally, tryCatch, exportBody, exportPrepare, ensureFfmpeg, exportCatch,
    exportFinally, pauseSampling, setExportState, setStatus, emit, modify, get, throw,
    mbind, M_bind, mret, M_ret.
  destruct cached as [f |]; [| destruct Henc as [[? [=]] | Hload]; rewrite Hload];
    cbn [startPage initialPage ffmpegRef trace with_trace with_totalFrames with_outputName
         with_objectUrl with_samplingVideo fst snd app samplingVideo objectUrl outputName
         totalFrames with_ffmpegRef];
    (destruct (metadataLoads env) eqn:Hm;
     [ cbn [startPage initialPage ffmpegRef trace with_trace with_totalFrames with_outputName
            with_objectUrl with_samplingVideo fst snd app samplingVideo objectUrl outputName
            totalFrames with_ffmpegRef];
       rewrite (Hcheck eq_refl)
     | ]);
    cbn [startPage initialPage ffmpegRef trace with_trace with_totalFrames with_outputName
         with_objectUrl with_samplingVideo fst snd app samplingVideo objectUrl outputName
         totalFrames with_ffmpegRef];
    rewrite ?errorMessageFor_duration, ?errorMessageFor_unreadable, ?iterations_0;
    cbn [forRange mret M_ret startPage initialPage ffmpegRef trace with_trace with_totalFrames
         with_outputName with_objectUrl with_samplingVideo fst snd app samplingVideo objectUrl
         outputName totalFrames with_ffmpegRef];
    (split; [eexists; reflexivity | split; [reflexivity | eauto]]).
Qed.

Lemma export_refuses_unreadable_video_witness :
  let p := runExport liveEnvironment mov None in
  (exists text,
     trace p
     = [ SetStatus text;
         SetExportState {| status := initializing; format := Some mov; progress := #0.05;
                           message := Some "Loading encoder" |};
         SetExportState {| status := sampling; format := Some mov; progress := #0.1;
                           message := Some "Sampling frames" |};
         SetExportState {| status := error; format := Some mov; progress := #0;
                           message := Some "Video duration unavailable for export" |};
         SetStatus ("ERROR> " +:+ "Video duration unavailable for export") ])
  /\ totalFrames p = #0
  /\ is_Some (ffmpegRef p).
Proof.
  apply (export_refuses_unreadable_video liveEnvironment mov None).
  - reflexivity.
  - right. reflexivity.
  - right. left. reflexivity.
Defined.

(** ** The progress bar *)

Lemma triple_True {A : Type} (m : M A) :
  triple (fun _ => True) m (fun _ _ => True) (fun _ => True).
Proof. intros s _. destruct (m s) as [[a | e] s']; exact I. Qed.

Lemma triple_conj {A : Type} (P1 P2 : Page -> Prop) (m : M A)
    (Qn1 Qn2 : A -> Page -> Prop) (Qe1 Qe2 : Page -> Prop) :
  triple P1 m Qn1 Qe1 -> triple P2 m Qn2 Qe2 ->
  triple (fun s => P1 s /\ P2 s) m (fun a s => Qn1 a s /\ Qn2 a s) (fun s => Qe1 s /\ Qe2 s).
Proof.
  intros H1 H2 s [Hs1 Hs2]. specialize (H1 s Hs1). specialize (H2 s Hs2).
  destruct (m s) as [[a | e] s']; auto.
Qed.

Ltac progress_leaf :=
  unfold progress_ok in *; page_simpl; rewrite ?exportStates_snoc, ?app_nil_r;
  try assumption;
  try (apply Forall_app; split; [assumption | repeat constructor]).

Lemma prepare_progress (env : Environment) (format : ExportFormat) :
  keeps progress_ok (exportPrepare env format).
Proof. unfold_handler. repeat keeps_step; progress_leaf. Qed.

Lemma duration_checked (d : number) :
  negb (isFinite d) || le d #0 = false -> exists q : Qc, d = Num q /\ (0 < q)%Qc.
Proof.
  destruct d as [q | | |]; try discriminate. cbn [isFinite negb orb]. unfold le, ofQ.
  intros H. exists q. split; [reflexivity |].
  apply Qc_ltb_lt. unfold Qc_ltb. unfold Qc_leb in H. rewrite H. reflexivity.
Qed.

Lemma prepare_plans_frames (env : Environment) (format : ExportFormat) :
  triple (fun _ => True) (exportPrepare env format) (fun _ => frames_planned) (fun _ => True).
Proof.
  unfold exportPrepare. cbv zeta.
  do 5 (apply triple_bind with (Qm := fun _ _ => True); [apply triple_True | intros ?]).
  apply triple_bind with (Qm := fun _ _ => True); [apply triple_True | intros s0].
  destruct (negb (isFinite (duration (samplingVideo s0))) || le (duration (samplingVideo s0)) #0)
    eqn:E.
  { apply triple_bind with (Qm := fun _ _ => False); [| intros ?; intros s Hs; contradiction].
    apply triple_throw. auto. }
  destruct (duration_checked _ E) as (q & -> & Hq).
  destruct (totalFrames_range q (entitlement env) Hq) as (z & n & Hz & Hn & _ & Hr).
  do 3 (apply triple_bind with (Qm := fun _ _ => True); [apply triple_True | intros ?]).
  apply triple_bind with (Qm := fun _ => frames_planned).
  { apply triple_modify. intros s _. exists n. split; [lia | exact Hn]. }
  intros _. apply (triple_weaken _ frames_planned _ _ (fun _ => frames_planned) _ frames_planned);
    auto.
  as_keeps. unfold_handler. repeat keeps_step; unfold frames_planned in *; page_simpl; assumption.
Qed.

Lemma this_inv (x : Qc) : (this (/ x)%Qc == / this x)%Q.
Proof. apply Qred_correct. Qed.

Lemma sampling_progress_range (i : nat) (z : Z) :
  (Z.of_nat i < z)%Z ->
  le #0.1 (#0.1 + (ofnat i / ofZ z) * #0.5) && lt (#0.1 + (ofnat i / ofZ z) * #0.5) #0.6 = true.
Proof.
  intros Hi. unfold ofnat, ofZ, ofQ, div.
  assert (Hz : Qc_eqb (Q2Qc (inject_Z z)) 0 = false).
  { apply Qc_pos_nonzero. unfold Qclt. rewrite (this_Q2Qc (inject_Z z)).
    change (inject_Z 0 < inject_Z z)%Q. rewrite <- Zlt_Qlt. lia. }
  rewrite Hz. cbn [mul add le lt].
  assert (H0 : (0 <= inject_Z (Z.of_nat i) / inject_Z z)%Q).
  { apply Qle_shift_div_l.
    - change 0%Q with (inject_Z 0). rewrite <- Zlt_Qlt. lia.
    - rewrite Qmult_0_l. change 0%Q with (inject_Z 0). rewrite <- Zle_Qle. lia. }
  assert (H1 : (inject_Z (Z.of_nat i) / inject_Z z < 1)%Q).
  { apply Qlt_shift_div_r.
    - change 0%Q with (inject_Z 0). rewrite <- Zlt_Qlt. lia.
    - rewrite Qmult_1_l. rewrite <- Zlt_Qlt. exact Hi. }
  apply andb_true_intro. split; [apply Qc_leb_le | apply Qc_ltb_lt];
    unfold Qcdiv; qc_to_q; rewrite this_inv, this_Q2Qc;
    change (inject_Z (Z.of_nat i) * / inject_Z z)%Q
      with (inject_Z (Z.of_nat i) / inject_Z z)%Q;
    set (t := (inject_Z (Z.of_nat i) / inject_Z z)%Q) in *; lra.
Qed.

Lemma captureFrame_progress (env : Environment) (format : ExportFormat) (duration step : number)
    (z : Z) (i : nat) :
  (Z.of_nat i < z)%Z ->
  keeps (fun s => progress_ok s /\ totalFrames s = ofZ z)
    (captureFrame env format duration step i).
Proof.
  intros Hi. unfold captureFrame. cbv zeta.
  set (I := fun s => progress_ok s /\ totalFrames s = ofZ z).
  assert (L : forall (s : Page) (t : list Effect),
             I s -> exportStates t = [] -> I (with_trace (trace s ++ t) s)).
  { intros s t [Hp Hn] Ht. split; [| exact Hn]. unfold progress_ok. cbn [trace with_trace].
    rewrite exportStates_app, Ht, app_nil_r. exact Hp. }
  apply keeps_bind.
  { unfold emit. apply keeps_modify. intros s Hs. apply L; auto. }
  intros _. apply keeps_bind; [apply keeps_get | intros s0].
  destruct (awaitSeek _ _ _) as [video outcome].
  apply keeps_bind.
  { apply keeps_modify. intros s [Hp Hn]. split; assumption. }
  intros _. destruct outcome as [[] | e]; [| apply keeps_ret].
  destruct (asciiFromVideo _ _ _ _ _ _) as [[frame |] | e];
    [| apply keeps_ret | apply keeps_throw].
  apply keeps_bind.
  { unfold_handler. subst I. repeat keeps_step.
    all: match goal with H : _ /\ _ |- _ => destruct H as [Hp Hn] end.
    all: split; [progress_leaf | page_simpl; assumption]. }
  intros _. intros s [Hp Hn]. unfold mbind, M_bind, get, setExportState, emit, modify.
  split; [| exact Hn]. unfold progress_ok. cbn [trace with_trace].
  rewrite exportStates_snoc. apply Forall_app. split; [exact Hp |].
  constructor; [| constructor]. unfold progress_in_range. cbn [status progress].
  rewrite Hn. apply sampling_progress_range. exact Hi.
Qed.

Lemma encode_progress (env : Environment) (format : ExportFormat) :
  keeps progress_ok (exportEncode env format).
Proof. unfold_handler. repeat keeps_step; progress_leaf. Qed.

Lemma body_progress (env : Environment) (format : ExportFormat) :
  keeps progress_ok (tryCatch (exportBody env format) (exportCatch format)).
Proof.
  apply keeps_tryCatch.
  - unfold exportBody.
    apply triple_bind with (Qm := fun _ s => progress_ok s /\ frames_planned s).
    { apply (triple_weaken _ (fun s => progress_ok s /\ True) _ _
               (fun _ s => progress_ok s /\ frames_planned s) _ (fun s => progress_ok s /\ True)).
      - apply triple_conj; [apply prepare_progress | apply prepare_plans_frames].
      - auto.
      - auto.
      - intros s [H _]. exact H. }
    intros [duration step]. intros s [Hp (z & Hz & Hn)]. unfold mbind, M_bind, get.
    rewrite Hn, iterations_ofZ.
    pose proof (keeps_forRange_bounded (fun s => progress_ok s /\ totalFrames s = ofZ z)
                  (captureFrame env format duration step) 0 (Z.to_nat z)
                  (fun i Hi => captureFrame_progress env format duration step z i
                                 ltac:(lia)) s (conj Hp Hn)) as Hloop.
    destruct (forRange _ 0 (Z.to_nat z) s) as [[[] | e] s1].
    + apply encode_progress. apply Hloop.
    + apply Hloop.
  - intros e. unfold_handler. repeat keeps_step; progress_leaf.
Qed.

(** X20. Every export state that a run publishes carries the progress of
    its phase: 5% while the encoder loads, from 10% up to but never reaching
    60% while frames are sampled, 70% while encoding, 90% while the download
    is prepared, 100% when done and 0 on error.  In particular the progress
    always lies between 0 and 1. *)
Theorem progress_matches_phase (env : Environment) (format : ExportFormat)
    (cached : option FFmpeg) :
  Forall (fun st => progress_in_range st = true
                    /\ le #0 (progress st) = true /\ le (progress st) #1 = true)
         (exportStates (trace (runExport env format cached))).
Proof.
  assert (H : progress_ok (runExport env format cached)).
  { unfold runExport. destruct (selectedFile env) eqn:Hsel.
    - destruct (handleExport_phases env format cached Hsel) as (s2 & s3 & E2 & E3 & ->).
      cbn [snd]. unfold progress_ok. rewrite (exportFinally_exportStates _ _ E3).
      pose proof (body_progress env format (startPage env cached)) as H.
      rewrite E2 in H. apply H. constructor.
    - rewrite (handleExport_unselected env format cached Hsel). constructor. }
  unfold progress_ok in H. eapply Forall_impl; [exact H |].
  intros st Hst. split; [exact Hst |]. unfold progress_in_range in Hst.
  destruct (progress st) as [q | | |]; destruct (status st); try discriminate Hst;
    cbn [eqb le lt] in *; unfold ofQ;
    try (apply Qc_eqb_eq in Hst; subst q; split; reflexivity).
  apply andb_prop in Hst. destruct Hst as [H1 H2].
  apply Qc_leb_le in H1. apply Qc_ltb_lt in H2.
  split; apply Qc_leb_le; unfold Qcle, Qclt in *; rewrite ?this_Q2Qc in *; lra.
Qed.

(** ** A run in which nothing fails *)

Lemma seek_start_seekFault (video : HTMLVideoElement) (time : number) :
  seekFault (sk_video (seek_start video time)) = seekFault video.
Proof.
  unfold seek_start, setCurrentTime. cbv zeta.
  destruct (seekFault (pause video) _ _); reflexivity.
Qed.

Lemma seek_step_seekFault (st : SeekState) (ev : SeekEvent) :
  seekFault (sk_video (seek_step st ev)) = seekFault (sk_video st).
Proof.
  destruct ev; unfold seek_step, seek_finish; cbn;
    repeat match goal with |- context [if ?c then _ else _] => destruct c end; reflexivity.
Qed.

Lemma seek_run_seekFault (events : list SeekEvent) (st : SeekState) :
  seekFault (sk_video (fold_left seek_step events st)) = seekFault (sk_video st).
Proof.
  revert st. induction events as [| ev events IH]; intros st; [reflexivity |].
  cbn [fold_left]. rewrite IH. apply seek_step_seekFault.
Qed.

(** A seek leaves the intrinsic size of the frames alone. *)
Lemma seek_start_frameSize (video : HTMLVideoElement) (time : number) :
  frameSize (sk_video (seek_start video time)) = frameSize video.
Proof.
  unfold seek_start, setCurrentTime. cbv zeta.
  destruct (seekFault (pause video) _ _); reflexivity.
Qed.

Lemma seek_step_frameSize (st : SeekState) (ev : SeekEvent) :
  frameSize (sk_video (seek_step st ev)) = frameSize (sk_video st).
Proof.
  destruct ev; unfold seek_step, seek_finish; cbn;
    repeat match goal with |- context [if ?c then _ else _] => destruct c end; reflexivity.
Qed.

Lemma seek_run_frameSize (events : list SeekEvent) (st : SeekState) :
  frameSize (sk_video (fold_left seek_step events st)) = frameSize (sk_video st).
Proof.
  revert st. induction events as [| ev events IH]; intros st; [reflexivity |].
  cbn [fold_left]. rewrite IH. apply seek_step_frameSize.
Qed.

(** The grid depends on the element through the size of its frames only. *)
Lemma computeGrid_frameSize (v v' : HTMLVideoElement) (size : number) :
  frameSize v' = frameSize v -> computeGrid v' size = computeGrid v size.
Proof. unfold frameSize, computeGrid. intros [= -> ->]. reflexivity. Qed.

(** On an element that accepts every seek, an awaited [seekVideo] is
    fulfilled. *)
Lemma awaitSeek_ok (video : HTMLVideoElement) (time : number) (signals : list SeekEvent) :
  never_faults video ->
  exists video', awaitSeek video time signals = (video', Normal tt)
                 /\ never_faults video' /\ frameSize video' = frameSize video.
Proof.
  intros H. unfold awaitSeek. eexists. split; [| split].
  - f_equal.
    destruct (seek_start_ok video time (H _ _)) as [Hw _].
    pose proof (seek_run_waiting (signals ++ [TimerFired]) _ Hw) as Hd.
    destruct (signals ++ [TimerFired]) as [| ev evs] eqn:E.
    { destruct signals; discriminate E. }
    unfold seekVideo. destruct Hd as (_ & -> & _). reflexivity.
  - intros k t. unfold seekVideo. rewrite seek_run_seekFault, seek_start_seekFault. apply H.
  - unfold seekVideo. rewrite seek_run_frameSize. apply seek_start_frameSize.
Qed.

Lemma assignCurrentTime_never_faults (t : number) :
  keeps (fun s => never_faults (samplingVideo s)) (assignCurrentTime t).
Proof.
  intros s H. unfold assignCurrentTime, setCurrentTime, mbind, M_bind, get, modify, throw, mret,
    M_ret.
  cbn [samplingVideo with_samplingVideo]. destruct (seekFault (samplingVideo s) _ _); exact H.
Qed.

Lemma prepare_never_faults (env : Environment) (format : ExportFormat) :
  never_faults (source env) ->
  keeps (fun s => never_faults (samplingVideo s)) (exportPrepare env format).
Proof.
  intros H. unfold exportPrepare, primeSampling, pauseSampling, ensureFfmpeg, setExportState, emit.
  repeat first [apply assignCurrentTime_never_faults | keeps_step]; page_simpl; assumption.
Qed.

Lemma assignCurrentTime_frameSize (src : HTMLVideoElement) (t : number) :
  keeps (fun s => frameSize (samplingVideo s) = frameSize src) (assignCurrentTime t).
Proof.
  intros s H. unfold assignCurrentTime, setCurrentTime, mbind, M_bind, get, modify, throw, mret,
    M_ret.
  cbn [samplingVideo with_samplingVideo]. destruct (seekFault (samplingVideo s) _ _); exact H.
Qed.

(** When the preparation is over the sampling element shows the frames of
    the selected file. *)
Lemma prepare_frameSize (env : Environment) (format : ExportFormat) :
  triple (fun _ => True) (exportPrepare env format)
    (fun _ s => frameSize (samplingVideo s) = frameSize (source env)) (fun _ => True).
Proof.
  unfold exportPrepare. cbv zeta.
  do 4 (apply triple_bind with (Qm := fun _ _ => True); [apply triple_True | intros ?]).
  apply triple_bind
    with (Qm := fun _ s => frameSize (samplingVideo s) = frameSize (source env)).
  { destruct (metadataLoads env); [| apply triple_throw; auto].
    apply triple_modify. intros s _. reflexivity. }
  intros _.
  apply (triple_weaken _ (fun s => frameSize (samplingVideo s) = frameSize (source env)) _ _
           (fun _ s => frameSize (samplingVideo s) = frameSize (source env)) _
           (fun s => frameSize (samplingVideo s) = frameSize (source env))); auto.
  as_keeps. unfold primeSampling, pauseSampling, setExportState, emit.
  repeat first [apply assignCurrentTime_frameSize | keeps_step]; page_simpl; assumption.
Qed.

Lemma writeFile_run (env : Environment) (index : nat) (name : string) (s : Page) :
  writeFault env index = None ->
  exists s', writeFile env index name s = (Normal tt, s')
    /\ trace s' = trace s ++ [WriteFile name]
    /\ totalFrames s' = totalFrames s
    /\ samplingVideo s' = samplingVideo s
    /\ (has_encoder s -> has_encoder s').
Proof.
  intros H. unfold writeFile, setStore, emit, modify, get, mbind, M_bind. rewrite H.
  cbn [ffmpegRef with_trace]. destruct (ffmpegRef s) eqn:E; eexists; (split; [reflexivity |]);
    cbn; repeat split; auto. unfold has_encoder. cbn. eauto.
Qed.

Lemma captureFrame_run (env : Environment) (format0 : ExportFormat) (duration step : number)
    (n : number) (i : nat) (s : Page) :
  cooperative env format0 -> capturing (source env) n i s ->
  exists s', captureFrame env format0 duration step i s = (Normal tt, s')
             /\ capturing (source env) n (S i) s'.
Proof.
  intros Hco (Hn & [Hv Hz] & He & Hs & Hw & Hst).
  cbv [captureFrame emit modify get mbind M_bind mret M_ret setExportState].
  cbn [samplingVideo with_trace with_samplingVideo].
  destruct (awaitSeek_ok (samplingVideo s)
              (clampTime duration (if eqb step #0 then #0 else ofnat i * step))
              (seekSignals env i) Hv) as (video & -> & Hv' & Hz').
  rewrite Hz in Hz'.
  destruct (co_grid env format0 Hco i) as (w & h & Ew & Eh & Hfault).
  rewrite <- (computeGrid_frameSize _ _ _ Hz') in Ew, Eh.
  destruct (asciiFromVideo_returns video (createCanvas (bufferContext env) (bufferFault env))
              (charset env) (chosenScheme env) (charPixelRef env i) (contrastRef env i) w h
              (co_buffer_canvas env format0 Hco) Ew Eh Hfault)
    as [frame ->].
  rewrite (co_png env format0 Hco i). unfold tryCatch.
  match goal with
  | |- context [writeFile env i (frameName i) ?s1] =>
      destruct (writeFile_run env i (frameName i) s1 (co_write env format0 Hco i))
        as (s2 & -> & Ht2 & Hn2 & Hv2 & He2)
  end.
  cbn [trace with_trace with_samplingVideo totalFrames samplingVideo] in Ht2, Hn2, Hv2.
  eexists. split; [reflexivity |].
  unfold capturing. cbn [trace with_trace totalFrames samplingVideo].
  rewrite Hn2, Hv2, Ht2.
  rewrite !seeks_snoc, !writes_snoc, !app_nil_r, Hs, Hw, !seq_S, fmap_app.
  repeat split; try assumption; try reflexivity.
  - apply He2. exact He.
  - destruct Hst as [k Hk]. exists (S k). cbn [trace with_trace].
    rewrite !statuses_snoc, !app_nil_r, Hk. cbn [status].
    rewrite (replicate_S_end (S k)). reflexivity.
Qed.

Lemma loop_run (env : Environment) (format0 : ExportFormat) (duration step : number)
    (n : number) (count first : nat) (s : Page) :
  cooperative env format0 -> capturing (source env) n first s ->
  exists s', forRange (captureFrame env format0 duration step) first count s = (Normal tt, s')
             /\ capturing (source env) n (first + count) s'.
Proof.
  intros Hco. revert first s. induction count as [| k IH]; intros first s H.
  - exists s. rewrite Nat.add_0_r. split; [reflexivity | exact H].
  - cbn [forRange]. unfold mbind, M_bind.
    destruct (captureFrame_run env format0 duration step n first s Hco H) as (s1 & -> & H1).
    destruct (IH (S first) s1 H1) as (s2 & E2 & H2). exists s2.
    replace (first + S k)%nat with (S first + k)%nat by lia. auto.
Qed.

Lemma setStore_some (st : gset string) (s : Page) (f : FFmpeg) :
  ffmpegRef s = Some f -> setStore st s = (Normal tt, with_ffmpegRef (Some {| files := st |}) s).
Proof. intros H. unfold setStore, modify. rewrite H. reflexivity. Qed.

Lemma exportEncode_run (env : Environment) (format0 : ExportFormat) (z : Z) (k : nat)
    (s : Page) :
  cooperative env format0 -> (1 <= z)%Z -> capturing (source env) (ofZ z) k s ->
  exists s', exportEncode env format0 s = (Normal tt, s')
             /\ trace s' = trace s ++ deliveryEvents env format0
             /\ totalFrames s' = totalFrames s
             /\ outputName s' = Some (OUTPUT_NAME format0)
             /\ has_encoder s'.
Proof.
  intros Hco Hz (Hn & _ & [f Hf] & _).
  destruct (co_exec env format0 Hco) as (made & Hexec & Hmade).
  cbv [exportEncode pauseSampling execFfmpeg readFile setExportState setStatus emit modify get
       throw mbind M_bind mret M_ret].
  cbn [totalFrames with_samplingVideo with_trace with_outputName trace].
  rewrite Hn, (eqb_ofZ_zero z Hz), Hexec.
  erewrite setStore_some by (cbn [ffmpegRef with_trace with_outputName with_samplingVideo];
                             exact Hf).
  rewrite bool_decide_eq_true_2.
  2: { unfold storeOf. cbn [ffmpegRef with_ffmpegRef with_trace files].
       apply elem_of_union. left. apply elem_of_list_to_set. exact Hmade. }
  rewrite (co_read env format0 Hco).
  eexists. split; [reflexivity |].
  cbn [trace with_trace with_ffmpegRef totalFrames with_outputName with_samplingVideo].
  split; [unfold deliveryEvents; rewrite <- !app_assoc; reflexivity |].
  split; [first [reflexivity | exact Hn] |].
  split; [reflexivity | eexists; reflexivity].
Qed.

Lemma cooperative_startPage (env : Environment) (format0 : ExportFormat)
    (cached : option FFmpeg) :
  cooperative env format0 ->
  exists (d : Qc) (step : number) (z : Z) (s1 : Page),
    exportPrepare env format0 (startPage env cached) = (Normal (Num d, step), s1)
    /\ (1 <= z)%Z
    /\ capturing (source env) (ofZ z) 0 s1.
Proof.
  intros Hco. destruct (co_duration env format0 Hco) as (d & Hd & Hpos).
  destruct (exportPrepare_run env format0 d (startPage env cached)
              (or_intror (co_loads env format0 Hco)) (co_metadata env format0 Hco) Hd Hpos
              (fun k => co_seeks env format0 Hco k #0))
    as (r & s1 & t & E & Hn & _ & _ & Hr).
  destruct (Hr (co_export_canvas env format0 Hco)) as [step ->].
  destruct (totalFrames_range d (entitlement env) Hpos) as (z0 & z & _ & Hz & _ & Hrange).
  exists d, step, z, s1. split; [exact E | split; [lia |]].
  pose proof (prepare_never_faults env format0 (co_seeks env format0 Hco) (startPage env cached))
    as Hv.
  pose proof (prepare_locals env format0 (startPage env cached)) as He.
  pose proof (prepare_before_sampling env format0 (startPage env cached)) as Hb.
  pose proof (prepare_statuses env format0 (startPage env cached)) as Hst.
  pose proof (prepare_frameSize env format0 (startPage env cached) I) as Hsz.
  rewrite E in Hv, He, Hb, Hst, Hsz.
  destruct Hb as (Hs & Hw & _).
  { repeat split; try reflexivity. cbn. apply not_elem_of_nil. }
  repeat split.
  - rewrite Hn. exact Hz.
  - apply Hv. intros k t'. reflexivity.
  - exact Hsz.
  - apply He. split; reflexivity.
  - exact Hs.
  - exact Hw.
  - apply Hst. reflexivity.
Qed.

Lemma exportBody_run (env : Environment) (format0 : ExportFormat) (cached : option FFmpeg) :
  cooperative env format0 ->
  exists (z : Z) (s2 s3 : Page),
    exportBody env format0 (startPage env cached) = (Normal tt, s3)
    /\ (1 <= z)%Z
    /\ capturing (source env) (ofZ z) (Z.to_nat z) s2
    /\ trace s3 = trace s2 ++ deliveryEvents env format0
    /\ totalFrames s3 = ofZ z
    /\ outputName s3 = Some (OUTPUT_NAME format0)
    /\ has_encoder s3.
Proof.
  intros Hco.
  destruct (cooperative_startPage env format0 cached Hco) as (d & step & z & s1 & E1 & Hz & H1).
  assert (Hn1 : totalFrames s1 = ofZ z) by apply H1.
  destruct (loop_run env format0 (Num d) step (ofZ z) (Z.to_nat z) 0 s1 Hco H1)
    as (s2 & E2 & H2).
  cbn [Nat.add] in H2.
  destruct (exportEncode_run env format0 z (Z.to_nat z) s2 Hco Hz H2)
    as (s3 & E3 & Ht3 & Hn3 & Ho3 & He3).
  exists z, s2, s3. unfold exportBody, mbind, M_bind, get. rewrite E1.
  rewrite Hn1, iterations_ofZ, E2, E3.
  assert (Hn2 : totalFrames s2 = ofZ z) by apply H2.
  rewrite Hn2 in Hn3. auto 10.
Qed.

(** X21. In an environment in which every step works the export
    succeeds: every sampling instant is sought and its still written, in
    index order and under the names [frame_0000.png], [frame_0001.png], ...;
    the encoder is then run once on them, the output is read back and
    offered for download under the name and the MIME type of the chosen
    format, and the last state published is [done] with progress 1; the
    cleanup then deletes every still and the output.  The statuses
    published are initializing, sampling (one or more times), encoding,
    delivering, done. *)
Theorem export_succeeds (env : Environment) (format0 : ExportFormat)
    (cached : option FFmpeg) :
  cooperative env format0 ->
  let p := runExport env format0 cached in
  let N := iterations (totalFrames p) in
  (1 <= N)%nat
  /\ seeks (trace p) = seq 0 N
  /\ writes (trace p) = frameName <$> seq 0 N
  /\ (exists k, statuses (trace p)
                = initializing :: replicate (S k) sampling ++ [encoding; delivering; done])
  /\ (exists before,
        trace p
        = before ++ deliveryEvents env format0
          ++ (DeleteFile <$> (frameName <$> seq 0 N) ++ [OUTPUT_NAME format0]))
  /\ last (exportStates (trace p))
     = Some {| status := done; format := Some format0; progress := #1;
               message := Some ("Exported " +:+ OUTPUT_NAME format0) |}.
Proof.
  intros Hco p N.
  destruct (exportBody_run env format0 cached Hco)
    as (z & s2 & s3 & E3 & Hz & H2 & Ht3 & Hn3 & Ho3 & He3).
  destruct H2 as (Hn2 & _ & _ & Hs2 & Hw2 & [k Hk2]).
  destruct (exportFinally_spec s3) as (s4 & E4 & Hn4 & _ & [[_ Hdel] | [Hnone _]]).
  2: { destruct He3 as [f Hf]. congruence. }
  destruct Hdel as (Ht4 & _).
  assert (Hp : p = s4).
  { subst p. unfold runExport.
    rewrite (handleExport_selected env format0 cached (co_selected env format0 Hco)).
    unfold tryFinally, tryCatch. rewrite E3, E4. reflexivity. }
  subst N. rewrite Hp. clear Hp p.
  unfold cleanupNames in Ht4. rewrite Ho3, Hn3, iterations_ofZ in Ht4.
  rewrite Hn4, Hn3, iterations_ofZ, Ht4, Ht3.
  rewrite !seeks_app, !writes_app, !statuses_app, !exportStates_app, seeks_DeleteFile,
    writes_DeleteFile, statuses_DeleteFile, exportStates_DeleteFile, !app_nil_r, Hs2, Hw2, Hk2.
  split; [lia |].
  split; [cbn; rewrite ?app_nil_r; reflexivity |].
  split; [cbn; rewrite ?app_nil_r; reflexivity |].
  split; [exists k; reflexivity |].
  split; [exists (trace s2); rewrite <- app_assoc; reflexivity |].
  cbn [deliveryEvents exportStates omap]. rewrite last_app. reflexivity.
Qed.

Lemma export_succeeds_witness :
  let p := runExport tinyEnvironment mp4 None in
  let N := iterations (totalFrames p) in
  (1 <= N)%nat
  /\ seeks (trace p) = seq 0 N
  /\ writes (trace p) = frameName <$> seq 0 N
  /\ (exists k, statuses (trace p)
                = initializing :: replicate (S k) sampling ++ [encoding; delivering; done])
  /\ (exists before,
        trace p
        = before ++ deliveryEvents tinyEnvironment mp4
          ++ (DeleteFile <$> (frameName <$> seq 0 N) ++ [OUTPUT_NAME mp4]))
  /\ last (exportStates (trace p))
     = Some {| status := done; format := Some mp4; progress := #1;
               message := Some ("Exported " +:+ OUTPUT_NAME mp4) |}.
Proof.
  apply (export_succeeds tinyEnvironment mp4 None).
  constructor; try reflexivity.
  - exists (Q2Qc 0.3). split; reflexivity.
  - intros k t. reflexivity.
  - intros i. exists (Q2Qc 40). split; reflexivity.
  - intros i. exists 16%nat, 12%nat. repeat split; vm_compute; reflexivity.
  - exists ["ascii-output.mp4"]. split; [reflexivity | apply list_elem_of_here].
Defined.

(** ** Frame names *)

Lemma string_app_length (s t : string) :
  String.length (s +:+ t) = (String.length s + String.length t)%nat.
Proof.
  induction s as [| c s IH]; [reflexivity |].
  change (S (String.length (s +:+ t)) = S (String.length s + String.length t)).
  rewrite IH. reflexivity.
Qed.

Lemma string_app_inv_tail (s1 s2 t : string) : s1 +:+ t = s2 +:+ t -> s1 = s2.
Proof.
  revert s2. induction s1 as [| c s1 IH]; intros s2 H.
  - destruct s2 as [| c2 s2]; [reflexivity |]. exfalso.
    apply (f_equal String.length) in H. rewrite !string_app_length in H.
    cbn [String.length] in H. lia.
  - destruct s2 as [| c2 s2].
    + exfalso. apply (f_equal String.length) in H. rewrite !string_app_length in H.
      cbn [String.length] in H. lia.
    + change (String c (s1 +:+ t) = String c2 (s2 +:+ t)) in H.
      injection H as -> H. f_equal. apply IH, H.
Qed.

Lemma string_app_inv_head (s t1 t2 : string) : s +:+ t1 = s +:+ t2 -> t1 = t2.
Proof.
  induction s as [| c s IH]; intros H; [exact H |].
  change (String c (s +:+ t1) = String c (s +:+ t2)) in H. injection H as H. apply IH, H.
Qed.

(** The number that a string of decimal digits denotes. *)
Lemma digits_of_zeros (k : nat) (s : string) :
  (N.of_uint <$> NilEmpty.uint_of_string (repeat_string k "0" +:+ s))
  = (N.of_uint <$> NilEmpty.uint_of_string s).
Proof.
  induction k as [| k IH]; [reflexivity |].
  cbn [repeat_string]. change (("0" +:+ repeat_string k "0") +:+ s)
    with (String "0" (repeat_string k "0" +:+ s)).
  cbn [NilEmpty.uint_of_string].
  destruct (NilEmpty.uint_of_string (repeat_string k "0" +:+ s)) as [d |];
    destruct (NilEmpty.uint_of_string s) as [d' |]; cbn in *; unfold N.of_uint in *;
    congruence.
Qed.

Lemma digits_of_toString (i : nat) :
  (N.of_uint <$> NilEmpty.uint_of_string (toString (ofnat i))) = Some (N.of_nat i).
Proof.
  unfold ofnat. rewrite toString_ofZ. unfold string_of_Z, NilZero.string_of_int.
  destruct (Z.of_nat i) as [| p | p] eqn:E; cbn [Z.to_int]; try lia.
  - replace i with 0%nat by lia. reflexivity.
  - unfold NilZero.string_of_uint.
    assert (H : (N.of_uint <$> NilEmpty.uint_of_string (NilEmpty.string_of_uint (Pos.to_uint p)))
                = Some (N.of_nat i)).
    { rewrite NilEmpty.usu. cbn [fmap option_fmap option_map]. f_equal.
      unfold N.of_uint. rewrite DecimalPos.Unsigned.of_to. lia. }
    destruct (Pos.to_uint p) eqn:Ep; exact H.
Qed.

Lemma frameName_index (i : nat) :
  (N.of_uint <$> NilEmpty.uint_of_string (padStart0 4 (toString (ofnat i))))
  = Some (N.of_nat i).
Proof. unfold padStart0. rewrite digits_of_zeros. apply digits_of_toString. Qed.

Lemma frameName_digits (i : nat) :
  frameName i = "frame_" +:+ padStart0 4 (string_of_Z (Z.of_nat i)) +:+ ".png".
Proof. unfold frameName, ofnat. rewrite toString_ofZ. reflexivity. Qed.

Lemma padded_four_digits :
  forallb (fun i => String.eqb ("frame_" +:+ padStart0 4 (string_of_Z (Z.of_nat i)) +:+ ".png")
                               (patternName i))
          (seq 0 (10 * 100)) = true.
Proof. vm_compute. reflexivity. Qed.

Lemma frameName_inj (i j : nat) : frameName i = frameName j -> i = j.
Proof.
  unfold frameName. intros H.
  apply string_app_inv_head, string_app_inv_tail in H.
  apply (f_equal (fun s => N.of_uint <$> NilEmpty.uint_of_string s)) in H.
  cbv beta in H. rewrite !frameName_index in H. injection H as H. lia.
Qed.

(** X22. Frame names identify their frame: two different indices never
    get the same name, so that no still overwrites another one and the
    cleanup deletes as many files as there are frames.  For every index
    below 1000 (no tier samples more than 600 frames) the name is the one
    that the encoder reads for that number under the pattern
    [frame_%04d.png]: [frame_], then exactly four decimal digits, those of
    the index with leading zeros, then [.png]. *)
Theorem frameName_injective (i j : nat) :
  (frameName i = frameName j -> i = j)
  /\ ((Z.of_nat i < 1000)%Z ->
      frameName i
      = "frame_" +:+
        String (digitChar (i / 1000))
          (String (digitChar (i / 100 mod 10))
             (String (digitChar (i / 10 mod 10))
                (String (digitChar (i mod 10)) ".png")))
      /\ (i / 1000 < 10)%nat
      /\ i = (1000 * (i / 1000) + 100 * (i / 100 mod 10) + 10 * (i / 10 mod 10) + i mod 10)%nat).
Proof.
  split; [apply frameName_inj |]. intros Hi.
  pose proof padded_four_digits as H.
  rewrite forallb_forall in H. specialize (H i (proj2 (in_seq (10 * 100) 0 i) ltac:(lia))).
  apply String.eqb_eq in H. rewrite <- frameName_digits in H. split; [exact H |].
  split; [apply Nat.Div0.div_lt_upper_bound; lia |].
  pose proof (Nat.div_mod_eq i 10). pose proof (Nat.div_mod_eq (i / 10) 10).
  pose proof (Nat.div_mod_eq (i / 100) 10).
  assert (E1 : (i / 100 = i / 10 / 10)%nat) by (rewrite Nat.Div0.div_div; reflexivity).
  assert (E2 : (i / 1000 = i / 100 / 10)%nat) by (rewrite Nat.Div0.div_div; reflexivity).
  lia.
Qed.

(** ** Stills that could not be written *)










(** ** The sampling instants *)

Lemma triple_pure {A : Type} (P : Prop) (m : M A) (Qn : A -> Page -> Prop)
    (Qe : Page -> Prop) :
  (P -> triple (fun _ => True) m Qn Qe) -> triple (fun _ => P) m Qn Qe.
Proof. intros H s Hp. exact (H Hp s I). Qed.

(** What [exportPrepare] hands to the sampling loop. *)
Lemma prepare_plans_sampling (env : Environment) (format : ExportFormat) :
  triple (fun _ => True) (exportPrepare env format)
    (fun r s => fst r = duration (source env)
                /\ snd r = sampleStep (duration (source env)) (totalFrames s)
                /\ (exists q : Qc, duration (source env) = Num q /\ (0 < q)%Qc)
                /\ frames_planned s)
    (fun _ => True).
Proof.
  unfold exportPrepare. cbv zeta.
  do 4 (apply triple_bind with (Qm := fun _ _ => True); [apply triple_True | intros ?]).
  apply triple_bind with (Qm := fun _ s => samplingVideo s = source env).
  { destruct (metadataLoads env); [apply triple_modify; auto | apply triple_throw; auto]. }
  intros _.
  apply triple_bind with (Qm := fun a _ => samplingVideo a = source env).
  { apply triple_get. auto. }
  intros s0. apply triple_pure. intros ->.
  destruct (negb (isFinite (duration (source env))) || le (duration (source env)) #0) eqn:E.
  { apply triple_bind with (Qm := fun _ _ => False); [| intros ?; intros s Hs; contradiction].
    apply triple_throw. auto. }
  destruct (duration_checked _ E) as (q & Hq & Hpos). rewrite Hq.
  destruct (totalFrames_range q (entitlement env) Hpos) as (z & n & Hz & Hn & _ & Hr).
  do 3 (apply triple_bind with (Qm := fun _ _ => True); [apply triple_True | intros ?]).
  set (total := min (ceil (Num q * fps (tierConfigOf (entitlement env))))
                    (maxFramesOf (entitlement env))) in *.
  apply triple_bind with (Qm := fun _ s => totalFrames s = total).
  { apply triple_modify. intros s _. reflexivity. }
  intros _.
  do 2 (apply triple_bind with (Qm := fun _ s => totalFrames s = total);
        [apply keeps_weaken; [| auto | auto];
         unfold_handler; repeat keeps_step; page_simpl; assumption
        | intros ?]).
  apply triple_ret. intros s Hs. cbn [fst snd].
  split; [reflexivity |]. split; [rewrite Hs; reflexivity |]. split; [eauto |].
  exists n. split; [lia | rewrite Hs; exact Hn].
Qed.

Ltac on_time_leaf :=
  unfold seeks_on_time in *; page_simpl;
  repeat match goal with H : _ /\ _ |- _ => destruct H end;
  repeat split; try assumption;
  try (apply Forall_app; split; [assumption | repeat constructor]).

Lemma captureFrame_on_time (env : Environment) (format : ExportFormat) (duration step : number)
    (n : number) (i : nat) :
  keeps (fun s => totalFrames s = n /\ seeks_on_time duration step s)
    (captureFrame env format duration step i).
Proof. unfold_handler. repeat keeps_step; on_time_leaf. Qed.

Lemma encode_on_time (env : Environment) (format : ExportFormat) (duration step : number)
    (n : number) :
  keeps (fun s => totalFrames s = n /\ seeks_on_time duration step s) (exportEncode env format).
Proof. unfold_handler. repeat keeps_step; on_time_leaf. Qed.

Lemma seeks_nil_on_time (duration step : number) (s : Page) :
  seeks (trace s) = [] -> seeks_on_time duration step s.
Proof.
  unfold seeks_on_time. induction (trace s) as [| e t IH]; intros H; [constructor |].
  destruct e; cbn in H; try discriminate H; constructor; auto.
Qed.

Lemma seeks_kept_by_prepare (env : Environment) (format : ExportFormat) :
  keeps (fun s => seeks (trace s) = []) (exportPrepare env format).
Proof.
  unfold_handler. repeat keeps_step; page_simpl; rewrite ?seeks_snoc, ?app_nil_r; assumption.
Qed.

Lemma body_sampling_sound (env : Environment) (format : ExportFormat) :
  triple (fun s => seeks (trace s) = [])
    (tryCatch (exportBody env format) (exportCatch format))
    (fun _ => sampling_sound env) (sampling_sound env).
Proof.
  apply triple_tryCatch with (Qe' := sampling_sound env).
  - unfold exportBody.
    apply triple_bind
      with (Qm := fun r s => seeks (trace s) = []
                             /\ (fst r = duration (source env)
                                 /\ snd r = sampleStep (duration (source env)) (totalFrames s)
                                 /\ (exists q : Qc, duration (source env) = Num q /\ (0 < q)%Qc)
                                 /\ frames_planned s)).
    { apply (triple_weaken _ _ _ _ _ _ _
               (triple_conj _ _ _ _ _ _ _ (seeks_kept_by_prepare env format)
                  (prepare_plans_sampling env format))).
      - auto.
      - auto.
      - intros s [H _]. left. exact H. }
    intros [dur step]. intros s (Hs & Hd & Hstep & Hq & Hf). cbn [fst snd] in Hd, Hstep.
    subst dur. unfold mbind, M_bind, get.
    set (n := totalFrames s) in *.
    assert (H0 : totalFrames s = n /\ seeks_on_time (duration (source env)) step s).
    { split; [reflexivity | apply seeks_nil_on_time, Hs]. }
    assert (Hplanned : forall s', totalFrames s' = n
                                  /\ seeks_on_time (duration (source env)) step s' ->
                                  sampling_sound env s').
    { intros s' [Hn' Ht']. right. split; [exact Hq |]. unfold frames_planned.
      rewrite Hn'. split; [exact Hf |]. rewrite <- Hstep. exact Ht'. }
    pose proof (keeps_forRange _ (captureFrame env format (duration (source env)) step) 0
                  (iterations n)
                  (fun i => captureFrame_on_time env format (duration (source env)) step n i)
                  s H0) as Hloop.
    destruct (forRange _ 0 (iterations n) s) as [[[] | e] s1]; [| apply Hplanned, Hloop].
    pose proof (encode_on_time env format (duration (source env)) step n s1 Hloop) as He.
    destruct (exportEncode env format s1) as [[[] | e] s2]; apply Hplanned, He.
  - intros e. unfold exportCatch. cbv zeta.
    apply triple_bind with (Qm := fun _ => sampling_sound env); [| intros _];
      unfold setExportState, setStatus, emit; apply triple_modify;
      (intros s [H | (Hq & Hf & Ht)]; [left | right]);
      unfold sampling_planned, frames_planned in *; page_simpl;
      rewrite ?seeks_snoc, ?app_nil_r; try assumption;
      (split; [exact Hq | split; [exact Hf | on_time_leaf]]).
Qed.

(** The instants before clamping: multiples of a step that is not
    negative. *)
Lemma sampleTime_Num (q : Qc) (z : Z) :
  (0 < q)%Qc -> (1 <= z)%Z ->
  exists st : Qc,
    (0 <= st)%Qc
    /\ forall i, sampleTime (Num q) (sampleStep (Num q) (ofZ z)) i
                 = clampTime (Num q) (Num (Q2Qc (inject_Z (Z.of_nat i)) * st)).
Proof.
  intros Hq Hz. unfold sampleTime, sampleStep. change #1 with (ofZ 1). rewrite lt_ofZ.
  destruct (Z.ltb_spec 1 z) as [H | H].
  - rewrite sub_ofZ.
    assert (Hpos : (0 < Q2Qc (inject_Z (z - 1)))%Qc).
    { unfold Qclt. rewrite (this_Q2Qc (inject_Z (z - 1))).
      change (inject_Z 0 < inject_Z (z - 1))%Q. rewrite <- Zlt_Qlt. lia. }
    assert (Estep : Num q / ofZ (z - 1) = Num (q / Q2Qc (inject_Z (z - 1)))).
    { unfold div, ofZ. change (Q2Qc 0) with 0%Qc. rewrite (Qc_pos_nonzero _ Hpos).
      reflexivity. }
    rewrite Estep.
    assert (Hst : (0 < q / Q2Qc (inject_Z (z - 1)))%Qc).
    { unfold Qcdiv. rewrite <- (Qcmult_0_l (/ Q2Qc (inject_Z (z - 1)))).
      apply Qcmult_lt_compat_r; [| exact Hq].
      unfold Qclt. rewrite this_inv. apply Qinv_lt_0_compat. exact Hpos. }
    exists (q / Q2Qc (inject_Z (z - 1)))%Qc. split; [apply Qclt_le_weak, Hst |].
    intros i. unfold eqb, ofQ. change (Q2Qc 0) with 0%Qc.
    rewrite (Qc_pos_nonzero _ Hst). reflexivity.
  - exists 0%Qc. split; [apply Qcle_refl |]. intros i.
    replace (eqb #0 #0) with true by reflexivity. unfold ofQ. do 2 f_equal.
    change (Q2Qc 0) with 0%Qc. ring.
Qed.

Ltac qc_cases_inner :=
  repeat match goal with
  | |- context [Qc_ltb ?x ?y] =>
      lazymatch x with
      | context [Qc_ltb] => fail
      | _ => lazymatch y with
             | context [Qc_ltb] => fail
             | _ => let E := fresh "E" in
                    destruct (Qc_ltb x y) eqn:E;
                    [apply Qc_ltb_lt in E | apply Qc_ltb_ge in E]
             end
      end
  end.

Lemma clampTime_Num_mono (q a c : Qc) :
  (a <= c)%Qc ->
  exists a' c' : Qc,
    clampTime (Num q) (Num a) = Num a' /\ clampTime (Num q) (Num c) = Num c'
    /\ (a' <= c')%Qc.
Proof.
  intros H. unfold clampTime. cbn [eqb isNaN orb].
  destruct (clamp_upper (Num q) eq_refl) as (u & -> & Hu).
  unfold ofQ. rewrite !max_Num, !min_Num. do 2 eexists.
  split; [reflexivity | split; [reflexivity |]].
  change 0%Qc with (Q2Qc 0) in *. qc_cases_inner; qc_order.
Qed.

Lemma sampleTime_range (q : Qc) (z : Z) (i j : nat) :
  (0 < q)%Qc -> (1 <= z)%Z ->
  let t := sampleTime (Num q) (sampleStep (Num q) (ofZ z)) in
  le #0 (t i) = true
  /\ le (t i) (max #0 (Num q - #0.001)) = true
  /\ ((i <= j)%nat -> le (t i) (t j) = true)
  /\ t 0%nat = #0.
Proof.
  intros Hq Hz t. subst t. destruct (sampleTime_Num q z Hq Hz) as (st & Hst & E).
  rewrite !E.
  destruct (clampTime_bounds q (Num (Q2Qc (inject_Z (Z.of_nat i)) * st)) eq_refl)
    as (x & u & Ex & Eu & H0 & H1 & _).
  split; [rewrite Ex; apply Qc_leb_le; exact H0 |].
  split; [rewrite Ex, Eu; apply Qc_leb_le; exact H1 |]. split.
  - intros Hij.
    assert (Hm : (Q2Qc (inject_Z (Z.of_nat i)) * st <= Q2Qc (inject_Z (Z.of_nat j)) * st)%Qc).
    { apply Qcmult_le_compat_r; [| exact Hst].
      unfold Qcle. rewrite !this_Q2Qc, <- Zle_Qle. lia. }
    destruct (clampTime_Num_mono q _ _ Hm) as (a' & c' & -> & -> & Hac).
    apply Qc_leb_le. exact Hac.
  - replace (Q2Qc (inject_Z (Z.of_nat 0)) * st)%Qc with (Q2Qc 0).
    + unfold clampTime. cbn [eqb isNaN orb].
      destruct (clamp_upper (Num q) eq_refl) as (u' & -> & Hu).
      unfold ofQ. rewrite max_Num, min_Num. f_equal.
      change 0%Qc with (Q2Qc 0) in *. qc_cases_inner; try reflexivity;
        try (exfalso; qc_order); apply Qcle_antisym; qc_order.
    + change (Q2Qc (inject_Z (Z.of_nat 0))) with 0%Qc. change (Q2Qc 0) with 0%Qc. ring.
Qed.

Lemma run_sampling_sound (env : Environment) (format : ExportFormat) (cached : option FFmpeg) :
  sampling_sound env (runExport env format cached).
Proof.
  unfold runExport. destruct (selectedFile env) eqn:Hsel.
  - destruct (handleExport_phases env format cached Hsel) as (s2 & s3 & E2 & E3 & ->).
    cbn [snd].
    pose proof (body_sampling_sound env format (startPage env cached) eq_refl) as H.
    rewrite E2 in H.
    destruct (exportFinally_spec s2) as (s3' & E3' & Hn & _ & Ht).
    rewrite E3 in E3'. injection E3' as <-.
    assert (Ht' : exists names, trace s3 = trace s2 ++ (DeleteFile <$> names)).
    { destruct Ht as [[_ (Ht & _)] | (_ & Ht & _)];
        [eexists; exact Ht | exists []; rewrite Ht, app_nil_r; reflexivity]. }
    destruct Ht' as [names Ht'].
    destruct H as [H | (Hq & Hf & Hon)]; [left | right].
    + rewrite Ht', seeks_app, seeks_DeleteFile, app_nil_r. exact H.
    + unfold sampling_planned, frames_planned, seeks_on_time. rewrite Hn, Ht'.
      split; [exact Hq | split; [exact Hf |]].
      apply Forall_app. split; [exact Hon |].
      apply Forall_forall. intros e He. apply list_elem_of_fmap in He.
      destruct He as (name & -> & _). exact I.
  - rewrite (handleExport_unselected env format cached Hsel). left. reflexivity.
Qed.

(** X24. The sampling instants lie inside the clip and never go back:
    every seek that a run requests goes to the instant [sampleTime] of its
    index for the duration of the clip and the step [duration / (N - 1)],
    that instant is at least 0 and at most [max(0, duration - 0.001)], the
    instant of index 0 is the start of the clip, and a greater index never
    has an earlier instant. *)
Theorem sampling_instants_in_clip (env : Environment) (format : ExportFormat)
    (cached : option FFmpeg) :
  let p := runExport env format cached in
  let d := duration (source env) in
  let t := sampleTime d (sampleStep d (totalFrames p)) in
  Forall (fun e => match e with
                   | SeekTo i target =>
                       target = t i
                       /\ le #0 target = true
                       /\ le target (max #0 (d - #0.001)) = true
                   | _ => True
                   end) (trace p)
  /\ (seeks (trace p) <> [] ->
      t 0%nat = #0 /\ forall i j, (i <= j)%nat -> le (t i) (t j) = true).
Proof.
  intros p d t. subst p d t.
  destruct (run_sampling_sound env format cached) as [H | ((q & Hq & Hpos) & (z & Hz & Hn) & Hon)].
  - split; [| intros; contradiction].
    induction (trace (runExport env format cached)) as [| e l IH]; [constructor |].
    destruct e; cbn in H; try discriminate H; constructor; auto.
  - rewrite Hq, Hn in *. split.
    + eapply Forall_impl; [exact Hon |]. intros [] He; try exact I.
      cbv beta iota in *. rewrite He.
      destruct (sampleTime_range q z index index Hpos Hz) as (H0 & H1 & _). auto.
    + intros _. split.
      * apply (sampleTime_range q z 0 0 Hpos Hz).
      * intros i j Hij. apply (sampleTime_range q z i j Hpos Hz). exact Hij.
Qed.

(** ** Character size *)

Lemma Qfloor_upper (x : Q) (hi : Z) : (x < inject_Z (hi + 1))%Q -> (Qfloor x <= hi)%Z.
Proof.
  intros H.
  assert (H' : (inject_Z (Qfloor x) < inject_Z (hi + 1))%Q).
  { apply Qle_lt_trans with x; [apply Qfloor_le | exact H]. }
  rewrite <- Zlt_Qlt in H'. lia.
Qed.

Lemma watermark_twelve (s : Qc) : (s <= Q2Qc 12)%Qc -> watermarkFontSize (Num s) = #12.
Proof.
  intros H. unfold watermarkFontSize, ofQ. cbn [mul round].
  change (Q2Qc 12) with (Q2Qc (inject_Z 12)). fold (ofZ 12).
  fold (ofZ (Qfloor ((s * Q2Qc 0.9)%Qc + Q2Qc (Qmake 1 2))%Q)).
  rewrite max_ofZ. f_equal.
  assert (Hz : (Qfloor ((s * Q2Qc 0.9)%Qc + Q2Qc (Qmake 1 2))%Q <= 11)%Z).
  { apply Qfloor_upper. qc_to_q. change (inject_Z (11 + 1)) with 12%Q.
    change (inject_Z 12) with 12%Q in H. lra. }
  lia.
Qed.

(** X25. The character size is kept inside the limits of the tier, and the
    export draws with the size of the preview: for either tier and every
    size that is a number, the size after the clamping effect lies between
    the least and the greatest size of the tier, a second run of the effect
    changes nothing, the font size of the export is that very size, and the
    watermark is set in 12 pixels. *)
Theorem char_size_within_limits (e : Entitlement) (size : number) :
  isNaN size = false ->
  let tier := tierConfigOf e in
  let clamped := clampCharPixelSize tier size in
  le (minCharPixel tier) clamped = true
  /\ le clamped (maxCharPixel tier) = true
  /\ clampCharPixelSize tier clamped = clamped
  /\ exportFontSize tier clamped = clamped
  /\ watermarkFontSize (exportFontSize tier clamped) = #12.
Proof.
  intros Hnan tier clamped.
  assert (H : exists s : Qc, clamped = Num s
                             /\ exists lo : Qc, minCharPixel tier = Num lo
                                /\ maxCharPixel tier = #12
                                /\ (lo <= s)%Qc /\ (s <= Q2Qc 12)%Qc /\ (lo <= Q2Qc 12)%Qc).
  { subst clamped tier. unfold clampCharPixelSize.
    destruct e, size as [s | | |]; try discriminate Hnan;
      cbv [tierConfigOf minCharPixel maxCharPixel FREE_EXPORT_CONFIG PREMIUM_EXPORT_CONFIG lt
           ofQ];
      qc_cases_inner;
      eexists; (split; [reflexivity |]); eexists; (split; [reflexivity |]);
      (split; [reflexivity |]); repeat split; try qc_order; try (vm_compute; congruence). }
  destruct H as (s & Es & lo & Elo & Ehi & H1 & H2 & H3).
  rewrite Es. unfold exportFontSize, clampCharPixelSize. rewrite Elo, Ehi. unfold ofQ.
  cbn [le lt]. rewrite max_Num, min_Num.
  replace (Qc_ltb s lo) with false by (symmetry; apply Qc_ltb_ge; exact H1).
  replace (Qc_ltb (Q2Qc 12) s) with false by (symmetry; apply Qc_ltb_ge; exact H2).
  assert (E : (if Qc_ltb lo s then s else lo) = s).
  { destruct (Qc_ltb lo s) eqn:E; [reflexivity |]. apply Qc_ltb_ge in E.
    apply Qcle_antisym; assumption. }
  rewrite E.
  assert (E' : (if Qc_ltb s (Q2Qc 12) then s else Q2Qc 12) = s).
  { destruct (Qc_ltb s (Q2Qc 12)) eqn:E'; [reflexivity |]. apply Qc_ltb_ge in E'.
    apply Qcle_antisym; assumption. }
  rewrite E'.
  split; [apply Qc_leb_le; exact H1 |]. split; [apply Qc_leb_le; exact H2 |].
  split; [reflexivity |]. split; [reflexivity |]. apply watermark_twelve. exact H2.
Qed.

Lemma char_size_within_limits_witness :
  let tier := tierConfigOf free in
  let clamped := clampCharPixelSize tier #6 in
  le (minCharPixel tier) clamped = true
  /\ le clamped (maxCharPixel tier) = true
  /\ clampCharPixelSize tier clamped = clamped
  /\ exportFontSize tier clamped = clamped
  /\ watermarkFontSize (exportFontSize tier clamped) = #12.
Proof. apply (char_size_within_limits free #6). reflexivity. Defined.

(** ** Batching the glyphs by colour *)

Lemma colouredGlyphs_cons (style : string) (glyphs : list GlyphDraw) (groups : ColorGroups) :
  colouredGlyphs ((style, glyphs) :: groups) = map (pair style) glyphs ++ colouredGlyphs groups.
Proof. reflexivity. Qed.

Lemma groupPush_keys (groups : ColorGroups) (style : string) (g : GlyphDraw) (k : string) :
  k ∈ (groupPush groups style g).*1 <-> k ∈ groups.*1 \/ k = style.
Proof.
  induction groups as [| [c gs] rest IH]; cbn [groupPush].
  - cbn. rewrite list_elem_of_singleton. split; [auto |]. intros [H | H]; [inversion H | exact H].
  - destruct (String.eqb c style) eqn:E.
    + apply String.eqb_eq in E. subst c. cbn. rewrite !elem_of_cons. tauto.
    + cbn. rewrite !elem_of_cons, IH. tauto.
Qed.

Lemma groupPush_NoDup (groups : ColorGroups) (style : string) (g : GlyphDraw) :
  NoDup groups.*1 -> NoDup (groupPush groups style g).*1.
Proof.
  induction groups as [| [c gs] rest IH]; cbn [groupPush]; intros H.
  - cbn. apply NoDup_singleton.
  - destruct (String.eqb c style) eqn:E; [exact H |].
    cbn in *. apply NoDup_cons in H. destruct H as [Hc Hrest]. apply NoDup_cons.
    split; [| apply IH, Hrest].
    rewrite groupPush_keys. intros [Hin | ->]; [contradiction |].
    rewrite String.eqb_refl in E. discriminate E.
Qed.

Lemma groupPush_glyphs (groups : ColorGroups) (style : string) (g : GlyphDraw) :
  colouredGlyphs (groupPush groups style g) ≡ₚ colouredGlyphs groups ++ [(style, g)].
Proof.
  induction groups as [| [c gs] rest IH]; cbn [groupPush]; [reflexivity |].
  destruct (String.eqb c style) eqn:E.
  - apply String.eqb_eq in E. subst c. rewrite !colouredGlyphs_cons, map_app. cbn [map].
    rewrite <- !app_assoc. apply Permutation_app_head, Permutation_app_comm.
  - rewrite !colouredGlyphs_cons, IH, app_assoc. reflexivity.
Qed.

Lemma groupPush_nonempty (groups : ColorGroups) (style : string) (g : GlyphDraw) :
  Forall (fun group => group.2 <> []) groups ->
  Forall (fun group => group.2 <> []) (groupPush groups style g).
Proof.
  induction groups as [| [c gs] rest IH]; cbn [groupPush]; intros H.
  - repeat constructor. discriminate.
  - apply Forall_cons in H. destruct H as [Hc Hrest].
    destruct (String.eqb c style); constructor; auto.
    cbn. intros E. apply app_eq_nil in E. destruct E as [_ E]. discriminate E.
Qed.

(** What the loops collect, for positions at which the frame has cells. *)
Lemma collectCells_spec (rows : list (list AsciiCell)) (cellWidth cellHeight : number)
    (positions : list (nat * nat)) (groups : ColorGroups) :
  Forall (fun position => is_Some (cellGlyph rows cellWidth cellHeight position)) positions ->
  exists groups',
    collectCells rows cellWidth cellHeight positions groups = Normal groups'
    /\ (NoDup groups.*1 -> NoDup groups'.*1)
    /\ (Forall (fun group => group.2 <> []) groups ->
        Forall (fun group => group.2 <> []) groups')
    /\ colouredGlyphs groups'
       ≡ₚ colouredGlyphs groups ++ omap (cellGlyph rows cellWidth cellHeight) positions.
Proof.
  revert groups. induction positions as [| [y x] rest IH]; intros groups H.
  - exists groups. cbn. rewrite app_nil_r. auto.
  - apply Forall_cons in H. destruct H as [[glyph Hg] Hrest].
    cbn [collectCells].
    destruct (rows !! y ≫= (fun row => row !! x)) as [cell |] eqn:E.
    2: { unfold cellGlyph in Hg. rewrite E in Hg. discriminate Hg. }
    assert (Hc : cellGlyph rows cellWidth cellHeight (y, x)
                 = Some (color cell,
                         {| gd_char := char cell; gd_x := ofnat x * cellWidth;
                            gd_y := ofnat y * cellHeight |})).
    { unfold cellGlyph. rewrite E. reflexivity. }
    change (omap (cellGlyph rows cellWidth cellHeight) ((y, x) :: rest))
      with (match cellGlyph rows cellWidth cellHeight (y, x) with
            | Some a => a :: omap (cellGlyph rows cellWidth cellHeight) rest
            | None => omap (cellGlyph rows cellWidth cellHeight) rest
            end).
    rewrite Hc.
    destruct (IH (groupPush groups (color cell)
                    {| gd_char := char cell; gd_x := ofnat x * cellWidth;
                       gd_y := ofnat y * cellHeight |}) Hrest)
      as (groups' & -> & Hk & Hn & Hp).
    exists groups'. split; [reflexivity |].
    split; [intros ?; apply Hk, groupPush_NoDup; assumption |].
    split; [intros ?; apply Hn, groupPush_nonempty; assumption |].
    rewrite Hp, groupPush_glyphs, <- app_assoc. reflexivity.
Qed.

Lemma omap_fmap_compose {A B C : Type} (f : B -> option C) (g : A -> B) (l : list A) :
  omap f (g <$> l) = omap (f ∘ g) l.
Proof. induction l as [| a l IH]; [reflexivity |]. cbn. rewrite IH. reflexivity. Qed.

Lemma omap_bind_list {A B C : Type} (f : B -> option C) (k : A -> list B) (l : list A) :
  omap f (l ≫= k) = l ≫= (fun a => omap f (k a)).
Proof.
  induction l as [| a l IH]; [reflexivity |].
  rewrite !bind_cons, omap_app, IH. reflexivity.
Qed.

Lemma omap_ext_eq {A B : Type} (f g : A -> option B) (l : list A) :
  (forall a, f a = g a) -> omap f l = omap g l.
Proof.
  intros H. induction l as [| a l IH]; [reflexivity |]. cbn. rewrite H, IH. reflexivity.
Qed.

Lemma omap_cons_Some {A B : Type} (f : A -> option B) (a : A) (l : list A) (b : B) :
  f a = Some b -> omap f (a :: l) = b :: omap f l.
Proof. intros H. cbn. rewrite H. reflexivity. Qed.

(** The cells of a row, read by index. *)
Lemma imap_by_lookup {A B : Type} (f : nat -> A -> B) (l : list A) :
  omap (fun x => f x <$> l !! x) (seq 0 (length l)) = imap f l.
Proof.
  revert f. induction l as [| a l IH]; intros f; [reflexivity |].
  cbn [length]. rewrite <- cons_seq, <- fmap_S_seq, imap_cons.
  rewrite (omap_cons_Some _ _ _ (f 0%nat a)) by reflexivity. f_equal.
  rewrite omap_fmap_compose. apply IH.
Qed.

(** The glyphs of a full rectangle of cells, read by position. *)
Lemma frameGlyphs_by_position (rows : list (list AsciiCell)) (cellWidth cellHeight : number)
    (w : nat) :
  Forall (fun row => length row = w) rows ->
  omap (cellGlyph rows cellWidth cellHeight) (cellPositions (length rows) w)
  = frameGlyphs rows cellWidth cellHeight.
Proof.
  unfold frameGlyphs, cellPositions, cellGlyph.
  set (G := fun (y x : nat) (cell : AsciiCell) =>
              (color cell,
               {| gd_char := char cell; gd_x := ofnat x * cellWidth;
                  gd_y := ofnat y * cellHeight |})).
  change (Forall (fun row => length row = w) rows ->
          omap (fun '(y, x) => (rows !! y ≫= (fun row => row !! x)) ≫= (fun cell => Some (G y x cell)))
               (seq 0 (length rows) ≫= (fun y => seq 0 w ≫= (fun x => [(y, x)])))
          = concat (imap (fun y row => imap (G y) row) rows)).
  generalize G. clear G. induction rows as [| row rows IH]; intros G H; [reflexivity |].
  apply Forall_cons in H. destruct H as [Hrow Hrows].
  cbn [length]. rewrite <- cons_seq, <- fmap_S_seq, bind_cons, omap_app, imap_cons.
  cbn [concat]. f_equal.
  - rewrite omap_bind_list. rewrite <- Hrow, <- (imap_by_lookup (G 0%nat) row).
    induction (seq 0 (length row)) as [| x xs IHx]; [reflexivity |].
    rewrite bind_cons, IHx. cbn. destruct (row !! x); reflexivity.
  - rewrite list_fmap_bind.
    etransitivity; [| exact (IH (fun y => G (S y)) Hrows)].
    rewrite !omap_bind_list. apply list_bind_ext; [| reflexivity]. intros y.
    unfold compose. rewrite !omap_bind_list. apply list_bind_ext; [| reflexivity].
    intros x. reflexivity.
Qed.

Lemma cellPositions_valid (rows : list (list AsciiCell)) (cellWidth cellHeight : number)
    (w : nat) :
  Forall (fun row => length row = w) rows ->
  Forall (fun position => is_Some (cellGlyph rows cellWidth cellHeight position))
         (cellPositions (length rows) w).
Proof.
  intros H. apply Forall_forall. intros [y x] Hp. unfold cellPositions in Hp.
  apply list_elem_of_bind in Hp. destruct Hp as (y' & Hp & Hy).
  apply list_elem_of_bind in Hp. destruct Hp as (x' & Hp & Hx).
  apply list_elem_of_singleton in Hp. injection Hp as -> ->.
  apply list_elem_of_In, in_seq in Hy, Hx.
  destruct (lookup_lt_is_Some_2 rows y' ltac:(lia)) as [row Hrow].
  assert (Hlen : length row = w).
  { rewrite Forall_forall in H. apply H. eapply list_elem_of_lookup_2. exact Hrow. }
  destruct (lookup_lt_is_Some_2 row x' ltac:(lia)) as [cell Hcell].
  unfold cellGlyph. rewrite Hrow. cbn. rewrite Hcell. cbn. eauto.
Qed.

Lemma paint_texts (style : string) (glyphs : list GlyphDraw) (rest : list CanvasOp) :
  paint style (map (fun g => FillText (gd_char g) (gd_x g) (gd_y g)) glyphs ++ rest)
  = map (pair style) glyphs ++ paint style rest.
Proof.
  induction glyphs as [| [text x y] glyphs IH]; [reflexivity |].
  cbn [map app paint gd_char gd_x gd_y]. rewrite IH. reflexivity.
Qed.

Lemma paint_drawGroups (style : string) (groups : ColorGroups) :
  paint style (drawGroups groups) = colouredGlyphs groups.
Proof.
  revert style. induction groups as [| [c glyphs] groups IH]; intros style; [reflexivity |].
  unfold drawGroups. rewrite bind_cons. cbn [paint app]. rewrite paint_texts.
  rewrite colouredGlyphs_cons. f_equal. apply IH.
Qed.

Lemma styleChanges_app (ops ops' : list CanvasOp) :
  styleChanges (ops ++ ops') = (styleChanges ops + styleChanges ops')%nat.
Proof.
  induction ops as [| [style | text x y] ops IH]; cbn [app styleChanges]; [reflexivity | |];
    rewrite IH; reflexivity.
Qed.

Lemma styleChanges_drawGroups (groups : ColorGroups) :
  styleChanges (drawGroups groups) = length groups.
Proof.
  unfold drawGroups.
  induction groups as [| [c glyphs] groups IH]; [reflexivity |].
  rewrite bind_cons. cbn [app styleChanges length].
  rewrite styleChanges_app, IH. f_equal.
  induction glyphs as [| g glyphs IHg]; [reflexivity |]. exact IHg.
Qed.

Lemma length_concat_imap {A B : Type} (g : nat -> A -> list B) (l : list A) (w : nat) :
  Forall (fun a => forall i, length (g i a) = w) l ->
  length (concat (imap g l)) = (length l * w)%nat.
Proof.
  revert g. induction l as [| a l IH]; intros g Hl; [reflexivity |].
  apply Forall_cons in Hl. destruct Hl as [Ha Hl].
  assert (Hl' : Forall (fun a => forall i, length ((g ∘ S) i a) = w) l).
  { eapply Forall_impl; [exact Hl |]. intros a' Ha' i. apply Ha'. }
  rewrite imap_cons. cbn [concat length]. rewrite length_app, Ha, (IH (g ∘ S) Hl'). lia.
Qed.

Lemma frameGlyphs_length (rows : list (list AsciiCell)) (cellWidth cellHeight : number)
    (w : nat) :
  Forall (fun row => length row = w) rows ->
  length (frameGlyphs rows cellWidth cellHeight) = (length rows * w)%nat.
Proof.
  intros Hrect. unfold frameGlyphs. apply length_concat_imap.
  eapply Forall_impl; [exact Hrect |]. intros row Hrow i. cbv beta.
  rewrite length_imap. exact Hrow.
Qed.

(** X26. The export draws every glyph of a frame exactly once and in its
    own colour, and sets the fill style once per colour: for a frame that
    [asciiFromVideo] returns, the grouping of the glyphs by colour reads no
    missing cell, no colour heads two groups and no group is empty, the
    number of fill-style changes is the number of groups, and what the
    drawing operations put on the canvas is a rearrangement of the glyphs of
    the frame in reading order, each at its own position. *)
Theorem glyphs_batched_by_colour (video : HTMLVideoElement) (canvas : HTMLCanvasElement)
    (charset : jsstring) (scheme : Scheme) (size contrast : number) (frame : AsciiFrame)
    (cellWidth cellHeight : number) :
  asciiFromVideo video canvas charset scheme size contrast = Normal (Some frame) ->
  exists groups : ColorGroups,
    collectColorGroups frame cellWidth cellHeight = Normal groups
    /\ NoDup groups.*1
    /\ Forall (fun group => group.2 <> []) groups
    /\ styleChanges (drawGroups groups) = length groups
    /\ paint "#000000" (drawGroups groups) ≡ₚ frameGlyphs (rows frame) cellWidth cellHeight
    /\ length (paint "#000000" (drawGroups groups))
       = (iterations (width frame) * iterations (height frame))%nat.
Proof.
  intros Hf.
  destruct (asciiFromVideo_Some _ _ _ _ _ _ _ Hf) as (w & h & Hw & Hh & _ & _ & Hrows).
  assert (Hlen : length (rows frame) = h) by (rewrite Hrows, length_map, length_seq; reflexivity).
  assert (Hrect : Forall (fun row => length row = w) (rows frame)).
  { rewrite Hrows. apply Forall_forall. intros row Hrow.
    apply list_elem_of_In, in_map_iff in Hrow. destruct Hrow as (y & <- & _).
    rewrite length_map, length_seq. reflexivity. }
  unfold collectColorGroups. rewrite Hw, Hh. unfold ofnat. rewrite !iterations_ofZ, !Nat2Z.id.
  rewrite <- Hlen.
  destruct (collectCells_spec (rows frame) cellWidth cellHeight
              (cellPositions (length (rows frame)) w) []
              (cellPositions_valid _ _ _ _ Hrect))
    as (groups & E & Hk & Hn & Hp).
  exists groups. split; [exact E |]. split; [apply Hk; constructor |].
  split; [apply Hn; constructor |]. split; [apply styleChanges_drawGroups |].
  rewrite paint_drawGroups.
  change (colouredGlyphs [] ++ ?l) with l in Hp.
  rewrite (frameGlyphs_by_position _ _ _ _ Hrect) in Hp.
  split; [exact Hp |]. rewrite Hp, (frameGlyphs_length _ _ _ _ Hrect). lia.
Qed.

Lemma glyphs_batched_by_colour_witness :
  exists frame,
    asciiFromVideo tinyVideo newCanvas (utf16 "@$%#*+=-:. ") demoScheme #40 #1
    = Normal (Some frame)
    /\ exists groups : ColorGroups,
         collectColorGroups frame #6 #10 = Normal groups
         /\ NoDup groups.*1
         /\ Forall (fun group => group.2 <> []) groups
         /\ styleChanges (drawGroups groups) = length groups
         /\ paint "#000000" (drawGroups groups) ≡ₚ frameGlyphs (rows frame) #6 #10
         /\ length (paint "#000000" (drawGroups groups))
            = (iterations (width frame) * iterations (height frame))%nat.
Proof.
  destruct tiny_frame as [frame E].
  exists frame. split; [exact E |].
  exact (glyphs_batched_by_colour tinyVideo newCanvas (utf16 "@$%#*+=-:. ")
           demoScheme #40 #1 frame #6 #10 E).
Defined.

(** ** The compressed preview *)

Lemma mobile_denominator_low (x : Qc) :
  (x <= Q2Qc 40)%Qc -> max (orElse (Num x) #40) #40 = #40.
Proof.
  intros H. unfold orElse, is_zero, ofQ. cbn [isNaN]. rewrite Bool.orb_false_r.
  destruct (Qc_eqb x 0); [reflexivity |].
  rewrite max_Num. destruct (Qc_ltb x (Q2Qc 40)) eqn:E; [reflexivity |].
  apply Qc_ltb_ge in E. f_equal. apply Qcle_antisym; assumption.
Qed.

Lemma mobile_denominator_high (x : Qc) :
  (Q2Qc 40 < x)%Qc -> max (orElse (Num x) #40) #40 = Num x.
Proof.
  intros H. unfold orElse, is_zero, ofQ. cbn [isNaN]. rewrite Bool.orb_false_r.
  rewrite Qc_pos_nonzero by (apply Qclt_trans with (Q2Qc 40); [reflexivity | exact H]).
  rewrite max_Num.
  replace (Qc_ltb x (Q2Qc 40)) with false; [reflexivity |].
  symmetry. apply Qc_ltb_ge. apply Qclt_le_weak. exact H.
Qed.

Lemma mobile_quotient_small (x : Qc) :
  (Q2Qc 40 < x)%Qc -> (0 <= Qfloor (Q2Qc 200 / x)%Qc <= 4)%Z.
Proof.
  intros H. unfold Qcdiv.
  assert (Hx : (40 < this x)%Q).
  { unfold Qclt in H. rewrite this_Q2Qc in H. exact H. }
  assert (E : (this (Q2Qc 200 * / x)%Qc == 200 / this x)%Q).
  { rewrite this_mul, this_inv, this_Q2Qc. reflexivity. }
  rewrite E. apply Qfloor_between.
  - change (inject_Z 0) with 0%Q. apply Qle_shift_div_l; lra.
  - change (inject_Z (4 + 1)) with 5%Q. apply Qlt_shift_div_r; lra.
Qed.

(** X27. The font of the compressed preview is 5 px for a frame of at most
    40 rows (and for a height that is 0 or [NaN]) and 4 px for every taller
    frame: it takes no other value, so the upper bound 8 of the source
    never applies. *)
Theorem mobileFontSize_four_or_five (frameHeight : number) :
  mobileFontSize frameHeight = if le frameHeight #40 || isNaN frameHeight then #5 else #4.
Proof.
  destruct frameHeight as [x | | |]; [| vm_compute; reflexivity ..].
  unfold mobileFontSize. cbn [isNaN le]. rewrite Bool.orb_false_r.
  unfold ofQ at 5. 
  destruct (Qc_leb x (Q2Qc 40)) eqn:E.
  - apply Qc_leb_le in E. rewrite (mobile_denominator_low x E). vm_compute. reflexivity.
  - assert (H : (Q2Qc 40 < x)%Qc).
    { apply Qc_ltb_lt. unfold Qc_ltb. unfold Qc_leb in E. rewrite E. reflexivity. }
    rewrite (mobile_denominator_high x H).
    unfold MOBILE_TARGET_HEIGHT, ofQ, div.
    rewrite Qc_pos_nonzero by (apply Qclt_trans with (Q2Qc 40); [reflexivity | exact H]).
    cbn [floor].
    pose proof (mobile_quotient_small x H) as Hz.
    assert (C : Qfloor (Q2Qc 200 / x)%Qc = 0%Z \/ Qfloor (Q2Qc 200 / x)%Qc = 1%Z
                \/ Qfloor (Q2Qc 200 / x)%Qc = 2%Z \/ Qfloor (Q2Qc 200 / x)%Qc = 3%Z
                \/ Qfloor (Q2Qc 200 / x)%Qc = 4%Z) by lia.
    destruct C as [C | [C | [C | [C | C]]]]; rewrite C; vm_compute; reflexivity.
Qed.

(** ** The size of the export canvas *)

Lemma exportFontSize_range (e : Entitlement) (charPixel : number) :
  isNaN charPixel = false ->
  exists f : Qc, exportFontSize (tierConfigOf e) charPixel = Num f
                 /\ (Q2Qc 6 <= f)%Qc /\ (f <= Q2Qc 12)%Qc.
Proof.
  intros Hnan. unfold exportFontSize.
  destruct e, charPixel as [s | | |]; try discriminate Hnan;
    cbv [tierConfigOf minCharPixel FREE_EXPORT_CONFIG PREMIUM_EXPORT_CONFIG ofQ max min lt];
    qc_cases_inner; eexists; (split; [reflexivity |]); split;
    try qc_order; try (vm_compute; congruence); qc_to_q; lra.
Qed.

Lemma scaled_floor_lower (n : nat) (f k : Qc) (count least : Z) :
  (0 <= count <= Z.of_nat n)%Z -> (Q2Qc 6 <= f)%Qc ->
  (inject_Z least <= inject_Z count * (6 * this k))%Q -> (0 <= this k)%Q ->
  exists z : Z, floor (ofnat n * (Num f * Num k)) = ofZ z /\ (least <= z)%Z.
Proof.
  intros Hn Hf Hleast Hk. unfold ofnat, ofZ. cbn [mul floor]. eexists. split; [reflexivity |].
  rewrite <- (Qfloor_Z least). apply Qfloor_resp_le.
  qc_to_q. apply Qle_trans with (1 := Hleast).
  assert (Hc : (inject_Z count <= inject_Z (Z.of_nat n))%Q) by (rewrite <- Zle_Qle; lia).
  assert (H0 : (inject_Z 0 <= inject_Z count)%Q) by (rewrite <- Zle_Qle; lia).
  change (inject_Z 0) with 0%Q in H0.
  revert Hc H0 Hf Hk. generalize (inject_Z count) (inject_Z (Z.of_nat n)) (this f) (this k).
  intros a b x y Hc H0 Hf Hk.
  assert (H1 : (0 <= a * y * (x - 6))%Q) by (repeat apply Qmult_le_0_compat; lra).
  assert (H2 : (0 <= (b - a) * (x * y))%Q) by (repeat apply Qmult_le_0_compat; lra).
  lra.
Qed.

(** X28. The export canvas is never degenerate: for a frame that
    [asciiFromVideo] returns, either tier and every character size that is
    a number, the width and the height given to the export canvas are whole
    numbers of at least 59 and 86 pixels. *)
Theorem export_canvas_not_degenerate (video : HTMLVideoElement) (canvas : HTMLCanvasElement)
    (charset : jsstring) (scheme : Scheme) (size contrast : number) (frame : AsciiFrame)
    (e : Entitlement) (charPixel : number) :
  asciiFromVideo video canvas charset scheme size contrast = Normal (Some frame) ->
  isNaN charPixel = false ->
  exists canvasWidth canvasHeight : Z,
    exportCanvasWidth frame (exportFontSize (tierConfigOf e) charPixel) = ofZ canvasWidth
    /\ exportCanvasHeight frame (exportFontSize (tierConfigOf e) charPixel) = ofZ canvasHeight
    /\ (59 <= canvasWidth)%Z /\ (86 <= canvasHeight)%Z.
Proof.
  intros Hf Hnan.
  destruct (asciiFromVideo_Some _ _ _ _ _ _ _ Hf) as (w & h & Hw & Hh & Hw16 & Hh12 & _).
  destruct (exportFontSize_range e charPixel Hnan) as (f & Ef & Hlo & _).
  unfold exportCanvasWidth, exportCanvasHeight, exportCellWidth, exportCellHeight.
  rewrite Ef, Hw, Hh. unfold ofQ.
  destruct (scaled_floor_lower w f (Q2Qc 0.62) 16 59) as (W & EW & HW);
    [lia | exact Hlo | vm_compute; discriminate | vm_compute; discriminate |].
  destruct (scaled_floor_lower h f (Q2Qc 1.2) 12 86) as (H & EH & HH);
    [lia | exact Hlo | vm_compute; discriminate | vm_compute; discriminate |].
  exists W, H. repeat split; assumption.
Qed.

Lemma export_canvas_not_degenerate_witness :
  exists frame,
    asciiFromVideo tinyVideo newCanvas (utf16 "@$%#*+=-:. ") demoScheme #40 #1
    = Normal (Some frame)
    /\ exists canvasWidth canvasHeight : Z,
         exportCanvasWidth frame (exportFontSize (tierConfigOf free) #40) = ofZ canvasWidth
         /\ exportCanvasHeight frame (exportFontSize (tierConfigOf free) #40) = ofZ canvasHeight
         /\ (59 <= canvasWidth)%Z /\ (86 <= canvasHeight)%Z.
Proof.
  destruct tiny_frame as [frame E].
  exists frame. split; [exact E |].
  exact (export_canvas_not_degenerate tinyVideo newCanvas (utf16 "@$%#*+=-:. ")
           demoScheme #40 #1 frame free #40 E eq_refl).
Defined.
